(** * go-tcp-proxy-tunnel: the per-connection proxy session of pkg/proxy

    A shallow embedding of [pkg/proxy/proxy.go]: the payload setters, the two
    first-packet rewrite hooks, one iteration of the forwarding loop and the
    life cycle of [Start] with its forwarding goroutines.  Go strings and
    byte slices are byte sequences; they are modelled by [string] (a list of
    [ascii], one per byte).  Log output ([fmt.Printf], [fmt.Println]) has no
    influence on the data and is left out. *)

From Stdlib Require Import String Ascii List NArith Bool Arith Lia.
From Stdlib Require Import DecimalString DecimalPos DecimalN.
Import ListNotations.

Local Open Scope list_scope.
Local Open Scope string_scope.

(** ** The parts of Go's [strings], [bufio], [fmt], [net] and [strconv]
       that proxy.go calls *)

Module GoStrings.

Definition CR : ascii := "013"%char.
Definition LF : ascii := "010"%char.

(** The two bytes written as [\r\n] in the Go source. *)
Definition crlf : string := String CR (String LF EmptyString).

(** [strings.HasPrefix s pre]. *)
Fixpoint HasPrefix (s pre : string) {struct pre} : bool :=
  match pre with
  | EmptyString => true
  | String a pre' =>
      match s with
      | EmptyString => false
      | String b s' => Ascii.eqb a b && HasPrefix s' pre'
      end
  end.

(** [strings.Contains s sub]: [sub] occurs in [s] as a run of bytes. *)
Fixpoint Contains (s sub : string) : bool :=
  match s with
  | EmptyString => HasPrefix EmptyString sub
  | String _ s' => HasPrefix s sub || Contains s' sub
  end.

(** The scan of [strings.Replace s old new (-1)] for a non-empty [old]:
    left to right, occurrences that do not overlap; [skip] counts the bytes
    of the occurrence just replaced that are still to be passed. *)
Fixpoint replace_from (old new s : string) (skip : nat) : string :=
  match s with
  | EmptyString => EmptyString
  | String c s' =>
      match skip with
      | S k => replace_from old new s' k
      | O =>
          if HasPrefix (String c s') old
          then new ++ replace_from old new s' (String.length old - 1)
          else String c (replace_from old new s' 0)
      end
  end.

(** [strings.Replace s old new (-1)].  Every call in proxy.go passes a
    non-empty [old]; Go's rule for an empty [old] (insert [new] at every
    rune boundary) needs UTF-8 decoding and is not part of the model: the
    string is returned as it is, and nothing below relies on that case. *)
Definition Replace (s old new : string) : string :=
  match old with
  | EmptyString => s
  | String _ _ => replace_from old new s 0
  end.

(** The scan of [strings.Split s sep] for a non-empty [sep]; [cur] is the
    field being collected. *)
Fixpoint split_from (sep s cur : string) (skip : nat) : list string :=
  match s with
  | EmptyString => [cur]
  | String c s' =>
      match skip with
      | S k => split_from sep s' cur k
      | O =>
          if HasPrefix (String c s') sep
          then cur :: split_from sep s' EmptyString (String.length sep - 1)
          else split_from sep s' (cur ++ String c EmptyString) 0
      end
  end.

(** [strings.Split s sep], for the non-empty separators of proxy.go. *)
Definition Split (s sep : string) : list string :=
  match sep with
  | EmptyString => [s]
  | String _ _ => split_from sep s EmptyString 0
  end.

(** [strings.Join elems sep]. *)
Fixpoint Join (elems : list string) (sep : string) : string :=
  match elems with
  | [] => EmptyString
  | [e] => e
  | e :: rest => e ++ sep ++ Join rest sep
  end.

(** The ASCII path of [strings.ToLower]: bytes 'A'..'Z' move to 'a'..'z'. *)
Definition lower_byte (c : ascii) : ascii :=
  if Ascii.leb "A"%char c && Ascii.leb c "Z"%char
  then ascii_of_N (N_of_ascii c + 32)
  else c.

Fixpoint map_bytes (f : ascii -> ascii) (s : string) : string :=
  match s with
  | EmptyString => EmptyString
  | String c s' => String (f c) (map_bytes f s')
  end.

(** No byte at or above [utf8.RuneSelf] (0x80). *)
Fixpoint isASCII (s : string) : bool :=
  match s with
  | EmptyString => true
  | String c s' => (N_of_ascii c <? 128)%N && isASCII s'
  end.

(** [bufio.MaxScanTokenSize]. *)
Definition MaxScanTokenSize : N := 65536.

(** [dropCR] of bufio: one trailing carriage return is removed. *)
Fixpoint dropCR (s : string) : string :=
  match s with
  | EmptyString => EmptyString
  | String c EmptyString => if Ascii.eqb c CR then EmptyString else s
  | String c s' => String c (dropCR s')
  end.

(** A token of [bufio.ScanLines] is delivered when it fits the scanner's
    buffer; a line of [MaxScanTokenSize] bytes or more ends the scan with
    [ErrTooLong], and the loop [for buffScanner.Scan()] stops there. *)
Definition emit_line (cur : string) (rest : list string) : list string :=
  if (MaxScanTokenSize <=? N.of_nat (String.length cur))%N
  then []
  else dropCR cur :: rest.

(** The tokens read by [for buffScanner.Scan() { ... buffScanner.Text() }]
    over [bufio.NewScanner(strings.NewReader(s))]: lines end at a line feed,
    a last line without one is delivered when it is not empty. *)
Fixpoint lines_from (s cur : string) : list string :=
  match s with
  | EmptyString =>
      match cur with
      | EmptyString => []
      | String _ _ => emit_line cur []
      end
  | String c s' =>
      if Ascii.eqb c LF
      then emit_line cur (lines_from s' EmptyString)
      else lines_from s' (cur ++ String c EmptyString)
  end.

Definition scan_lines (s : string) : list string := lines_from s EmptyString.

(** [fmt.Sprintf("%d", n)] for an unsigned integer. *)
Definition format_uint (n : N) : string := NilZero.string_of_uint (N.to_uint n).

End GoStrings.
Import GoStrings.

(** ** Go library calls of [SetServerHost] *)

Module GoNet.

Fixpoint index_byte (c : ascii) (s : string) : option nat :=
  match s with
  | EmptyString => None
  | String b s' =>
      if Ascii.eqb b c then Some 0
      else option_map S (index_byte c s')
  end.

Fixpoint last_index_byte (c : ascii) (s : string) : option nat :=
  match s with
  | EmptyString => None
  | String b s' =>
      match last_index_byte c s' with
      | Some i => Some (S i)
      | None => if Ascii.eqb b c then Some 0 else None
      end
  end.

(** The slice [s[from:]]. *)
Fixpoint drop (from : nat) (s : string) : string :=
  match from, s with
  | O, _ => s
  | S k, EmptyString => EmptyString
  | S k, String _ s' => drop k s'
  end.

(** The slice [s[from:to]]. *)
Definition slice (from to : nat) (s : string) : string :=
  substring from (to - from) s.

Definition absent (c : ascii) (s : string) : bool :=
  match index_byte c s with
  | None => true
  | Some _ => false
  end.

(** [net.SplitHostPort]: the port starts after the last colon; a host in
    square brackets may hold colons; [None] stands for the [AddrError]. *)
Definition SplitHostPort (hostport : string) : option (string * string) :=
  match last_index_byte ":" hostport with
  | None => None
  | Some i =>
      let bracketed :=
        match hostport with
        | String "[" _ =>
            match index_byte "]" hostport with
            | None => None
            | Some e =>
                if Nat.eqb (e + 1) (String.length hostport) then None
                else if Nat.eqb (e + 1) i then Some (slice 1 e hostport, 1, e + 1)
                else None
            end
        | _ =>
            let host := slice 0 i hostport in
            if absent ":" host then Some (host, 0, 0) else None
        end in
      match bracketed with
      | None => None
      | Some (host, j, k) =>
          if absent "[" (drop j hostport) && absent "]" (drop k hostport)
          then Some (host, drop (i + 1) hostport)
          else None
      end
  end.

(** Value of a decimal digit byte. *)
Definition digit_value (c : ascii) : option N :=
  if Ascii.leb "0"%char c && Ascii.leb c "9"%char
  then Some (N_of_ascii c - 48)%N
  else None.

Definition maxUint64 : N := 18446744073709551615.

(** The digit loop of [strconv.ParseUint(s, 10, 64)]: a byte that is no
    digit is a syntax error, a value above [maxUint64] a range error. *)
Fixpoint parse_digits (s : string) (acc : N) : option N :=
  match s with
  | EmptyString => Some acc
  | String c s' =>
      match digit_value c with
      | None => None
      | Some d =>
          let n := (acc * 10 + d)%N in
          if (maxUint64 <? n)%N then None else parse_digits s' n
      end
  end.

(** [strconv.ParseUint(s, 10, 64)]; [None] stands for the error. *)
Definition ParseUint (s : string) : option N :=
  match s with
  | EmptyString => None
  | String _ _ => parse_digits s 0
  end.

End GoNet.
Import GoNet.

(** ** The session *)

(** A [net.Conn] handle of the session: the stream accepted by the listener
    and the stream dialed by [Start]. *)
Inductive Conn : Type :=
| AcceptedConn
| DialedConn.

Definition Conn_eqb (a b : Conn) : bool :=
  match a, b with
  | AcceptedConn, AcceptedConn => true
  | DialedConn, DialedConn => true
  | _, _ => false
  end.

(** Modelled from the spec: [tcp.Host] of package internal/tcp, which is
    not among the sources: the parsed host name and port of the data
    model, with the two fields [SetServerHost] and [SetlPayload] use; the
    root package's proxy.go declares its [Host] alike. *)
Record Host : Type := mkHost {
  HostName : string;
  Port : N
}.

(** The struct [Proxy].  [rConn] is nil until the dial succeeds; addresses
    are kept in their printed form; [errSig], a buffered [chan bool], is
    the number of values waiting in it; [uint64] fields are [N]. *)
Record Proxy : Type := mkProxy {
  secure : bool;
  connectionInfoPrefix : string;
  proxyKind : string;
  conn : Conn;
  lConn : Conn;
  rConn : option Conn;
  lAddr : string;
  rAddr : string;
  sHost : Host;
  tlsEnabled : bool;
  sniHost : string;
  lPayload : string;
  rPayload : string;
  buffSize : N;
  lInitialized : bool;
  rInitialized : bool;
  bytesReceived : N;
  bytesSent : N;
  erred : bool;
  errSig : nat;
  connId : N;
  serverProxyMode : bool;
  wsUpgradeInitialized : bool
}.

Definition with_connectionInfoPrefix (v : string) (p : Proxy) : Proxy :=
  mkProxy (secure p) v (proxyKind p) (conn p) (lConn p) (rConn p) (lAddr p)
    (rAddr p) (sHost p) (tlsEnabled p) (sniHost p) (lPayload p) (rPayload p)
    (buffSize p) (lInitialized p) (rInitialized p) (bytesReceived p)
    (bytesSent p) (erred p) (errSig p) (connId p) (serverProxyMode p)
    (wsUpgradeInitialized p).

Definition with_proxyKind (v : string) (p : Proxy) : Proxy :=
  mkProxy (secure p) (connectionInfoPrefix p) v (conn p) (lConn p) (rConn p)
    (lAddr p) (rAddr p) (sHost p) (tlsEnabled p) (sniHost p) (lPayload p)
    (rPayload p) (buffSize p) (lInitialized p) (rInitialized p)
    (bytesReceived p) (bytesSent p) (erred p) (errSig p) (connId p)
    (serverProxyMode p) (wsUpgradeInitialized p).

Definition with_rConn (v : option Conn) (p : Proxy) : Proxy :=
  mkProxy (secure p) (connectionInfoPrefix p) (proxyKind p) (conn p)
    (lConn p) v (lAddr p) (rAddr p) (sHost p) (tlsEnabled p) (sniHost p)
    (lPayload p) (rPayload p) (buffSize p) (lInitialized p) (rInitialized p)
    (bytesReceived p) (bytesSent p) (erred p) (errSig p) (connId p)
    (serverProxyMode p) (wsUpgradeInitialized p).

Definition with_sHost (v : Host) (p : Proxy) : Proxy :=
  mkProxy (secure p) (connectionInfoPrefix p) (proxyKind p) (conn p)
    (lConn p) (rConn p) (lAddr p) (rAddr p) v (tlsEnabled p) (sniHost p)
    (lPayload p) (rPayload p) (buffSize p) (lInitialized p) (rInitialized p)
    (bytesReceived p) (bytesSent p) (erred p) (errSig p) (connId p)
    (serverProxyMode p) (wsUpgradeInitialized p).

Definition with_tlsEnabled (v : bool) (p : Proxy) : Proxy :=
  mkProxy (secure p) (connectionInfoPrefix p) (proxyKind p) (conn p)
    (lConn p) (rConn p) (lAddr p) (rAddr p) (sHost p) v (sniHost p)
    (lPayload p) (rPayload p) (buffSize p) (lInitialized p) (rInitialized p)
    (bytesReceived p) (bytesSent p) (erred p) (errSig p) (connId p)
    (serverProxyMode p) (wsUpgradeInitialized p).

Definition with_sniHost (v : string) (p : Proxy) : Proxy :=
  mkProxy (secure p) (connectionInfoPrefix p) (proxyKind p) (conn p)
    (lConn p) (rConn p) (lAddr p) (rAddr p) (sHost p) (tlsEnabled p) v
    (lPayload p) (rPayload p) (buffSize p) (lInitialized p) (rInitialized p)
    (bytesReceived p) (bytesSent p) (erred p) (errSig p) (connId p)
    (serverProxyMode p) (wsUpgradeInitialized p).

Definition with_lPayload (v : string) (p : Proxy) : Proxy :=
  mkProxy (secure p) (connectionInfoPrefix p) (proxyKind p) (conn p)
    (lConn p) (rConn p) (lAddr p) (rAddr p) (sHost p) (tlsEnabled p)
    (sniHost p) v (rPayload p) (buffSize p) (lInitialized p)
    (rInitialized p) (bytesReceived p) (bytesSent p) (erred p) (errSig p)
    (connId p) (serverProxyMode p) (wsUpgradeInitialized p).

Definition with_rPayload (v : string) (p : Proxy) : Proxy :=
  mkProxy (secure p) (connectionInfoPrefix p) (proxyKind p) (conn p)
    (lConn p) (rConn p) (lAddr p) (rAddr p) (sHost p) (tlsEnabled p)
    (sniHost p) (lPayload p) v (buffSize p) (lInitialized p)
    (rInitialized p) (bytesReceived p) (bytesSent p) (erred p) (errSig p)
    (connId p) (serverProxyMode p) (wsUpgradeInitialized p).

Definition with_buffSize (v : N) (p : Proxy) : Proxy :=
  mkProxy (secure p) (connectionInfoPrefix p) (proxyKind p) (conn p)
    (lConn p) (rConn p) (lAddr p) (rAddr p) (sHost p) (tlsEnabled p)
    (sniHost p) (lPayload p) (rPayload p) v (lInitialized p)
    (rInitialized p) (bytesReceived p) (bytesSent p) (erred p) (errSig p)
    (connId p) (serverProxyMode p) (wsUpgradeInitialized p).

Definition with_lInitialized (v : bool) (p : Proxy) : Proxy :=
  mkProxy (secure p) (connectionInfoPrefix p) (proxyKind p) (conn p)
    (lConn p) (rConn p) (lAddr p) (rAddr p) (sHost p) (tlsEnabled p)
    (sniHost p) (lPayload p) (rPayload p) (buffSize p) v (rInitialized p)
    (bytesReceived p) (bytesSent p) (erred p) (errSig p) (connId p)
    (serverProxyMode p) (wsUpgradeInitialized p).

Definition with_rInitialized (v : bool) (p : Proxy) : Proxy :=
  mkProxy (secure p) (connectionInfoPrefix p) (proxyKind p) (conn p)
    (lConn p) (rConn p) (lAddr p) (rAddr p) (sHost p) (tlsEnabled p)
    (sniHost p) (lPayload p) (rPayload p) (buffSize p) (lInitialized p) v
    (bytesReceived p) (bytesSent p) (erred p) (errSig p) (connId p)
    (serverProxyMode p) (wsUpgradeInitialized p).

Definition with_bytesReceived (v : N) (p : Proxy) : Proxy :=
  mkProxy (secure p) (connectionInfoPrefix p) (proxyKind p) (conn p)
    (lConn p) (rConn p) (lAddr p) (rAddr p) (sHost p) (tlsEnabled p)
    (sniHost p) (lPayload p) (rPayload p) (buffSize p) (lInitialized p)
    (rInitialized p) v (bytesSent p) (erred p) (errSig p) (connId p)
    (serverProxyMode p) (wsUpgradeInitialized p).

Definition with_bytesSent (v : N) (p : Proxy) : Proxy :=
  mkProxy (secure p) (connectionInfoPrefix p) (proxyKind p) (conn p)
    (lConn p) (rConn p) (lAddr p) (rAddr p) (sHost p) (tlsEnabled p)
    (sniHost p) (lPayload p) (rPayload p) (buffSize p) (lInitialized p)
    (rInitialized p) (bytesReceived p) v (erred p) (errSig p) (connId p)
    (serverProxyMode p) (wsUpgradeInitialized p).

Definition with_erred (v : bool) (p : Proxy) : Proxy :=
  mkProxy (secure p) (connectionInfoPrefix p) (proxyKind p) (conn p)
    (lConn p) (rConn p) (lAddr p) (rAddr p) (sHost p) (tlsEnabled p)
    (sniHost p) (lPayload p) (rPayload p) (buffSize p) (lInitialized p)
    (rInitialized p) (bytesReceived p) (bytesSent p) v (errSig p) (connId p)
    (serverProxyMode p) (wsUpgradeInitialized p).

Definition with_errSig (v : nat) (p : Proxy) : Proxy :=
  mkProxy (secure p) (connectionInfoPrefix p) (proxyKind p) (conn p)
    (lConn p) (rConn p) (lAddr p) (rAddr p) (sHost p) (tlsEnabled p)
    (sniHost p) (lPayload p) (rPayload p) (buffSize p) (lInitialized p)
    (rInitialized p) (bytesReceived p) (bytesSent p) (erred p) v (connId p)
    (serverProxyMode p) (wsUpgradeInitialized p).

Definition with_serverProxyMode (v : bool) (p : Proxy) : Proxy :=
  mkProxy (secure p) (connectionInfoPrefix p) (proxyKind p) (conn p)
    (lConn p) (rConn p) (lAddr p) (rAddr p) (sHost p) (tlsEnabled p)
    (sniHost p) (lPayload p) (rPayload p) (buffSize p) (lInitialized p)
    (rInitialized p) (bytesReceived p) (bytesSent p) (erred p) (errSig p)
    (connId p) v (wsUpgradeInitialized p).

Definition with_wsUpgradeInitialized (v : bool) (p : Proxy) : Proxy :=
  mkProxy (secure p) (connectionInfoPrefix p) (proxyKind p) (conn p)
    (lConn p) (rConn p) (lAddr p) (rAddr p) (sHost p) (tlsEnabled p)
    (sniHost p) (lPayload p) (rPayload p) (buffSize p) (lInitialized p)
    (rInitialized p) (bytesReceived p) (bytesSent p) (erred p) (errSig p)
    (connId p) (serverProxyMode p) v.

(** Capacity of [errSig]: [make(chan bool, 2)]. *)
Definition errSigCap : nat := 2.

(** [NewProxy]: the fields it does not name hold Go's zero values. *)
Definition NewProxy (connId : N) (conn : Conn) (lAddr rAddr : string)
    (secure : bool) : Proxy :=
  {| secure := secure;
     connectionInfoPrefix := EmptyString;
     proxyKind := EmptyString;
     conn := conn;
     lConn := conn;
     rConn := None;
     lAddr := lAddr;
     rAddr := rAddr;
     sHost := mkHost EmptyString 0;
     tlsEnabled := false;
     sniHost := EmptyString;
     lPayload := EmptyString;
     rPayload := EmptyString;
     buffSize := 65535;
     lInitialized := false;
     rInitialized := false;
     bytesReceived := 0;
     bytesSent := 0;
     erred := false;
     errSig := 0;
     connId := connId;
     serverProxyMode := false;
     wsUpgradeInitialized := false |}.

(** ** Configuration setters *)

(** [s] is not the empty string: the tests of [SetlPayload] and
    [SetrPayload]. *)
Definition nonempty (s : string) : bool :=
  match s with
  | EmptyString => false
  | String _ _ => true
  end.

(** [fmt.Sprintf("%s:%d", h.HostName, h.Port)]. *)
Definition host_port (h : Host) : string :=
  HostName h ++ ":" ++ format_uint (Port h).

(** The template after the two host substitutions of [SetlPayload]. *)
Definition expand_host (h : Host) (t : string) : string :=
  if nonempty (HostName h)
  then Replace (Replace t "[host]" (HostName h)) "[host_port]" (host_port h)
  else t.

(** The template after the SNI substitution of [SetlPayload]. *)
Definition expand_sni (sni t : string) : string :=
  if nonempty sni then Replace t "[sni]" sni else t.

Definition expand_crlf (t : string) : string := Replace t "[crlf]" crlf.

Definition SetlPayload (lPayload : string) (p : Proxy) : Proxy :=
  with_lPayload
    (expand_crlf (expand_sni (sniHost p) (expand_host (sHost p) lPayload))) p.

Definition default_rPayload : string :=
  "HTTP/1.1 200 Connection Established[crlf][crlf]".

Definition SetrPayload (rPayload : string) (p : Proxy) : Proxy :=
  let rPayload := if nonempty rPayload then rPayload else default_rPayload in
  with_rPayload (expand_crlf rPayload) p.

Definition SetServerProxyMode (enabled : bool) (p : Proxy) : Proxy :=
  with_serverProxyMode enabled p.

(** [SetServerHost]: either parse error is logged and leaves [sHost] as it
    was. *)
Definition SetServerHost (server : string) (p : Proxy) : Proxy :=
  match SplitHostPort server with
  | None => p
  | Some (sHost, sPort) =>
      match ParseUint sPort with
      | None => p
      | Some sPortParsed => with_sHost (mkHost sHost sPortParsed) p
      end
  end.

Definition SetBufferSize (buffSize : N) (p : Proxy) : Proxy :=
  with_buffSize buffSize p.

Definition SetEnableTLS (enabled : bool) (p : Proxy) : Proxy :=
  with_tlsEnabled enabled p.

Definition SetSNIHost (hostname : string) (p : Proxy) : Proxy :=
  with_sniHost hostname p.

Definition SetProxyKind (kind : string) (p : Proxy) : Proxy :=
  let tls := if secure p then " (TLS)" else EmptyString in
  with_connectionInfoPrefix
    ("CONN " ++ kind ++ tls ++ " #" ++ format_uint (connId p))
    (with_proxyKind kind p).

(** ** The first-packet rewrite hooks *)

(** The response that answers a WebSocket upgrade in server mode. *)
Definition upgrade_response : string :=
  "HTTP/1.1 101 Switching Protocols" ++ crlf ++
  "Upgrade: websocket" ++ crlf ++
  "Connection: Upgrade" ++ crlf ++ crlf.

(** The runtime's bound on an allocation on linux/amd64, 2^48 bytes, for
    the examples. *)
Definition maxAlloc_amd64 : N := 281474976710656.

(** An instance of the parameter of [ToLower] below, for the examples,
    without Unicode's case tables.  Of the runes outside ASCII,
    [unicode.ToLower] maps two to an ASCII letter: the dotted capital I,
    U+0130 (the bytes C4 B0 in UTF-8), to i, and the Kelvin sign, U+212A
    (E2 84 AA), to k.  The instance maps these two and leaves every other
    byte as it is.  Neither C4 nor E2 continues a UTF-8 sequence, so the
    two are found where the decoder of [strings.ToLower] finds them. *)
Fixpoint no_case_tables (s : string) : string :=
  match s with
  | EmptyString => EmptyString
  | String a s1 =>
      match s1 with
      | EmptyString => String a EmptyString
      | String b s2 =>
          if (N_of_ascii a =? 196)%N && (N_of_ascii b =? 176)%N
          then String "i" (no_case_tables s2)
          else
            match s2 with
            | EmptyString => String a (no_case_tables s1)
            | String c s3 =>
                if (N_of_ascii a =? 226)%N && (N_of_ascii b =? 132)%N &&
                   (N_of_ascii c =? 170)%N
                then String "k" (no_case_tables s3)
                else String a (no_case_tables s1)
            end
      end
  end.

Section Hooks.

(** [strings.ToLower] maps a string rune by rune.  An ASCII byte is a rune
    of its own and is lower-cased as [lower_byte] does, also in a string
    that holds other bytes.  The bytes at or above 0x80 that stand between
    two ASCII bytes are decoded as UTF-8 on their own (an ASCII byte never
    continues a sequence), mapped through Unicode's case tables and encoded
    again.  The tables and the codec are not part of this development:
    what they make of such a run of bytes is a parameter, and every
    statement below holds whatever it returns. *)
Variable unicode_ToLower : string -> string.

(** The run of bytes at or above 0x80 collected so far, lower-cased. *)
Definition lower_run (run : string) : string :=
  match run with
  | EmptyString => EmptyString
  | String _ _ => unicode_ToLower run
  end.

(** The scan of [strings.ToLower]; [run] holds the bytes at or above 0x80
    read since the last ASCII byte. *)
Fixpoint lower_from (s run : string) : string :=
  match s with
  | EmptyString => lower_run run
  | String c s' =>
      if (N_of_ascii c <? 128)%N
      then lower_run run ++ String (lower_byte c) (lower_from s' EmptyString)
      else lower_from s' (run ++ String c EmptyString)
  end.

Definition ToLower (s : string) : string := lower_from s EmptyString.

(** The test made on each scanned line of the first outbound buffer. *)
Definition is_upgrade_line (line : string) : bool :=
  Contains (ToLower line) "upgrade: websocket".

(** [doUpgrade] after the scanning loop of [handleOutboundData]. *)
Definition doUpgrade (respArr : list string) : bool :=
  existsb is_upgrade_line respArr.

(** The branch [p.proxyKind == "ssh" && strings.Contains(respArr[0], ...)]
    of client mode.  [&&] evaluates [respArr[0]] only for kind "ssh"; an
    empty [respArr] then panics (index out of range): [None]. *)
Definition rewrite_ssh (p : Proxy) (respArr : list string)
    (connBuff : string) : option string :=
  if String.eqb (proxyKind p) "ssh" then
    match respArr with
    | [] => None
    | first :: _ =>
        Some (if Contains first "CONNECT " then lPayload p else connBuff)
    end
  else Some connBuff.

(** The branch [p.proxyKind == "trojan"] of client mode; [respArr[0]] and
    [strings.Split(...)[1]] panic when the element is missing: [None]. *)
Definition rewrite_trojan (p : Proxy) (respArr : list string)
    (connBuff : string) : option string :=
  if String.eqb (proxyKind p) "trojan" then
    match respArr with
    | [] => None
    | first :: _ =>
        match Split first " " with
        | _ :: reqPath :: _ =>
            let newReqPath := " wss://" ++ sniHost p ++ reqPath ++ " " in
            Some (Replace connBuff (" " ++ reqPath ++ " ") newReqPath)
        | _ => None
        end
    end
  else Some connBuff.

(** [handleOutboundData]: the session after the call and the new contents
    of [*connBuff]; [None] when the goroutine panics. *)
Definition handleOutboundData (p : Proxy) (connBuff : string)
    : option (Proxy * string) :=
  if lInitialized p then Some (p, connBuff)
  else
    let respArr := scan_lines connBuff in
    if serverProxyMode p then
      if doUpgrade respArr
      then Some (with_lInitialized true (with_wsUpgradeInitialized true p),
                 upgrade_response)
      else Some (with_lInitialized true p, connBuff)
    else
      match rewrite_ssh p respArr connBuff with
      | None => None
      | Some buff1 =>
          match rewrite_trojan p respArr buff1 with
          | None => None
          | Some buff2 => Some (with_lInitialized true p, buff2)
          end
      end.

(** The first line after the test for a 101 response. *)
Definition inbound_first_line (p : Proxy) (first : string) : string :=
  if Contains first " 101 " && String.eqb (proxyKind p) "ssh"
  then Replace (rPayload p) crlf EmptyString
  else first.

(** [handleInboundData]; [respArr[0]] is read whatever the mode, so a
    buffer without a line panics: [None]. *)
Definition handleInboundData (p : Proxy) (connBuff : string)
    : option (Proxy * string) :=
  if rInitialized p then Some (p, connBuff)
  else
    match scan_lines connBuff with
    | [] => None
    | first :: rest =>
        let respArr := inbound_first_line p first :: rest in
        let buff :=
          if serverProxyMode p then connBuff
          else Join respArr crlf ++ crlf in
        Some (with_rInitialized true p, buff)
    end.

(** ** One iteration of the loop of [handleForwardData] *)

(** The pair [(n, err)] returned by [Write]. *)
Record WriteResult : Type := mkWrite {
  written : N;
  write_failed : bool
}.

(** What an iteration does to the outside: a [Write] on a stream, a
    [go p.handleForwardData(src, dst)]. *)
Inductive Effect : Type :=
| EWrite (on : Conn) (data : string)
| ESpawn (src dst : Conn).

(** How an iteration ends: back to the top of the loop, or [p.err()]
    followed by [return]. *)
Inductive Outcome : Type :=
| Continue
| CallErr.

(** [x += uint64(n)] on a [uint64]. *)
Definition add_uint64 (x n : N) : N := ((x + n) mod 2 ^ 64)%N.

(** A rewrite hook: the session and the buffer after the call, [None] for
    a panic. *)
Definition Hook : Type := Proxy -> string -> option (Proxy * string).

(** The loop body after a successful [src.Read]: [connBuff] holds the bytes
    read and [wr] is what the one [Write] of this iteration returns.
    [None] when the hook panics.  The body is the same text in
    pkg/proxy/proxy.go and in the older proxy.go of the root package, which
    differ in their hooks. *)
Definition forward_body_with (outbound inbound : Hook) (p : Proxy)
    (src dst : Conn) (connBuff : string) (wr : WriteResult)
    : option (Proxy * list Effect * Outcome) :=
  let isLocal := Conn_eqb src (lConn p) in
  let hooked :=
    if isLocal then outbound p connBuff
    else inbound p connBuff in
  match hooked with
  | None => None
  | Some (p1, buff) =>
      let '(p2, effects) :=
        if serverProxyMode p1 && wsUpgradeInitialized p1
        then (with_wsUpgradeInitialized false p1,
              [EWrite src buff; ESpawn dst src])
        else (p1, [EWrite dst buff]) in
      if write_failed wr then Some (p2, effects, CallErr)
      else
        let p3 :=
          if isLocal
          then with_bytesSent (add_uint64 (bytesSent p2) (written wr)) p2
          else with_bytesReceived
                 (add_uint64 (bytesReceived p2) (written wr)) p2 in
        Some (p3, effects, Continue)
  end.

Definition forward_body : Proxy -> Conn -> Conn -> string -> WriteResult ->
    option (Proxy * list Effect * Outcome) :=
  forward_body_with handleOutboundData handleInboundData.

(** The hooks of the root package's proxy.go, an older state of the same
    session: the whole buffer is searched, not its lines. *)
Definition legacy_handleOutboundData : Hook := fun p connBuff =>
  if lInitialized p then Some (p, connBuff)
  else if serverProxyMode p then
    if Contains (ToLower connBuff) "upgrade: websocket"
    then Some (with_lInitialized true (with_wsUpgradeInitialized true p),
               "HTTP/1.1 101 Switching Protocols" ++ crlf ++ crlf)
    else Some (with_lInitialized true p, connBuff)
  else
    Some (with_lInitialized true p,
          if Contains connBuff "CONNECT " then lPayload p else connBuff).

Definition legacy_handleInboundData : Hook := fun p connBuff =>
  if rInitialized p then Some (p, connBuff)
  else
    Some (with_rInitialized true p,
          if Contains connBuff "HTTP/1." && negb (serverProxyMode p)
          then rPayload p else connBuff).

Definition legacy_forward_body : Proxy -> Conn -> Conn -> string ->
    WriteResult -> option (Proxy * list Effect * Outcome) :=
  forward_body_with legacy_handleOutboundData legacy_handleInboundData.

(** A whole iteration: [rd] is [None] when [src.Read] returns an error. *)
Definition forward_iteration (p : Proxy) (src dst : Conn)
    (rd : option string) (wr : WriteResult)
    : option (Proxy * list Effect * Outcome) :=
  match rd with
  | None => Some (p, [], CallErr)
  | Some connBuff => forward_body p src dst connBuff wr
  end.

(** The same hook applied to the buffers read one after the other in its
    direction; the buffers as they reach the forwarding write. *)
Fixpoint hook_run (hook : Hook) (p : Proxy) (buffers : list string) : option (Proxy * list string) :=
  match buffers with
  | [] => Some (p, [])
  | b :: rest =>
      match hook p b with
      | None => None
      | Some (p1, b1) =>
          match hook_run hook p1 rest with
          | None => None
          | Some (p2, out) => Some (p2, b1 :: out)
          end
      end
  end.

(** ** The life cycle: [Start], its goroutines and [err] *)

(** Where [Start] stands. *)
Inductive StartPc : Type :=
| AtDial          (* [defer CloseConnection(p.lConn)] done, dial pending *)
| AtGoOutbound    (* dial succeeded, [defer CloseConnection(p.rConn)] done *)
| AtGoInbound     (* [go p.handleForwardData(p.lConn, p.rConn)] done *)
| AtReceive       (* blocked in [<-p.errSig] *)
| AtCloseRemote   (* returning: deferred close of [rConn] pending *)
| AtCloseLocal    (* returning: deferred close of [lConn] pending *)
| Returned.

(** Where a forwarding goroutine stands; [err] is three statements. *)
Inductive TaskPc : Type :=
| Entry           (* started, before [buffer := make([]byte, p.buffSize)] *)
| InLoop          (* at the top of [for] *)
| ErrTest         (* in [err], before [if p.erred] *)
| ErrSend         (* in [err], before [p.errSig <- true] *)
| ErrMark         (* in [err], before [p.erred = true] *)
| Finished.

Record Task : Type := mkTask {
  t_src : Conn;
  t_dst : Conn;
  t_pc : TaskPc
}.

(** The process as far as one session is concerned: the shared [Proxy],
    [Start], the goroutines started so far, and counters of what happened
    ([sends] and [recvs] on [errSig], [Close] calls per stream).  [crashed]
    is set by a panic, which ends the process. *)
Record World : Type := mkWorld {
  px : Proxy;
  start : StartPc;
  tasks : list Task;
  sends : nat;
  recvs : nat;
  lclosed : nat;
  rclosed : nat;
  crashed : bool
}.

Definition initial (p : Proxy) : World :=
  mkWorld p AtDial [] 0 0 0 0 false.

(** The goroutines an iteration starts. *)
Fixpoint spawned (effects : list Effect) : list Task :=
  match effects with
  | [] => []
  | ESpawn s d :: rest => mkTask s d Entry :: spawned rest
  | EWrite _ _ :: rest => spawned rest
  end.

Definition pc_after (o : Outcome) : TaskPc :=
  match o with
  | Continue => InLoop
  | CallErr => ErrTest
  end.

(** Modelled from the spec: [tcp.CloseConnection] of package internal/tcp,
    which is not among the sources: a call releases its stream, as
    [closeConnection] of the root package's proxy.go does with
    [conn.Close()].  The number of [Close] calls on a stream after one
    more. *)
Definition CloseConnection (calls : nat) : nat := S calls.

(** One atomic step of [Start].  The two deferred calls run when [Start]
    returns, the later one first. *)
Inductive start_step : World -> World -> Prop :=
| dial_fails p ts s r lc rc :
    start_step (mkWorld p AtDial ts s r lc rc false)
               (mkWorld p AtCloseLocal ts s r lc rc false)
| dial_succeeds p ts s r lc rc :
    start_step (mkWorld p AtDial ts s r lc rc false)
               (mkWorld (with_rConn (Some DialedConn) p) AtGoOutbound
                        ts s r lc rc false)
| go_outbound p ts s r lc rc :
    start_step (mkWorld p AtGoOutbound ts s r lc rc false)
               (mkWorld p AtGoInbound
                        (ts ++ [mkTask (lConn p) DialedConn Entry])
                        s r lc rc false)
| go_inbound p ts s r lc rc :
    start_step (mkWorld p AtGoInbound ts s r lc rc false)
               (mkWorld p AtReceive
                        (if serverProxyMode p then ts
                         else ts ++ [mkTask DialedConn (lConn p) Entry])
                        s r lc rc false)
| receive p ts s r lc rc :
    0 < errSig p ->
    start_step (mkWorld p AtReceive ts s r lc rc false)
               (mkWorld (with_errSig (errSig p - 1) p) AtCloseRemote
                        ts s (S r) lc rc false)
| close_remote p ts s r lc rc :
    start_step (mkWorld p AtCloseRemote ts s r lc rc false)
               (mkWorld p AtCloseLocal ts s r lc (CloseConnection rc) false)
| close_local p ts s r lc rc :
    start_step (mkWorld p AtCloseLocal ts s r lc rc false)
               (mkWorld p Returned ts s r (CloseConnection lc) rc false).

(** The largest slice the Go runtime allocates ([maxAlloc] of
    runtime/malloc.go, 2^48 bytes on linux/amd64): [make([]byte, n)] with a
    larger [n] panics with "makeslice: len out of range".  Exhaustion of
    the memory below that bound is not modelled. *)
Variable maxAlloc : N.

(** One atomic step of a goroutine: the proxy and its own program counter
    after the step, the goroutines it starts, whether it sent on [errSig],
    whether it panicked.  A goroutine starts with
    [buffer := make([]byte, p.buffSize)], which panics when the size is
    beyond what the runtime allocates.  Reads and writes succeed or fail as
    the environment decides.  An iteration of the loop is one step: the fields
    it works on (the latch and the byte counter of its direction, the
    upgrade flag) are those of its own direction, and the upgrade flag is
    set and cleared before the reverse goroutine exists.  The three
    statements of [err] are three steps, as [erred] and [errSig] are
    shared by all goroutines. *)
Inductive task_step : Proxy -> Task -> Proxy -> Task -> list Task ->
                      nat -> bool -> Prop :=
| entry_allocates p src dst :
    (buffSize p <= maxAlloc)%N ->
    task_step p (mkTask src dst Entry) p (mkTask src dst InLoop) [] 0 false
| entry_panics p src dst :
    (maxAlloc < buffSize p)%N ->
    task_step p (mkTask src dst Entry) p (mkTask src dst Entry) [] 0 true
| iteration p src dst rd wr p' effects o :
    forward_iteration p src dst rd wr = Some (p', effects, o) ->
    task_step p (mkTask src dst InLoop)
              p' (mkTask src dst (pc_after o)) (spawned effects) 0 false
| iteration_panics p src dst rd wr :
    forward_iteration p src dst rd wr = None ->
    task_step p (mkTask src dst InLoop) p (mkTask src dst InLoop) [] 0 true
| err_test p src dst :
    task_step p (mkTask src dst ErrTest)
              p (mkTask src dst (if erred p then Finished else ErrSend))
              [] 0 false
| err_send p src dst :
    errSig p < errSigCap ->
    task_step p (mkTask src dst ErrSend)
              (with_errSig (S (errSig p)) p) (mkTask src dst ErrMark)
              [] 1 false
| err_mark p src dst :
    task_step p (mkTask src dst ErrMark)
              (with_erred true p) (mkTask src dst Finished) [] 0 false.

(** Interleaving: [Start] or any one goroutine moves; nothing moves after
    a panic. *)
Inductive step : World -> World -> Prop :=
| step_start w w' :
    start_step w w' -> step w w'
| step_task p st before t after s r lc rc p' t' new sent panic :
    task_step p t p' t' new sent panic ->
    step (mkWorld p st (before ++ t :: after) s r lc rc false)
         (mkWorld p' st (before ++ t' :: after ++ new) (sent + s) r lc rc
                  panic).

(** Worlds reached from [w] by some interleaving. *)
Inductive reaches (w : World) : World -> Prop :=
| reaches_refl : reaches w w
| reaches_step w1 w2 : reaches w w1 -> step w1 w2 -> reaches w w2.

(** A configured session before [Start]: nothing sent or latched, no
    remote stream yet, the upgrade flag at rest. *)
Definition ready (p : Proxy) : Prop :=
  erred p = false /\ errSig p = 0 /\ rConn p = None /\
  wsUpgradeInitialized p = false.

(** ** Vocabulary of the statements *)

(** One of the letters A to Z, in either case. *)
Definition is_letter (c : ascii) : bool :=
  (Ascii.leb "A" c && Ascii.leb c "Z") || (Ascii.leb "a" c && Ascii.leb c "z").

(** The same byte, or the same letter in the other case (the codes of the
    two cases of a letter are 32 apart). *)
Definition same_letter (x y : ascii) : bool :=
  Ascii.eqb x y ||
  (is_letter x && is_letter y &&
   ((N_of_ascii x + 32 =? N_of_ascii y)%N ||
    (N_of_ascii y + 32 =? N_of_ascii x)%N)).

(** The two texts are equal when the case of the letters A to Z is
    ignored. *)
Fixpoint same_ignoring_case (a b : string) : bool :=
  match a, b with
  | EmptyString, EmptyString => true
  | String x a', String y b' => same_letter x y && same_ignoring_case a' b'
  | _, _ => false
  end.

(** The 256 bytes. *)
Definition all_bytes : list ascii := map ascii_of_nat (seq 0 256).

(** No byte of [s] is [c]. *)
Fixpoint free_of (c : ascii) (s : string) : bool :=
  match s with
  | EmptyString => true
  | String b s' => negb (Ascii.eqb b c) && free_of c s'
  end.

(** Two tokens that cannot overlap in any text: neither starts inside the
    other, neither is a prefix of the other. *)
Definition apart (old tok : string) : bool :=
  match old, tok with
  | String o old', String t tok' =>
      free_of t old' && free_of o tok' &&
      negb (HasPrefix old tok) && negb (HasPrefix tok old)
  | _, _ => false
  end.





(** The re-link of the forwarding loop as the specification words it: the
    rewritten buffer goes to the destination, then the reverse task
    starts. *)
Definition spec_relink_effects (src dst : Conn) (buff : string)
    : list Effect :=
  [EWrite dst buff; ESpawn dst src].


(** Goroutines that have passed the send of [err]. *)
Definition past_send (t : Task) : bool :=
  match t_pc t with
  | ErrMark | Finished => true
  | _ => false
  end.

Definition senders (ts : list Task) : nat := length (filter past_send ts).

(** How many forwarding goroutines there can be: none before the first
    [go], and in server mode a second one only once the outbound hook has
    fired. *)
Definition task_limit (p : Proxy) (st : StartPc) : nat :=
  match st with
  | AtDial | AtGoOutbound => 0
  | AtGoInbound => if serverProxyMode p && lInitialized p then 2 else 1
  | _ => if serverProxyMode p && negb (lInitialized p) then 1 else 2
  end.

(** What [Start] has done when it stands at a given point. *)
Definition dial_outcome (w : World) (received rclose : nat) : Prop :=
  (rConn (px w) = Some DialedConn /\ recvs w = received /\
   rclosed w = rclose) \/
  (rConn (px w) = None /\ recvs w = 0 /\ rclosed w = 0 /\
   tasks w = [] /\ sends w = 0).

Definition start_counts (w : World) : Prop :=
  match start w with
  | AtDial =>
      rConn (px w) = None /\ recvs w = 0 /\ lclosed w = 0 /\ rclosed w = 0 /\
      sends w = 0
  | AtGoOutbound | AtGoInbound | AtReceive =>
      rConn (px w) = Some DialedConn /\ recvs w = 0 /\ lclosed w = 0 /\
      rclosed w = 0
  | AtCloseRemote =>
      rConn (px w) = Some DialedConn /\ recvs w = 1 /\ lclosed w = 0 /\
      rclosed w = 0
  | AtCloseLocal => lclosed w = 0 /\ dial_outcome w 1 1
  | Returned => lclosed w = 1 /\ dial_outcome w 1 1
  end.

(** The invariant of the interleaving model. *)
Definition session_invariant (w : World) : Prop :=
  start_counts w /\
  wsUpgradeInitialized (px w) = false /\
  length (tasks w) <= task_limit (px w) (start w) /\
  errSig (px w) + recvs w = sends w /\
  sends w <= senders (tasks w).

(** The termination property as the specification words it: on every exit
    path of [Start] the signal was received once and both streams were
    closed once, and the signal is never sent twice. *)
Definition spec_exactly_once (w : World) : Prop :=
  sends w <= 1 /\
  (start w = Returned -> recvs w = 1 /\ lclosed w = 1 /\ rclosed w = 1).


(** ** Sessions and buffers of the examples *)

Definition example_session : Proxy :=
  NewProxy 1 AcceptedConn "127.0.0.1:8082" "127.0.0.1:443" false.

Definition example_server : Proxy := SetServerProxyMode true example_session.

(** A session with a server host and an SNI host. *)
Definition example_tunnel : Proxy :=
  SetSNIHost "cdn.example" (SetServerHost "example.com:443" example_session).

Definition example_ssh : Proxy :=
  SetrPayload EmptyString
    (SetlPayload "CONNECT [host_port] HTTP/1.1[crlf][crlf]"
       (SetServerHost "example.com:22" (SetProxyKind "ssh" example_session))).

Definition example_trojan : Proxy :=
  SetSNIHost "cdn.example" (SetProxyKind "trojan" example_session).

Definition upgrade_request : string :=
  "GET / HTTP/1.1" ++ crlf ++ "Upgrade: websocket" ++ crlf ++ crlf.

(** The two bytes of an e with acute accent in UTF-8. *)
Definition e_acute : string :=
  String (ascii_of_nat 195) (String (ascii_of_nat 169) EmptyString).

(** The three bytes of the Kelvin sign in UTF-8. *)
Definition kelvin_sign : string :=
  String (ascii_of_nat 226)
    (String (ascii_of_nat 132) (String (ascii_of_nat 170) EmptyString)).

(** An upgrade request whose header is in another mix of cases, on a line
    that holds bytes outside ASCII. *)
Definition accented_upgrade_request : string :=
  "GET /caf" ++ e_acute ++ " HTTP/1.1" ++ crlf ++
  "X-Caf" ++ e_acute ++ ": 1; UPGRADE: WebSocket" ++ crlf ++ crlf.


(** [Start] after a dial that failed. *)
Definition dial_failed_world : World :=
  mkWorld example_session Returned [] 0 0 1 0 false.


(** The world of two failures at once: both goroutines of a client
    session have sent on [errSig] and neither has set [erred] yet. *)
Definition twice_sent (p : Proxy) : World :=
  mkWorld (with_errSig 2 (with_errSig 1 (with_rConn (Some DialedConn) p)))
    AtReceive
    [mkTask (lConn p) DialedConn ErrMark; mkTask DialedConn (lConn p) ErrMark]
    2 0 0 0 false.

(** A line without a line feed that fits a scanner token when its carriage
    return is added. *)
Definition plain_line (l : string) : Prop :=
  free_of LF l = true /\ (N.of_nat (String.length l) < 65535)%N.

(** ** The forwarding loop as a whole *)

(** [handleForwardData] run alone against a script of what its stream
    operations return, one pair per iteration: the result of [src.Read] and
    of the [Write] that follows.  The loop returns at the first failure
    (last component [CallErr]); when the script runs out it is blocked in
    the next [Read] ([Continue]).  [None] when a hook panics. *)
Fixpoint handleForwardData (p : Proxy) (src dst : Conn)
    (script : list (option string * WriteResult))
    : option (Proxy * list Effect * Outcome) :=
  match script with
  | [] => Some (p, [], Continue)
  | (rd, wr) :: rest =>
      match forward_iteration p src dst rd wr with
      | None => None
      | Some (p1, effects, CallErr) => Some (p1, effects, CallErr)
      | Some (p1, effects, Continue) =>
          match handleForwardData p1 src dst rest with
          | None => None
          | Some (p2, more, o) => Some (p2, (effects ++ more)%list, o)
          end
      end
  end.

(** The bytes the iterations of a script report as written before the
    first failure. *)
Fixpoint bytes_counted (script : list (option string * WriteResult)) : N :=
  match script with
  | [] => 0
  | (None, _) :: _ => 0
  | (Some _, wr) :: rest =>
      if write_failed wr then 0 else (written wr + bytes_counted rest)%N
  end.

(** ** Configuration through the setters *)

(** A call of one of the setters of [Proxy]. *)
Inductive Setter : Type :=
| CallSetlPayload (lPayload : string)
| CallSetrPayload (rPayload : string)
| CallSetServerProxyMode (enabled : bool)
| CallSetServerHost (server : string)
| CallSetBufferSize (buffSize : N)
| CallSetEnableTLS (enabled : bool)
| CallSetSNIHost (hostname : string)
| CallSetProxyKind (kind : string).

Definition call (c : Setter) (p : Proxy) : Proxy :=
  match c with
  | CallSetlPayload s => SetlPayload s p
  | CallSetrPayload s => SetrPayload s p
  | CallSetServerProxyMode b => SetServerProxyMode b p
  | CallSetServerHost s => SetServerHost s p
  | CallSetBufferSize n => SetBufferSize n p
  | CallSetEnableTLS b => SetEnableTLS b p
  | CallSetSNIHost s => SetSNIHost s p
  | CallSetProxyKind s => SetProxyKind s p
  end.

(** The setters called one after the other. *)
Definition configure (calls : list Setter) (p : Proxy) : Proxy :=
  fold_left (fun q c => call c q) calls p.

(** The fields the setters and [NewProxy] write: two sessions agree on
    them. *)
Definition same_config (p q : Proxy) : Prop :=
  secure p = secure q /\ connectionInfoPrefix p = connectionInfoPrefix q /\
  proxyKind p = proxyKind q /\ conn p = conn q /\ lConn p = lConn q /\
  lAddr p = lAddr q /\ rAddr p = rAddr q /\ sHost p = sHost q /\
  tlsEnabled p = tlsEnabled q /\ sniHost p = sniHost q /\
  lPayload p = lPayload q /\ rPayload p = rPayload q /\
  buffSize p = buffSize q /\ connId p = connId q /\
  serverProxyMode p = serverProxyMode q.

(** ** The front end of cmd/ws-web-server *)

(** What [mainHandler] answers. *)
Inductive Answer : Type :=
| NotWebsocket       (* status 500, "Not valid websocket request" *)
| DomainNotAllowed   (* status 403, "Domain not allowed" *)
| ServeProxy.        (* the request goes to [websocketProxy] *)

(** [isWebsocket]; [connUpgrade] is [r.Header.Get("Upgrade")]. *)
Definition isWebsocket (connUpgrade : string) : bool :=
  String.eqb (ToLower connUpgrade) "websocket".

(** The loop of [mainHandler] over the allowed domains, [domainInvalid]
    after it. *)
Fixpoint domain_loop (host : string) (allowed : list string)
    (domainInvalid : bool) : bool :=
  match allowed with
  | [] => domainInvalid
  | allowedDomain :: rest =>
      if String.eqb host allowedDomain then false
      else domain_loop host rest domainInvalid
  end.

(** [mainHandler] for the flag value [domain], the [Upgrade] header and
    [r.Host] of the request. *)
Definition mainHandler (domain connUpgrade host : string) : Answer :=
  if negb (isWebsocket connUpgrade) then NotWebsocket
  else
    let domainInvalid :=
      if negb (String.eqb domain "*")
      then domain_loop host (Split domain ",") true
      else true in
    if domainInvalid then DomainNotAllowed else ServeProxy.

(** A script in which every read delivers a buffer and every write takes
    the whole of what it is given, as a [Write] that returns no error
    does. *)
Definition faultless (buffers : list string)
    : list (option string * WriteResult) :=
  map (fun b => (Some b, mkWrite (N.of_nat (String.length b)) false)) buffers.

(** Total length of the buffers. *)
Fixpoint total_length (buffers : list string) : N :=
  match buffers with
  | [] => 0
  | b :: rest => (N.of_nat (String.length b) + total_length rest)%N
  end.

(** The value fits a [uint64]. *)
Definition is_uint64 (n : N) : Prop := (n < 2 ^ 64)%N.

(** The number written by the digits of [d], most significant first, after
    the digits already read gave [acc]. *)
Fixpoint uint_value (d : Decimal.uint) (acc : N) : N :=
  match d with
  | Decimal.Nil => acc
  | Decimal.D0 l => uint_value l (acc * 10 + 0)
  | Decimal.D1 l => uint_value l (acc * 10 + 1)
  | Decimal.D2 l => uint_value l (acc * 10 + 2)
  | Decimal.D3 l => uint_value l (acc * 10 + 3)
  | Decimal.D4 l => uint_value l (acc * 10 + 4)
  | Decimal.D5 l => uint_value l (acc * 10 + 5)
  | Decimal.D6 l => uint_value l (acc * 10 + 6)
  | Decimal.D7 l => uint_value l (acc * 10 + 7)
  | Decimal.D8 l => uint_value l (acc * 10 + 8)
  | Decimal.D9 l => uint_value l (acc * 10 + 9)
  end.

(** The direction of a goroutine: the stream it reads and the stream it
    writes. *)
Definition direction (t : Task) : Conn * Conn := (t_src t, t_dst t).

(** The goroutines of a session in the order they were started: the
    outbound one, then the inbound one. *)
Definition outbound_then_inbound (ts : list Task) : Prop :=
  map direction ts = [] \/
  map direction ts = [(AcceptedConn, DialedConn)] \/
  map direction ts = [(AcceptedConn, DialedConn); (DialedConn, AcceptedConn)].

(** The goroutines of a session whose outbound one stands at [pc] and
    whose inbound one, in client mode, has not run yet. *)
Definition with_outbound_at (p : Proxy) (pc : TaskPc) : list Task :=
  if serverProxyMode p then [mkTask (lConn p) DialedConn pc]
  else [mkTask (lConn p) DialedConn pc;
        mkTask DialedConn (lConn p) Entry].

(** The world in which the outbound goroutine has failed and gone through
    [err] while [Start] still waits. *)
Definition outbound_failed (p : Proxy) : World :=
  mkWorld (with_erred true (with_errSig 1 (with_rConn (Some DialedConn) p)))
    AtReceive (with_outbound_at p Finished) 1 0 0 0 false.

(** The same session when [Start] has returned. *)
Definition start_returned (p : Proxy) : World :=
  mkWorld (with_errSig 0
             (with_erred true (with_errSig 1 (with_rConn (Some DialedConn) p))))
    Returned (with_outbound_at p Finished) 1 1 1 1 false.

(** * Properties *)

(** ** Byte strings *)

Lemma append_nil_r (s : string) : s ++ EmptyString = s.
Proof. induction s as [|c s IH]; simpl; [reflexivity | now rewrite IH]. Qed.

Lemma append_assoc (a b c : string) : (a ++ b) ++ c = a ++ b ++ c.
Proof. induction a as [|x a IH]; simpl; [reflexivity | now rewrite IH]. Qed.

Lemma length_append (a b : string) :
  String.length (a ++ b) = String.length a + String.length b.
Proof. induction a as [|x a IH]; simpl; [reflexivity | now rewrite IH]. Qed.

Lemma HasPrefix_iff (s pre : string) :
  HasPrefix s pre = true <-> exists rest, s = pre ++ rest.
Proof.
  revert s; induction pre as [|a pre IH]; intros s; simpl.
  - split; [intros _; now exists s | reflexivity].
  - destruct s as [|b s].
    + split; [discriminate | intros [r Hr]; discriminate].
    + rewrite andb_true_iff, Ascii.eqb_eq, IH. split.
      * intros [-> [r ->]]. now exists r.
      * intros [r Hr]. injection Hr as -> ->. split; [reflexivity | now exists r].
Qed.

Lemma HasPrefix_append (pre rest : string) : HasPrefix (pre ++ rest) pre = true.
Proof. apply HasPrefix_iff. now exists rest. Qed.

(** [strings.Contains] is the occurrence of [sub] somewhere in [s]. *)
Lemma Contains_iff (s sub : string) :
  Contains s sub = true <-> exists a b, s = a ++ sub ++ b.
Proof.
  induction s as [|c s IH]; simpl.
  - rewrite HasPrefix_iff. split.
    + intros [r Hr]. exists EmptyString, r. exact Hr.
    + intros [a [b H]]. destruct a; simpl in H; [now exists b | discriminate].
  - rewrite orb_true_iff, IH. change (HasPrefix (String c s) sub) with
      (HasPrefix (String c s) sub). rewrite HasPrefix_iff. split.
    + intros [[r Hr] | [a [b H]]].
      * exists EmptyString, r. exact Hr.
      * exists (String c a), b. simpl. now rewrite H.
    + intros [a [b H]]. destruct a as [|x a]; simpl in H.
      * left. now exists b.
      * right. injection H as _ H. now exists a, b.
Qed.

Lemma Contains_append_r (a b sub : string) :
  Contains b sub = true -> Contains (a ++ b) sub = true.
Proof.
  rewrite !Contains_iff. intros [x [y ->]]. exists (a ++ x), y.
  now rewrite append_assoc.
Qed.

Lemma Contains_cons (c : ascii) (s sub : string) :
  Contains s sub = true -> Contains (String c s) sub = true.
Proof. apply (Contains_append_r (String c EmptyString)). Qed.

(** Passing over [skip] bytes is dropping them. *)
Lemma replace_from_skip (old new s : string) (skip : nat) :
  replace_from old new s skip = replace_from old new (drop skip s) 0.
Proof.
  revert skip; induction s as [|c s IH]; intros [|k]; try reflexivity.
  simpl replace_from at 1. rewrite IH. reflexivity.
Qed.

(** The two equations of the scan of [strings.Replace]. *)
Lemma Replace_match (a : ascii) (old' new rest : string) :
  Replace (String a old' ++ rest) (String a old') new
  = new ++ Replace rest (String a old') new.
Proof.
  unfold Replace. simpl append. simpl replace_from.
  rewrite Ascii.eqb_refl, HasPrefix_append. simpl.
  rewrite Nat.sub_0_r, replace_from_skip. f_equal. f_equal.
  clear. induction old' as [|x o IH]; simpl; [reflexivity | exact IH].
Qed.

Lemma Replace_no_match (c : ascii) (s old new : string) :
  HasPrefix (String c s) old = false ->
  Replace (String c s) old new = String c (Replace s old new).
Proof.
  unfold Replace. destruct old as [|a old']; [discriminate|].
  intros H. simpl replace_from. simpl in H. now rewrite H.
Qed.

Lemma Replace_empty (old new : string) : Replace EmptyString old new = EmptyString.
Proof. now destruct old. Qed.


Lemma Replace_free_prefix (o : ascii) (old' new u rest : string) :
  free_of o u = true ->
  Replace (u ++ rest) (String o old') new
  = u ++ Replace rest (String o old') new.
Proof.
  induction u as [|c u IH]; intros H; [reflexivity|].
  simpl in H. apply andb_true_iff in H as [Hc Hu].
  simpl append. rewrite Replace_no_match.
  - now rewrite IH.
  - simpl. rewrite Ascii.eqb_sym. apply negb_true_iff in Hc. now rewrite Hc.
Qed.

Lemma HasPrefix_both (s a b : string) :
  HasPrefix s a = true -> HasPrefix s b = true ->
  HasPrefix a b = true \/ HasPrefix b a = true.
Proof.
  revert s b; induction a as [|x a IH]; intros s b Ha Hb.
  - right. reflexivity.
  - destruct b as [|y b]; [left; reflexivity|].
    destruct s as [|c s]; [discriminate|]. simpl in Ha, Hb.
    apply andb_true_iff in Ha as [Hx Ha], Hb as [Hy Hb].
    apply Ascii.eqb_eq in Hx, Hy. subst x y.
    destruct (IH s b Ha Hb) as [H | H]; [left | right];
      simpl; now rewrite Ascii.eqb_refl.
Qed.

Lemma Contains_after_free (t : ascii) (tok' u rest : string) :
  free_of t u = true ->
  Contains (u ++ rest) (String t tok') = true ->
  Contains rest (String t tok') = true.
Proof.
  induction u as [|c u IH]; simpl; intros H HC; [exact HC|].
  apply andb_true_iff in H as [Hc Hu].
  apply negb_true_iff in Hc. rewrite Ascii.eqb_sym in Hc.
  rewrite Hc in HC. simpl in HC. now apply IH.
Qed.

Lemma Contains_after_match (old tok rest : string) :
  apart old tok = true ->
  Contains (old ++ rest) tok = true -> Contains rest tok = true.
Proof.
  destruct old as [|o old'], tok as [|t tok']; try discriminate.
  unfold apart. rewrite !andb_true_iff, !negb_true_iff.
  intros [[[H1 H2] H3] H4] HC.
  change (Contains (String o old' ++ rest) (String t tok')) with
    (HasPrefix (String o old' ++ rest) (String t tok')
     || Contains (old' ++ rest) (String t tok')) in HC.
  apply orb_true_iff in HC as [HP | HC].
  - destruct (HasPrefix_both _ _ _ (HasPrefix_append (String o old') rest) HP)
      as [H | H]; congruence.
  - now apply Contains_after_free with (u := old').
Qed.

(** A token apart from [old] is still there after [old] was replaced,
    whatever the replacement. *)
Lemma Replace_keeps (old tok new s : string) :
  apart old tok = true ->
  Contains s tok = true -> Contains (Replace s old new) tok = true.
Proof.
  intros Hap.
  assert (forall n s, String.length s <= n ->
            Contains s tok = true -> Contains (Replace s old new) tok = true)
    as Hn; [|now apply (Hn (String.length s))].
  clear s. induction n as [|n IH]; intros s Hlen HC.
  - destruct s; [|simpl in Hlen; lia].
    destruct old, tok; discriminate.
  - destruct s as [|c s]; [destruct old, tok; discriminate|].
    destruct (HasPrefix (String c s) old) eqn:HP.
    + apply HasPrefix_iff in HP as [rest Hrest]. rewrite Hrest in *.
      destruct old as [|o old']; [discriminate|].
      rewrite Replace_match. apply Contains_append_r, IH.
      * rewrite length_append in Hlen. simpl in Hlen. lia.
      * now apply Contains_after_match with (old := String o old').
    + rewrite Replace_no_match by exact HP.
      simpl in HC. apply orb_true_iff in HC as [HT | HC].
      * apply HasPrefix_iff in HT as [rest Hrest].
        destruct old as [|o old'], tok as [|t tok']; try discriminate.
        simpl in Hrest. injection Hrest as -> ->.
        unfold apart in Hap. rewrite !andb_true_iff in Hap.
        destruct Hap as [[[_ H2] _] _].
        rewrite Replace_free_prefix by exact H2.
        apply Contains_iff. now exists EmptyString, (Replace rest (String o old') new).
      * apply Contains_cons, IH; [simpl in Hlen; lia | exact HC].
Qed.

(** ** Payload templates *)

Lemma nonempty_false (s : string) : nonempty s = false <-> s = EmptyString.
Proof. destruct s; simpl; split; congruence. Qed.

Lemma expand_crlf_keeps (tok t : string) :
  apart "[crlf]" tok = true ->
  Contains t tok = true -> Contains (expand_crlf t) tok = true.
Proof. intros. now apply Replace_keeps. Qed.

Lemma expand_sni_keeps (tok sni t : string) :
  apart "[sni]" tok = true ->
  Contains t tok = true -> Contains (expand_sni sni t) tok = true.
Proof.
  intros Hap H. unfold expand_sni.
  destruct (nonempty sni); [now apply Replace_keeps | exact H].
Qed.

Lemma expand_host_keeps (tok : string) (h : Host) (t : string) :
  apart "[host]" tok = true -> apart "[host_port]" tok = true ->
  Contains t tok = true -> Contains (expand_host h t) tok = true.
Proof.
  intros H1 H2 H. unfold expand_host.
  destruct (nonempty (HostName h)); [|exact H].
  now apply Replace_keeps, Replace_keeps.
Qed.

(** A token of the host is left where it is when no host name is set. *)
Lemma SetlPayload_keeps_host_token (p : Proxy) (template tok : string) :
  HostName (sHost p) = EmptyString ->
  tok = "[host]" \/ tok = "[host_port]" ->
  Contains template tok = true ->
  Contains (lPayload (SetlPayload template p)) tok = true.
Proof.
  intros Hh Htok H. simpl. unfold expand_host. rewrite Hh. simpl.
  destruct Htok as [-> | ->];
    now apply expand_crlf_keeps, expand_sni_keeps.
Qed.

(** The SNI token is left where it is when no SNI host is set. *)
Lemma SetlPayload_keeps_sni_token (p : Proxy) (template : string) :
  sniHost p = EmptyString ->
  Contains template "[sni]" = true ->
  Contains (lPayload (SetlPayload template p)) "[sni]" = true.
Proof.
  intros Hs H. simpl. unfold expand_sni at 1. rewrite Hs. simpl.
  now apply expand_crlf_keeps, expand_host_keeps.
Qed.

(** Both occurrences of a token are substituted, in one pass. *)
Example SetlPayload_all_occurrences :
  lPayload (SetlPayload "[sni] [host]:[host_port][crlf][sni][crlf]"
              (SetSNIHost "cdn.example"
                 (SetServerHost "example.com:22"
                    (NewProxy 1 AcceptedConn "l" "r" false))))
  = "cdn.example example.com:example.com:22" ++ crlf ++ "cdn.example" ++ crlf.
Proof. reflexivity. Qed.

(** ** What changes [lPayload] *)

Lemma SetServerHost_lPayload (server : string) (p : Proxy) :
  lPayload (SetServerHost server p) = lPayload p.
Proof.
  unfold SetServerHost. destruct (SplitHostPort server) as [[h port]|];
    [destruct (ParseUint port)|]; reflexivity.
Qed.

Lemma handleOutboundData_lPayload (p p' : Proxy) (b b' : string) :
  handleOutboundData p b = Some (p', b') -> lPayload p' = lPayload p.
Proof.
  unfold handleOutboundData.
  destruct (lInitialized p); [now intros [= <- _]|].
  destruct (serverProxyMode p).
  - destruct (doUpgrade _); now intros [= <- _].
  - destruct (rewrite_ssh _ _ _); [|discriminate].
    destruct (rewrite_trojan _ _ _); [|discriminate]. now intros [= <- _].
Qed.

Lemma handleInboundData_lPayload (p p' : Proxy) (b b' : string) :
  handleInboundData p b = Some (p', b') -> lPayload p' = lPayload p.
Proof.
  unfold handleInboundData.
  destruct (rInitialized p); [now intros [= <- _]|].
  destruct (scan_lines b); [discriminate | now intros [= <- _]].
Qed.

Lemma forward_iteration_lPayload p src dst rd wr p' effects o :
  forward_iteration p src dst rd wr = Some (p', effects, o) ->
  lPayload p' = lPayload p.
Proof.
  destruct rd as [b|]; simpl; [|now intros [= <- _ _]].
  unfold forward_body, forward_body_with.
  destruct (Conn_eqb src (lConn p)).
  - destruct (handleOutboundData p b) as [[p1 b1]|] eqn:E; [|discriminate].
    apply handleOutboundData_lPayload in E. rewrite <- E.
    destruct (serverProxyMode p1 && wsUpgradeInitialized p1),
      (write_failed wr); now intros [= <- _ _].
  - destruct (handleInboundData p b) as [[p1 b1]|] eqn:E; [|discriminate].
    apply handleInboundData_lPayload in E. rewrite <- E.
    destruct (serverProxyMode p1 && wsUpgradeInitialized p1),
      (write_failed wr); now intros [= <- _ _].
Qed.

Lemma step_lPayload (w w' : World) :
  step w w' -> lPayload (px w') = lPayload (px w).
Proof.
  intros [w1 w2 H | p st before t after s r lc rc p' t' new sent panic H].
  - destruct H; reflexivity.
  - simpl. destruct H; try reflexivity.
    now apply forward_iteration_lPayload in H.
Qed.

(** Nothing that runs once [Start] was called touches [lPayload]. *)
Lemma reaches_lPayload (w w' : World) :
  reaches w w' -> lPayload (px w') = lPayload (px w).
Proof.
  induction 1 as [|w1 w2 _ IH Hstep]; [reflexivity|].
  now rewrite (step_lPayload _ _ Hstep).
Qed.

(** C10: [SetlPayload] reads the host and the SNI host as they are when it
    is called and nothing computes [lPayload] again: neither
    [SetServerHost] nor [SetSNIHost] called afterwards, nor anything [Start]
    and its goroutines do.  So when the template is set while no host name
    (no SNI host) is configured, its host tokens (its SNI token) are still
    in the payload of the running session. *)
Theorem lPayload_fixed_when_set (p : Proxy) (template server sni : string)
    (w : World) :
  let configured :=
    SetSNIHost sni (SetServerHost server (SetlPayload template p)) in
  reaches (initial configured) w ->
  lPayload (px w) = lPayload (SetlPayload template p) /\
  (HostName (sHost p) = EmptyString ->
   forall tok, tok = "[host]" \/ tok = "[host_port]" ->
     Contains template tok = true ->
     Contains (lPayload (px w)) tok = true) /\
  (sniHost p = EmptyString ->
   Contains template "[sni]" = true ->
   Contains (lPayload (px w)) "[sni]" = true).
Proof.
  intros configured Hreach.
  assert (lPayload (px w) = lPayload (SetlPayload template p)) as E.
  { rewrite (reaches_lPayload _ _ Hreach). simpl px. unfold configured.
    change (lPayload (SetSNIHost sni ?q)) with (lPayload q).
    apply SetServerHost_lPayload. }
  rewrite E. split; [reflexivity|]. split.
  - intros Hh tok Htok. now apply SetlPayload_keeps_host_token.
  - apply SetlPayload_keeps_sni_token.
Qed.

(** The order of the setters decides: the template of the example is
    expanded when the host is set first and is not when it is set last. *)
Example SetlPayload_order_matters :
  let fresh := NewProxy 1 AcceptedConn "l" "r" false in
  let template := "CONNECT [host_port] HTTP/1.1[crlf]Host: [sni][crlf][crlf]" in
  lPayload (SetlPayload template
              (SetSNIHost "cdn.example" (SetServerHost "example.com:22" fresh)))
    = "CONNECT example.com:22 HTTP/1.1" ++ crlf ++
      "Host: cdn.example" ++ crlf ++ crlf /\
  lPayload (SetSNIHost "cdn.example"
              (SetServerHost "example.com:22" (SetlPayload template fresh)))
    = "CONNECT [host_port] HTTP/1.1" ++ crlf ++ "Host: [sni]" ++ crlf ++ crlf.
Proof. split; reflexivity. Qed.

(** ** The outbound hook *)

Lemma map_bytes_append (f : ascii -> ascii) (a b : string) :
  map_bytes f (a ++ b) = map_bytes f a ++ map_bytes f b.
Proof. induction a as [|c a IH]; simpl; [reflexivity | now rewrite IH]. Qed.

Lemma map_bytes_split (f : ascii -> ascii) (s x y : string) :
  map_bytes f s = x ++ y ->
  exists s1 s2, s = s1 ++ s2 /\ map_bytes f s1 = x /\ map_bytes f s2 = y.
Proof.
  revert s; induction x as [|c x IH]; intros s H.
  - exists EmptyString, s. now repeat split.
  - destruct s as [|b s]; [discriminate|]. simpl in H. injection H as Hc H.
    destruct (IH s H) as [s1 [s2 [-> [H1 H2]]]].
    exists (String b s1), s2. simpl. now rewrite Hc, H1.
Qed.

Lemma ToLower_ascii (s : string) :
  isASCII s = true -> ToLower s = map_bytes lower_byte s.
Proof.
  unfold ToLower. induction s as [|c s IH]; [reflexivity|].
  cbn [isASCII lower_from map_bytes]. intros H.
  apply andb_true_iff in H as [Hc Hs]. rewrite Hc. cbn [lower_run append].
  now rewrite IH.
Qed.

Lemma lower_from_ascii_byte (a rest run : string) (c : ascii) :
  (N_of_ascii c <? 128)%N = true ->
  lower_from (a ++ String c rest) run
  = lower_from a run ++ String (lower_byte c) (lower_from rest EmptyString).
Proof.
  intros Hc. revert run; induction a as [|x a IH]; intros run.
  - cbn [append lower_from]. now rewrite Hc.
  - cbn [append lower_from]. destruct (N_of_ascii x <? 128)%N.
    + rewrite IH, append_assoc. reflexivity.
    + apply IH.
Qed.

Lemma lower_from_ascii_prefix (m rest : string) :
  isASCII m = true ->
  lower_from (m ++ rest) EmptyString
  = map_bytes lower_byte m ++ lower_from rest EmptyString.
Proof.
  induction m as [|c m IH]; [reflexivity|].
  cbn [isASCII append lower_from map_bytes]. intros H.
  apply andb_true_iff in H as [Hc Hm]. rewrite Hc. cbn [lower_run append].
  now rewrite IH.
Qed.

(** The ASCII bytes of a string are lower-cased where they stand, whatever
    else the string holds. *)
Lemma ToLower_ascii_piece (a m b : string) :
  isASCII m = true ->
  Contains (ToLower (a ++ m ++ b)) (map_bytes lower_byte m) = true.
Proof.
  intros Hm. unfold ToLower. destruct m as [|c m].
  - apply Contains_iff. exists EmptyString, (lower_from (a ++ b) EmptyString).
    reflexivity.
  - cbn [isASCII] in Hm. apply andb_true_iff in Hm as [Hc Hm].
    cbn [append]. rewrite lower_from_ascii_byte by exact Hc.
    rewrite lower_from_ascii_prefix by exact Hm.
    apply Contains_iff.
    exists (lower_from a EmptyString), (lower_from b EmptyString).
    reflexivity.
Qed.

(** On a line of ASCII bytes the test of the hook finds the header in any
    mix of upper and lower case. *)
Lemma is_upgrade_line_ascii (line : string) :
  isASCII line = true ->
  (is_upgrade_line line = true <->
   exists a m b, line = a ++ m ++ b /\
                 map_bytes lower_byte m = "upgrade: websocket").
Proof.
  intros Hascii. unfold is_upgrade_line. rewrite (ToLower_ascii _ Hascii).
  rewrite Contains_iff. split.
  - intros [a' [b' H]].
    destruct (map_bytes_split _ _ _ _ H) as [a [r [-> [_ Hr]]]].
    destruct (map_bytes_split _ _ _ _ Hr) as [m [b [-> [Hm _]]]].
    now exists a, m, b.
  - intros [a [m [b [-> Hm]]]].
    exists (map_bytes lower_byte a), (map_bytes lower_byte b).
    now rewrite !map_bytes_append, Hm.
Qed.

Lemma all_bytes_complete (c : ascii) : In c all_bytes.
Proof.
  unfold all_bytes. rewrite <- (ascii_nat_embedding c).
  apply in_map, in_seq. pose proof (nat_ascii_bounded c). lia.
Qed.

(** Checked on the 256 x 256 pairs of bytes: two bytes are the same letter
    exactly when [lower_byte] maps them to the same byte, and then both
    are ASCII or neither is. *)
Lemma same_letter_table :
  forallb (fun x =>
    forallb (fun y =>
      Bool.eqb (same_letter x y) (Ascii.eqb (lower_byte x) (lower_byte y)) &&
      implb (same_letter x y)
            (Bool.eqb (N_of_ascii x <? 128)%N (N_of_ascii y <? 128)%N))
      all_bytes) all_bytes = true.
Proof. vm_compute. reflexivity. Qed.

Lemma same_letter_lower (x y : ascii) :
  same_letter x y = true <-> lower_byte x = lower_byte y.
Proof.
  pose proof same_letter_table as H. rewrite forallb_forall in H.
  specialize (H x (all_bytes_complete x)). rewrite forallb_forall in H.
  specialize (H y (all_bytes_complete y)).
  apply andb_true_iff in H as [H _]. apply Bool.eqb_prop in H. rewrite H.
  apply Ascii.eqb_eq.
Qed.

Lemma same_letter_ascii (x y : ascii) :
  same_letter x y = true ->
  (N_of_ascii x <? 128)%N = (N_of_ascii y <? 128)%N.
Proof.
  pose proof same_letter_table as H. rewrite forallb_forall in H.
  specialize (H x (all_bytes_complete x)). rewrite forallb_forall in H.
  specialize (H y (all_bytes_complete y)).
  apply andb_true_iff in H as [_ H]. intros E. rewrite E in H.
  now apply Bool.eqb_prop in H.
Qed.

Lemma same_ignoring_case_lower (a b : string) :
  same_ignoring_case a b = true <->
  map_bytes lower_byte a = map_bytes lower_byte b.
Proof.
  revert b; induction a as [|x a IH]; intros [|y b]; simpl;
    try (split; [discriminate | discriminate]); [tauto|].
  rewrite andb_true_iff, same_letter_lower, IH. split.
  - intros [-> ->]. reflexivity.
  - intros [= H1 H2]. now split.
Qed.

Lemma same_ignoring_case_ascii (a b : string) :
  same_ignoring_case a b = true -> isASCII a = isASCII b.
Proof.
  revert b; induction a as [|x a IH]; intros [|y b]; simpl;
    try discriminate; [reflexivity|].
  intros H. apply andb_true_iff in H as [H1 H2].
  now rewrite (same_letter_ascii _ _ H1), (IH _ H2).
Qed.

(** A line that holds the header in some mix of upper and lower case passes
    the test of the hook, whatever other bytes it holds. *)
Lemma is_upgrade_line_any_case (line : string) :
  (exists a m b, line = a ++ m ++ b /\
                 same_ignoring_case m "Upgrade: websocket" = true) ->
  is_upgrade_line line = true.
Proof.
  intros [a [m [b [-> Hm]]]]. unfold is_upgrade_line.
  pose proof (same_ignoring_case_ascii _ _ Hm) as Hascii.
  apply same_ignoring_case_lower in Hm.
  change (map_bytes lower_byte "Upgrade: websocket")
    with "upgrade: websocket" in Hm.
  rewrite <- Hm. apply ToLower_ascii_piece. exact Hascii.
Qed.

(** C3: in server mode the first outbound buffer is scanned line by line
    for [upgrade: websocket] after lower-casing.  When a line has it the
    hook returns the fixed 101 response (with CR LF as the bytes 13 and
    10) and the session has [wsUpgradeInitialized] set; otherwise the
    buffer and the flag are left as they are.  Either way the first-packet
    latch is set and no other field changes.  A line that holds
    [Upgrade: websocket] in any mix of upper and lower case is found,
    whatever other bytes it holds; a line of ASCII bytes is found only
    then (outside ASCII Unicode's case tables decide as well: the Kelvin
    sign is lower-cased to k). *)
Theorem server_upgrade_detection (p : Proxy) (connBuff : string) :
  serverProxyMode p = true ->
  lInitialized p = false ->
  let found :=
    existsb (fun line => Contains (ToLower line) "upgrade: websocket")
            (scan_lines connBuff) in
  let response :=
    "HTTP/1.1 101 Switching Protocols" ++ crlf ++
    "Upgrade: websocket" ++ crlf ++
    "Connection: Upgrade" ++ crlf ++ crlf in
  (exists p',
     handleOutboundData p connBuff
     = Some (p', if found then response else connBuff) /\
     lInitialized p' = true /\
     wsUpgradeInitialized p'
     = (if found then true else wsUpgradeInitialized p) /\
     same_config p' p /\
     rInitialized p' = rInitialized p /\ erred p' = erred p /\
     errSig p' = errSig p /\ rConn p' = rConn p /\
     bytesSent p' = bytesSent p /\ bytesReceived p' = bytesReceived p) /\
  handleOutboundData p connBuff =
    Some (if found
          then (with_lInitialized true (with_wsUpgradeInitialized true p),
                response)
          else (with_lInitialized true p, connBuff)) /\
  crlf = String (ascii_of_nat 13) (String (ascii_of_nat 10) EmptyString) /\
  (forall line,
     (exists a m b, line = a ++ m ++ b /\
                    same_ignoring_case m "Upgrade: websocket" = true) ->
     Contains (ToLower line) "upgrade: websocket" = true) /\
  (forall line, isASCII line = true ->
     (Contains (ToLower line) "upgrade: websocket" = true <->
      exists a m b, line = a ++ m ++ b /\
                    same_ignoring_case m "Upgrade: websocket" = true)).
Proof.
  intros Hs Hl found response.
  assert (handleOutboundData p connBuff =
    Some (if found
          then (with_lInitialized true (with_wsUpgradeInitialized true p),
                response)
          else (with_lInitialized true p, connBuff))) as Hrun.
  { unfold handleOutboundData. rewrite Hl, Hs.
    change (doUpgrade (scan_lines connBuff)) with found.
    now destruct found. }
  split; [|split; [exact Hrun | split; [reflexivity | split]]].
  - rewrite Hrun. destruct found.
    + exists (with_lInitialized true (with_wsUpgradeInitialized true p)).
      destruct p. simpl. unfold same_config. simpl. tauto.
    + exists (with_lInitialized true p).
      destruct p. simpl. unfold same_config. simpl. tauto.
  - exact is_upgrade_line_any_case.
  - intros line Hascii.
    rewrite (is_upgrade_line_ascii line Hascii : _ <-> _).
    split; intros [a [m [b [E Hm]]]]; exists a, m, b; (split; [exact E|]).
    + apply same_ignoring_case_lower. exact Hm.
    + apply same_ignoring_case_lower in Hm. exact Hm.
Qed.

(** The header in mixed case, after the request line. *)
Example server_upgrade_mixed_case :
  let p := SetServerProxyMode true (NewProxy 1 AcceptedConn "l" "r" false) in
  let request := "GET / HTTP/1.1" ++ crlf ++ "UPGRADE: WebSocket" ++ crlf ++ crlf in
  handleOutboundData p request =
    Some (with_lInitialized true (with_wsUpgradeInitialized true p),
          upgrade_response) /\
  handleOutboundData p ("GET / HTTP/1.1" ++ crlf ++ crlf) =
    Some (with_lInitialized true p, "GET / HTTP/1.1" ++ crlf ++ crlf).
Proof. split; reflexivity. Qed.

(** C4: in client mode with kind "ssh" a first buffer whose first line
    holds [CONNECT ] is replaced by [lPayload] and any other first buffer
    with a line is left as it is; with the template of the scenario and
    the server host example.com:22 the loop writes the expanded CONNECT
    request to the remote stream. *)
Theorem ssh_connect_rewrite :
  (forall (p : Proxy) (connBuff first : string) (rest : list string),
     serverProxyMode p = false ->
     lInitialized p = false ->
     proxyKind p = "ssh" ->
     scan_lines connBuff = first :: rest ->
     handleOutboundData p connBuff =
       Some (with_lInitialized true p,
             if Contains first "CONNECT " then lPayload p else connBuff)) /\
  (let p := SetlPayload "CONNECT [host_port] HTTP/1.1[crlf][crlf]"
              (SetServerHost "example.com:22"
                 (SetProxyKind "ssh"
                    (with_rConn (Some DialedConn)
                       (NewProxy 1 AcceptedConn "l" "r" false)))) in
   let request := "CONNECT anything HTTP/1.1" ++ crlf ++ crlf in
   let payload := "CONNECT example.com:22 HTTP/1.1" ++ crlf ++ crlf in
   forall wr,
     option_map (fun r => snd (fst r))
       (forward_body p AcceptedConn DialedConn request wr)
     = Some [EWrite DialedConn payload]).
Proof.
  split.
  - intros p connBuff first rest Hs Hl Hk Hlines.
    unfold handleOutboundData, rewrite_ssh, rewrite_trojan.
    rewrite Hl, Hs, Hlines, Hk. reflexivity.
  - intros p request payload wr.
    unfold forward_body, forward_body_with.
    destruct wr as [n [|]]; reflexivity.
Qed.




(** ** The inbound hook *)

(** C6: on the first inbound buffer with a first line, a first line that
    holds [ 101 ] is replaced, for kind "ssh", by [rPayload] without its
    CR LF pairs, the other lines being kept; in client mode the buffer
    becomes the lines joined by CR LF with one more CR LF at the end, in
    server mode the buffer is what was read. *)
Theorem inbound_first_buffer (p : Proxy) (connBuff first : string)
    (rest : list string) :
  rInitialized p = false ->
  scan_lines connBuff = first :: rest ->
  let first' :=
    if Contains first " 101 " && String.eqb (proxyKind p) "ssh"
    then Replace (rPayload p) crlf EmptyString
    else first in
  handleInboundData p connBuff =
    Some (with_rInitialized true p,
          if serverProxyMode p then connBuff
          else Join (first' :: rest) crlf ++ crlf).
Proof.
  intros Hr Hlines first'. unfold handleInboundData.
  rewrite Hr, Hlines. reflexivity.
Qed.

(** The 101 response of the server becomes the canned banner for the
    local client; in server mode nothing is rewritten. *)
Example inbound_ssh_banner :
  let p := SetrPayload EmptyString
             (SetProxyKind "ssh" (NewProxy 1 AcceptedConn "l" "r" false)) in
  let response := "HTTP/1.1 101 Switching Protocols" ++ crlf ++
                  "Upgrade: websocket" ++ crlf ++ crlf in
  option_map snd (handleInboundData p response) =
    Some ("HTTP/1.1 200 Connection Established" ++ crlf ++
          "Upgrade: websocket" ++ crlf ++ crlf) /\
  option_map snd (handleInboundData (SetServerProxyMode true p) response) =
    Some response.
Proof. split; reflexivity. Qed.

(** Re-serialization is not the identity on every client-mode buffer: a
    bare line feed comes back as CR LF and a missing last line end is
    added. *)
Example inbound_reserialization_changes_bytes :
  let p := NewProxy 1 AcceptedConn "l" "r" false in
  option_map snd (handleInboundData p ("a" ++ String LF "b")) =
    Some ("a" ++ crlf ++ "b" ++ crlf).
Proof. reflexivity. Qed.

(** ** The first-packet latches *)

Lemma handleOutboundData_latched (p : Proxy) (b : string) :
  lInitialized p = true -> handleOutboundData p b = Some (p, b).
Proof. intros H. unfold handleOutboundData. now rewrite H. Qed.

Lemma handleInboundData_latched (p : Proxy) (b : string) :
  rInitialized p = true -> handleInboundData p b = Some (p, b).
Proof. intros H. unfold handleInboundData. now rewrite H. Qed.

Lemma handleOutboundData_latches (p p' : Proxy) (b b' : string) :
  handleOutboundData p b = Some (p', b') -> lInitialized p' = true.
Proof.
  unfold handleOutboundData. destruct (lInitialized p) eqn:E.
  - now intros [= <- _].
  - destruct (serverProxyMode p).
    + destruct (doUpgrade _); now intros [= <- _].
    + destruct (rewrite_ssh _ _ _); [|discriminate].
      destruct (rewrite_trojan _ _ _); [|discriminate]. now intros [= <- _].
Qed.

Lemma handleInboundData_latches (p p' : Proxy) (b b' : string) :
  handleInboundData p b = Some (p', b') -> rInitialized p' = true.
Proof.
  unfold handleInboundData. destruct (rInitialized p) eqn:E.
  - now intros [= <- _].
  - destruct (scan_lines b); [discriminate | now intros [= <- _]].
Qed.

(** Once its latch is set a hook hands every buffer on as it is. *)
Lemma hook_run_latched (hook : Hook) (latch : Proxy -> bool) :
  (forall p b, latch p = true -> hook p b = Some (p, b)) ->
  forall p buffers, latch p = true -> hook_run hook p buffers = Some (p, buffers).
Proof.
  intros Hid p buffers Hp. induction buffers as [|b rest IH]; [reflexivity|].
  simpl. now rewrite (Hid p b Hp), IH.
Qed.

(** The hook of the other direction leaves a latch alone. *)
Lemma handleInboundData_lInitialized (p p' : Proxy) (b b' : string) :
  handleInboundData p b = Some (p', b') -> lInitialized p' = lInitialized p.
Proof.
  unfold handleInboundData. destruct (rInitialized p); [now intros [= <- _]|].
  destruct (scan_lines b); [discriminate | now intros [= <- _]].
Qed.

Lemma handleOutboundData_rInitialized (p p' : Proxy) (b b' : string) :
  handleOutboundData p b = Some (p', b') -> rInitialized p' = rInitialized p.
Proof.
  unfold handleOutboundData. destruct (lInitialized p); [now intros [= <- _]|].
  destruct (serverProxyMode p).
  - destruct (doUpgrade _); now intros [= <- _].
  - destruct (rewrite_ssh _ _ _); [|discriminate].
    destruct (rewrite_trojan _ _ _); [|discriminate]. now intros [= <- _].
Qed.

Lemma forward_iteration_latches p src dst rd wr p' effects o :
  forward_iteration p src dst rd wr = Some (p', effects, o) ->
  (lInitialized p = true -> lInitialized p' = true) /\
  (rInitialized p = true -> rInitialized p' = true).
Proof.
  destruct rd as [b|]; simpl; [|now intros [= <- _ _]].
  unfold forward_body, forward_body_with. intros H.
  destruct (Conn_eqb src (lConn p)).
  - destruct (handleOutboundData p b) as [[p1 b1]|] eqn:E; [|discriminate].
    pose proof (handleOutboundData_latches _ _ _ _ E) as H1.
    pose proof (handleOutboundData_rInitialized _ _ _ _ E) as H2.
    destruct (serverProxyMode p1 && wsUpgradeInitialized p1),
      (write_failed wr); injection H as <- _ _; simpl;
      split; intros; congruence.
  - destruct (handleInboundData p b) as [[p1 b1]|] eqn:E; [|discriminate].
    pose proof (handleInboundData_latches _ _ _ _ E) as H1.
    pose proof (handleInboundData_lInitialized _ _ _ _ E) as H2.
    destruct (serverProxyMode p1 && wsUpgradeInitialized p1),
      (write_failed wr); injection H as <- _ _; simpl;
      split; intros; congruence.
Qed.

(** No step of [Start] or of a goroutine resets a latch. *)
Lemma step_keeps_latches (w w' : World) :
  step w w' ->
  (lInitialized (px w) = true -> lInitialized (px w') = true) /\
  (rInitialized (px w) = true -> rInitialized (px w') = true).
Proof.
  intros [w1 w2 H | p st before t after s r lc rc p' t' new sent panic H].
  - destruct H; simpl; auto.
  - simpl. destruct H; simpl; auto.
    now apply forward_iteration_latches in H.
Qed.

(** C7: over the buffers read one after the other in a direction, the hook
    of the direction that returns from the first buffer has set its latch,
    whichever branch it took, and hands the buffers after the first to the
    write as they were read, the session unchanged; the loop then writes
    each of them to the destination; and nothing that runs in the session
    resets a latch. *)
Theorem first_packet_latch (p : Proxy) (b : string) (rest : list string) :
  match handleOutboundData p b with
  | None => hook_run handleOutboundData p (b :: rest) = None
  | Some (p1, b1) =>
      lInitialized p1 = true /\
      hook_run handleOutboundData p (b :: rest) = Some (p1, b1 :: rest)
  end /\
  match handleInboundData p b with
  | None => hook_run handleInboundData p (b :: rest) = None
  | Some (p1, b1) =>
      rInitialized p1 = true /\
      hook_run handleInboundData p (b :: rest) = Some (p1, b1 :: rest)
  end /\
  (forall q dst later wr,
     lInitialized q = true -> wsUpgradeInitialized q = false ->
     option_map (fun r => snd (fst r))
       (forward_body q (lConn q) dst later wr) = Some [EWrite dst later]) /\
  (forall q src dst later wr,
     rInitialized q = true -> wsUpgradeInitialized q = false ->
     Conn_eqb src (lConn q) = false ->
     option_map (fun r => snd (fst r))
       (forward_body q src dst later wr) = Some [EWrite dst later]) /\
  (forall w w', step w w' ->
     (lInitialized (px w) = true -> lInitialized (px w') = true) /\
     (rInitialized (px w) = true -> rInitialized (px w') = true)).
Proof.
  split; [|split; [|split; [|split; [|exact step_keeps_latches]]]].
  - destruct (handleOutboundData p b) as [[p1 b1]|] eqn:E; simpl; rewrite E.
    + pose proof (handleOutboundData_latches _ _ _ _ E) as H1. split; [exact H1|].
      now rewrite (hook_run_latched _ lInitialized handleOutboundData_latched).
    + reflexivity.
  - destruct (handleInboundData p b) as [[p1 b1]|] eqn:E; simpl; rewrite E.
    + pose proof (handleInboundData_latches _ _ _ _ E) as H1. split; [exact H1|].
      now rewrite (hook_run_latched _ rInitialized handleInboundData_latched).
    + reflexivity.
  - intros q dst later wr Hl Hw. unfold forward_body, forward_body_with.
    assert (Conn_eqb (lConn q) (lConn q) = true) as -> by now destruct (lConn q).
    rewrite handleOutboundData_latched by exact Hl.
    rewrite Hw, andb_false_r. now destruct (write_failed wr).
  - intros q src dst later wr Hr Hw Hsrc. unfold forward_body, forward_body_with.
    rewrite Hsrc, handleInboundData_latched by exact Hr.
    rewrite Hw, andb_false_r. now destruct (write_failed wr).
Qed.

(** ** Panics of the hooks *)

(** C8: a first buffer that yields no line, the empty buffer for one,
    makes the outbound hook of client mode (kind "ssh" or "trojan") and the
    inbound hook read [respArr[0]] out of range: the call panics instead
    of returning. *)
Theorem hooks_panic_without_lines (p : Proxy) (connBuff : string) :
  scan_lines connBuff = [] ->
  (serverProxyMode p = false -> lInitialized p = false ->
   proxyKind p = "ssh" \/ proxyKind p = "trojan" ->
   handleOutboundData p connBuff = None) /\
  (rInitialized p = false -> handleInboundData p connBuff = None) /\
  scan_lines EmptyString = [].
Proof.
  intros Hlines. repeat split.
  - intros Hs Hl Hk. unfold handleOutboundData, rewrite_ssh, rewrite_trojan.
    rewrite Hl, Hs, Hlines. destruct Hk as [-> | ->]; reflexivity.
  - intros Hr. unfold handleInboundData. now rewrite Hr, Hlines.
Qed.

(** The second field of the first line is read unguarded as well. *)
Example trojan_panics_without_path :
  handleOutboundData
    (SetProxyKind "trojan" (NewProxy 1 AcceptedConn "l" "r" false))
    ("GET" ++ crlf) = None.
Proof. reflexivity. Qed.

(** Server mode reads no line by index: its outbound hook returns from
    every buffer. *)
Lemma server_outbound_total (p : Proxy) (connBuff : string) :
  serverProxyMode p = true -> handleOutboundData p connBuff <> None.
Proof.
  intros Hs. unfold handleOutboundData. rewrite Hs.
  destruct (lInitialized p); [discriminate|].
  destruct (doUpgrade _); discriminate.
Qed.

(** ** The server-mode re-link *)

Lemma Conn_eqb_refl (c : Conn) : Conn_eqb c c = true.
Proof. now destruct c. Qed.

(** The iteration that answers the upgrade. *)
Lemma forward_body_relink (p : Proxy) (dst : Conn) (connBuff : string)
    (wr : WriteResult) :
  serverProxyMode p = true ->
  lInitialized p = false ->
  doUpgrade (scan_lines connBuff) = true ->
  exists p',
    forward_body p (lConn p) dst connBuff wr =
      Some (p', [EWrite (lConn p) upgrade_response; ESpawn dst (lConn p)],
            if write_failed wr then CallErr else Continue) /\
    wsUpgradeInitialized p' = false /\ lInitialized p' = true /\
    bytesSent p' = (if write_failed wr then bytesSent p
                    else add_uint64 (bytesSent p) (written wr)).
Proof.
  intros Hs Hl Hup.
  unfold forward_body, forward_body_with, handleOutboundData.
  rewrite Conn_eqb_refl, Hl, Hs, Hup. simpl.
  rewrite Hs. simpl. destruct (write_failed wr); eexists; repeat split.
Qed.

(** C2, as the code has it: in server mode, when the outbound hook has
    just set [wsUpgradeInitialized], the iteration writes the 101 response
    to the stream the request was read from (the source, not the
    destination), clears the flag and starts the forwarding task of the
    reverse direction (destination, source), whether or not the write
    failed; after a successful write it counts the bytes as sent and goes
    on with its own loop.  The loop of the root package does the same with
    its shorter response. *)
Theorem upgrade_relink_answers_source (p : Proxy) (dst : Conn)
    (connBuff : string) (wr : WriteResult) :
  serverProxyMode p = true ->
  lInitialized p = false ->
  (doUpgrade (scan_lines connBuff) = true ->
   exists p',
     forward_body p (lConn p) dst connBuff wr =
       Some (p', [EWrite (lConn p) upgrade_response; ESpawn dst (lConn p)],
             if write_failed wr then CallErr else Continue) /\
     wsUpgradeInitialized p' = false /\ lInitialized p' = true /\
     bytesSent p' = (if write_failed wr then bytesSent p
                     else add_uint64 (bytesSent p) (written wr))) /\
  (Contains (ToLower connBuff) "upgrade: websocket" = true ->
   exists p',
     legacy_forward_body p (lConn p) dst connBuff wr =
       Some (p', [EWrite (lConn p)
                    ("HTTP/1.1 101 Switching Protocols" ++ crlf ++ crlf);
                  ESpawn dst (lConn p)],
             if write_failed wr then CallErr else Continue) /\
     wsUpgradeInitialized p' = false).
Proof.
  intros Hs Hl. split; intros Hup.
  - now apply forward_body_relink.
  - unfold legacy_forward_body, forward_body_with, legacy_handleOutboundData.
    rewrite Conn_eqb_refl, Hl, Hs, Hup. simpl.
    rewrite Hs. simpl. destruct (write_failed wr); eexists; repeat split.
Qed.

(** In the interleaving model the re-link is one step of the outbound
    goroutine: it stays in its loop and the reverse goroutine is started. *)
Lemma upgrade_relink_step (p : Proxy) (st : StartPc) (connBuff : string)
    (n : N) (s r lc rc : nat) :
  serverProxyMode p = true ->
  lInitialized p = false ->
  doUpgrade (scan_lines connBuff) = true ->
  exists p',
    step (mkWorld p st [mkTask (lConn p) DialedConn InLoop] s r lc rc false)
         (mkWorld p' st [mkTask (lConn p) DialedConn InLoop;
                         mkTask DialedConn (lConn p) Entry] s r lc rc false).
Proof.
  intros Hs Hl Hup.
  destruct (forward_body_relink p DialedConn connBuff (mkWrite n false)
              Hs Hl Hup) as [p' [Hbody _]]. exists p'.
  apply (step_task p st [] (mkTask (lConn p) DialedConn InLoop) [] s r lc rc
           p' (mkTask (lConn p) DialedConn InLoop)
           [mkTask DialedConn (lConn p) Entry] 0 false).
  apply (iteration p (lConn p) DialedConn (Some connBuff) (mkWrite n false)
           p' [EWrite (lConn p) upgrade_response; ESpawn DialedConn (lConn p)]
           Continue).
  exact Hbody.
Qed.

(** ** The life cycle of a session *)

Lemma outbound_shape (p p1 : Proxy) (b b1 : string) :
  handleOutboundData p b = Some (p1, b1) ->
  p1 = p \/
  (serverProxyMode p = true /\ lInitialized p = false /\
   p1 = with_lInitialized true (with_wsUpgradeInitialized true p)) \/
  (lInitialized p = false /\ p1 = with_lInitialized true p).
Proof.
  unfold handleOutboundData. destruct (lInitialized p) eqn:El.
  - intros [= <- _]. now left.
  - destruct (serverProxyMode p) eqn:Es.
    + destruct (doUpgrade _); intros [= <- _]; right; [left | right]; auto.
    + destruct (rewrite_ssh _ _ _); [|discriminate].
      destruct (rewrite_trojan _ _ _); [|discriminate].
      intros [= <- _]. right. right. auto.
Qed.

Lemma inbound_shape (p p1 : Proxy) (b b1 : string) :
  handleInboundData p b = Some (p1, b1) ->
  p1 = p \/ p1 = with_rInitialized true p.
Proof.
  unfold handleInboundData. destruct (rInitialized p).
  - intros [= <- _]. now left.
  - destruct (scan_lines b); [discriminate|]. intros [= <- _]. now right.
Qed.

(** What an iteration leaves alone, and when it starts a goroutine. *)
Lemma forward_iteration_frame p src dst rd wr p' effects o :
  forward_iteration p src dst rd wr = Some (p', effects, o) ->
  wsUpgradeInitialized p = false ->
  erred p' = erred p /\ errSig p' = errSig p /\ rConn p' = rConn p /\
  serverProxyMode p' = serverProxyMode p /\
  wsUpgradeInitialized p' = false /\
  ((spawned effects = [] /\ (lInitialized p = true -> lInitialized p' = true)) \/
   (serverProxyMode p = true /\ lInitialized p = false /\
    lInitialized p' = true /\ spawned effects = [mkTask dst src Entry])).
Proof.
  destruct rd as [b|]; simpl.
  2:{ intros [= <- <- _] Hw. repeat split; auto. }
  unfold forward_body, forward_body_with. intros H Hw.
  destruct (Conn_eqb src (lConn p)).
  - destruct (handleOutboundData p b) as [[p1 b1]|] eqn:E; [|discriminate].
    apply outbound_shape in E as [-> | [[Hs [Hl ->]] | [Hl ->]]].
    + rewrite Hw, andb_false_r in H.
      destruct (write_failed wr); injection H as <- <- _;
        repeat split; auto.
    + simpl in H. rewrite Hs in H. simpl in H.
      destruct (write_failed wr); injection H as <- <- _;
        repeat split; auto; right; repeat split; auto.
    + simpl in H. rewrite Hw, andb_false_r in H.
      destruct (write_failed wr); injection H as <- <- _;
        repeat split; auto.
  - destruct (handleInboundData p b) as [[p1 b1]|] eqn:E; [|discriminate].
    apply inbound_shape in E as [-> | ->]; simpl in H;
      rewrite Hw, andb_false_r in H;
      destruct (write_failed wr); injection H as <- <- _;
      repeat split; auto.
Qed.

Lemma senders_app (a b : list Task) : senders (a ++ b) = senders a + senders b.
Proof. unfold senders. now rewrite filter_app, length_app. Qed.

Lemma senders_cons (t : Task) (ts : list Task) :
  senders (t :: ts) = (if past_send t then 1 else 0) + senders ts.
Proof. unfold senders. simpl. now destruct (past_send t). Qed.

Lemma senders_le_length (ts : list Task) : senders ts <= length ts.
Proof. apply filter_length_le. Qed.

Lemma task_limit_grows (p p' : Proxy) (st : StartPc) :
  serverProxyMode p' = serverProxyMode p ->
  (lInitialized p = true -> lInitialized p' = true) ->
  task_limit p st <= task_limit p' st.
Proof.
  intros Hs Hl. unfold task_limit. rewrite Hs.
  destruct st, (serverProxyMode p), (lInitialized p) eqn:E; simpl; try lia;
    try (rewrite Hl by reflexivity; simpl; lia);
    destruct (lInitialized p'); simpl; lia.
Qed.

Lemma start_step_invariant (w w' : World) :
  start_step w w' -> session_invariant w -> session_invariant w'.
Proof.
  unfold session_invariant, start_counts, dial_outcome.
  intros Hstep; destruct Hstep; simpl;
    intros (Hc & Hw & Hlen & Hch & Hs).
  - (* dial fails *)
    destruct Hc as (Hr & ? & ? & ? & ?).
    assert (ts = []) by (destruct ts; [reflexivity | simpl in Hlen; lia]).
    split; [split; [assumption | right; tauto]|].
    repeat split; auto; try lia.
  - (* dial succeeds *)
    repeat split; try tauto; auto.
  - (* go outbound *)
    rewrite length_app, senders_app. simpl.
    repeat split; try tauto; auto; try lia.
    destruct (serverProxyMode p && lInitialized p); lia.
  - (* go inbound *)
    destruct (serverProxyMode p) eqn:Es; simpl in *.
    + repeat split; try tauto; auto.
      destruct (lInitialized p); simpl in *; lia.
    + rewrite length_app, senders_app. simpl.
      repeat split; try tauto; auto; lia.
  - (* receive *)
    repeat split; try tauto; auto; lia.
  - (* close remote *)
    unfold CloseConnection.
    split; [split; [tauto | left; repeat split; try tauto; lia]|].
    repeat split; auto.
  - (* close local *)
    unfold CloseConnection.
    split; [split; [lia | tauto]|].
    repeat split; auto.
Qed.

Lemma task_step_invariant p st before t after s r lc rc p' t' new sent panic :
  task_step p t p' t' new sent panic ->
  session_invariant (mkWorld p st (before ++ t :: after) s r lc rc false) ->
  session_invariant
    (mkWorld p' st (before ++ t' :: after ++ new) (sent + s) r lc rc panic).
Proof.
  unfold session_invariant, start_counts, dial_outcome. simpl.
  rewrite !length_app, !senders_app. simpl length.
  rewrite !length_app, !senders_cons, !senders_app.
  intros Hstep (Hc & Hw & Hlen & Hch & Hs).
  assert ((before ++ t :: after)%list <> []) as Hne by now destruct before.
  assert (forall X : list Task, (before ++ t' :: X)%list <> []) as Hne'
    by now destruct before.
  assert (st <> AtDial /\ st <> AtGoOutbound) as [Hst1 Hst2].
  { split; intros ->; simpl in Hlen; lia. }
  destruct Hstep as
    [p src dst Hfit | p src dst Hbig
     | p src dst rd wr p' effects o Hit | p src dst rd wr Hit
     | p src dst | p src dst Hcap | p src dst]; simpl in *.
  - (* the buffer is allocated *)
    rewrite Nat.add_0_r.
    repeat split; try tauto; try lia.
    destruct st; intuition congruence.
  - (* the allocation panics *)
    rewrite Nat.add_0_r.
    repeat split; try tauto; try lia.
    destruct st; intuition congruence.
  - (* an iteration *)
    destruct (forward_iteration_frame _ _ _ _ _ _ _ _ Hit Hw)
      as (He & Hsig & Hr & Hsrv & Hw' & Hsp).
    rewrite Hr, Hsig.
    assert (past_send (mkTask src dst (pc_after o)) = false) as ->
      by now destruct o.
    split; [destruct st; intuition congruence|].
    split; [exact Hw'|].
    split; [|split; [lia|]].
    + destruct Hsp as [[-> Hl] | (Hs1 & Hl & Hl' & ->)]; simpl.
      * pose proof (task_limit_grows p p' st Hsrv Hl). lia.
      * unfold task_limit in *. rewrite Hsrv, Hs1, Hl' in *. rewrite Hl in Hlen.
        destruct st; simpl in *; try lia; congruence.
    + destruct Hsp as [[-> _] | (_ & _ & _ & ->)]; simpl; lia.
  - (* a panic *)
    rewrite Nat.add_0_r.
    repeat split; try tauto; try lia.
    destruct st; intuition congruence.
  - (* the test of the latch *)
    rewrite Nat.add_0_r.
    split; [destruct st; intuition congruence|].
    repeat split; auto; try lia;
      destruct (erred p); simpl in *; lia.
  - (* the send *)
    rewrite Nat.add_0_r.
    split; [destruct st; intuition congruence|].
    repeat split; auto; lia.
  - (* the latch is set *)
    rewrite Nat.add_0_r.
    split; [destruct st; intuition congruence|].
    repeat split; auto; lia.
Qed.

Lemma step_invariant (w w' : World) :
  step w w' -> session_invariant w -> session_invariant w'.
Proof.
  intros [w1 w2 H | p st before t after s r lc rc p' t' new sent panic H].
  - now apply start_step_invariant.
  - now apply task_step_invariant.
Qed.

Lemma initial_invariant (p : Proxy) : ready p -> session_invariant (initial p).
Proof.
  intros (He & Hsig & Hr & Hw). unfold session_invariant. simpl.
  repeat split; auto. rewrite Hsig. reflexivity.
Qed.

(** Every world of every interleaving satisfies the invariant. *)
Lemma reaches_invariant (p : Proxy) (w : World) :
  ready p -> reaches (initial p) w -> session_invariant w.
Proof.
  intros Hp Hreach. induction Hreach as [|w1 w2 _ IH Hstep].
  - now apply initial_invariant.
  - now apply (step_invariant w1).
Qed.

Lemma reaches_first (w w1 w2 : World) :
  step w w1 -> reaches w1 w2 -> reaches w w2.
Proof.
  intros Hstep Hreach. induction Hreach as [|w2 w3 _ IH Hs].
  - apply (reaches_step w w w1); [apply reaches_refl | exact Hstep].
  - apply (reaches_step w w2 w3); [exact IH | exact Hs].
Qed.

(** The latch [erred] is tested and set in separate steps: two goroutines
    whose streams fail together both pass the test and both send. *)
Lemma err_latch_race (p : Proxy) :
  ready p -> serverProxyMode p = false -> (buffSize p <= maxAlloc)%N ->
  reaches (initial p) (twice_sent p).
Proof.
  intros (He & Hsig & Hr & Hw) Hs Hfit. unfold twice_sent.
  set (p1 := with_rConn (Some DialedConn) p).
  set (out := fun pc => mkTask (lConn p) DialedConn pc).
  set (inb := fun pc => mkTask DialedConn (lConn p) pc).
  apply reaches_first with (mkWorld p1 AtGoOutbound [] 0 0 0 0 false).
  { apply step_start, dial_succeeds. }
  apply reaches_first with (mkWorld p1 AtGoInbound [out Entry] 0 0 0 0 false).
  { apply step_start, (go_outbound p1 []). }
  apply reaches_first
    with (mkWorld p1 AtReceive [out Entry; inb Entry] 0 0 0 0 false).
  { apply step_start.
    pose proof (go_inbound p1 [out Entry] 0 0 0 0) as H.
    change (serverProxyMode p1) with (serverProxyMode p) in H.
    rewrite Hs in H. exact H. }
  apply reaches_first
    with (mkWorld p1 AtReceive [out InLoop; inb Entry] 0 0 0 0 false).
  { apply (step_task p1 AtReceive [] (out Entry) [inb Entry] 0 0 0 0
             p1 (out InLoop) [] 0 false).
    apply (entry_allocates p1 (lConn p) DialedConn). exact Hfit. }
  apply reaches_first
    with (mkWorld p1 AtReceive [out InLoop; inb InLoop] 0 0 0 0 false).
  { apply (step_task p1 AtReceive [out InLoop] (inb Entry) [] 0 0 0 0
             p1 (inb InLoop) [] 0 false).
    apply (entry_allocates p1 DialedConn (lConn p)). exact Hfit. }
  apply reaches_first
    with (mkWorld p1 AtReceive [out ErrTest; inb InLoop] 0 0 0 0 false).
  { apply (step_task p1 AtReceive [] (out InLoop) [inb InLoop] 0 0 0 0
             p1 (out ErrTest) [] 0 false).
    now apply (iteration p1 (lConn p) DialedConn None (mkWrite 0 false)
                 p1 [] CallErr). }
  apply reaches_first
    with (mkWorld p1 AtReceive [out ErrTest; inb ErrTest] 0 0 0 0 false).
  { apply (step_task p1 AtReceive [out ErrTest] (inb InLoop) [] 0 0 0 0
             p1 (inb ErrTest) [] 0 false).
    now apply (iteration p1 DialedConn (lConn p) None (mkWrite 0 false)
                 p1 [] CallErr). }
  apply reaches_first
    with (mkWorld p1 AtReceive [out ErrSend; inb ErrTest] 0 0 0 0 false).
  { apply (step_task p1 AtReceive [] (out ErrTest) [inb ErrTest] 0 0 0 0
             p1 (out ErrSend) [] 0 false).
    pose proof (err_test p1 (lConn p) DialedConn) as H.
    change (erred p1) with (erred p) in H. rewrite He in H. exact H. }
  apply reaches_first
    with (mkWorld p1 AtReceive [out ErrSend; inb ErrSend] 0 0 0 0 false).
  { apply (step_task p1 AtReceive [out ErrSend] (inb ErrTest) [] 0 0 0 0
             p1 (inb ErrSend) [] 0 false).
    pose proof (err_test p1 DialedConn (lConn p)) as H.
    change (erred p1) with (erred p) in H. rewrite He in H. exact H. }
  apply reaches_first
    with (mkWorld (with_errSig 1 p1) AtReceive [out ErrMark; inb ErrSend]
            1 0 0 0 false).
  { apply (step_task p1 AtReceive [] (out ErrSend) [inb ErrSend] 0 0 0 0
             (with_errSig 1 p1) (out ErrMark) [] 1 false).
    pose proof (err_send p1 (lConn p) DialedConn) as H.
    change (errSig p1) with (errSig p) in H. rewrite Hsig in H.
    apply H. unfold errSigCap. lia. }
  apply reaches_first
    with (mkWorld (with_errSig 2 (with_errSig 1 p1)) AtReceive
            [out ErrMark; inb ErrMark] 2 0 0 0 false).
  { apply (step_task (with_errSig 1 p1) AtReceive [out ErrMark] (inb ErrSend)
             [] 1 0 0 0 (with_errSig 2 (with_errSig 1 p1)) (inb ErrMark)
             [] 1 false).
    apply (err_send (with_errSig 1 p1) DialedConn (lConn p)).
    simpl. unfold errSigCap. lia. }
  apply reaches_refl.
Qed.

(** With a buffer size beyond what the runtime allocates every goroutine
    panics in [make]: none gets into its loop, nothing is sent on
    [errSig], and [Start] gets past the receive only when the dial
    failed. *)
Lemma oversized_buffer_stalls (p : Proxy) (w : World) :
  ready p -> (maxAlloc < buffSize p)%N -> reaches (initial p) w ->
  buffSize (px w) = buffSize p /\ errSig (px w) = 0 /\ sends w = 0 /\
  (forall t, In t (tasks w) -> t_pc t = Entry) /\
  match start w with
  | AtDial | AtCloseLocal | Returned => rConn (px w) = None
  | AtGoOutbound | AtGoInbound | AtReceive => True
  | AtCloseRemote => False
  end.
Proof.
  intros (He & Hsig & Hr & Hw) Hbig Hreach.
  induction Hreach as [|w1 w2 _ (IHb & IHs & IHn & IHt & IHst) Hstep].
  - simpl. repeat split; auto. easy.
  - destruct Hstep as
      [w1 w2 H | q st before t after s r lc rc q' t' new sent panic H].
    + destruct H; simpl in *; try (repeat split; auto; fail).
      * repeat split; auto. intros t Hin.
        apply in_app_or in Hin as [Hin | [<- | []]]; [now apply IHt | easy].
      * repeat split; auto. destruct (serverProxyMode p0); [exact IHt|].
        intros t Hin.
        apply in_app_or in Hin as [Hin | [<- | []]]; [now apply IHt | easy].
      * lia.
      * destruct IHst.
    + simpl in *.
      assert (t_pc t = Entry) as Ht
        by (apply IHt, in_or_app; right; now left).
      destruct H as
        [q src dst Hfit | q src dst Hbig'
         | q src dst rd wr q' effects o Hit | q src dst rd wr Hit
         | q src dst | q src dst Hcap | q src dst]; try discriminate Ht.
      * rewrite IHb in Hfit. lia.
      * rewrite app_nil_r. repeat split; auto.
Qed.

(** A session whose dial succeeded can run to the end of [Start] when the
    runtime allocates a buffer of its size, and only then: with a larger
    size nothing is ever sent on [errSig] and [Start] does not return
    after a successful dial. *)
Theorem session_can_complete (p : Proxy) :
  ready p ->
  ((buffSize p <= maxAlloc)%N ->
   exists w, reaches (initial p) w /\ start w = Returned /\
             rConn (px w) = Some DialedConn /\ crashed w = false) /\
  ((maxAlloc < buffSize p)%N ->
   forall w, reaches (initial p) w ->
     sends w = 0 /\
     (rConn (px w) = Some DialedConn -> start w <> Returned)).
Proof.
  intros Hp. split.
  2:{ intros Hbig w Hreach.
      destruct (oversized_buffer_stalls p w Hp Hbig Hreach)
        as (_ & _ & Hn & _ & Hst).
      split; [exact Hn|]. intros Hr E. rewrite E in Hst. congruence. }
  destruct Hp as (He & Hsig & Hr & Hw). intros Hfit.
  set (p1 := with_rConn (Some DialedConn) p).
  set (out := fun pc => mkTask (lConn p) DialedConn pc).
  set (ts := fun pc =>
         if serverProxyMode p then [out pc]
         else [out pc; mkTask DialedConn (lConn p) Entry]).
  assert (forall pc q st pc' q' sent s r lc rc,
            task_step q (out pc) q' (out pc') [] sent false ->
            step (mkWorld q st (ts pc) s r lc rc false)
                 (mkWorld q' st (ts pc') (sent + s) r lc rc false)) as Hout.
  { intros pc q st pc' q' sent s r lc rc H. unfold ts.
    destruct (serverProxyMode p).
    - apply (step_task q st [] (out pc) [] s r lc rc q' (out pc') [] sent
               false H).
    - apply (step_task q st [] (out pc) [mkTask DialedConn (lConn p) Entry]
               s r lc rc q' (out pc') [] sent false H). }
  exists (mkWorld (with_errSig 0 (with_errSig 1 p1)) Returned (ts ErrMark)
            1 1 1 1 false).
  split; [|split; [|split]; reflexivity].
  apply reaches_first with (mkWorld p1 AtGoOutbound [] 0 0 0 0 false).
  { apply step_start, dial_succeeds. }
  apply reaches_first with (mkWorld p1 AtGoInbound [out Entry] 0 0 0 0 false).
  { apply step_start, (go_outbound p1 []). }
  apply reaches_first with (mkWorld p1 AtReceive (ts Entry) 0 0 0 0 false).
  { apply step_start. exact (go_inbound p1 [out Entry] 0 0 0 0). }
  apply reaches_first with (mkWorld p1 AtReceive (ts InLoop) 0 0 0 0 false).
  { apply (Hout Entry p1 AtReceive InLoop p1 0).
    apply (entry_allocates p1 (lConn p) DialedConn). exact Hfit. }
  apply reaches_first with (mkWorld p1 AtReceive (ts ErrTest) 0 0 0 0 false).
  { apply (Hout InLoop p1 AtReceive ErrTest p1 0).
    now apply (iteration p1 (lConn p) DialedConn None (mkWrite 0 false)
                 p1 [] CallErr). }
  apply reaches_first with (mkWorld p1 AtReceive (ts ErrSend) 0 0 0 0 false).
  { apply (Hout ErrTest p1 AtReceive ErrSend p1 0).
    pose proof (err_test p1 (lConn p) DialedConn) as H.
    change (erred p1) with (erred p) in H. rewrite He in H. exact H. }
  apply reaches_first
    with (mkWorld (with_errSig 1 p1) AtReceive (ts ErrMark) 1 0 0 0 false).
  { apply (Hout ErrSend p1 AtReceive ErrMark (with_errSig 1 p1) 1).
    pose proof (err_send p1 (lConn p) DialedConn) as H.
    change (errSig p1) with (errSig p) in H. rewrite Hsig in H.
    apply H. unfold errSigCap. lia. }
  apply reaches_first
    with (mkWorld (with_errSig 0 (with_errSig 1 p1)) AtCloseRemote
            (ts ErrMark) 1 1 0 0 false).
  { apply step_start.
    apply (receive (with_errSig 1 p1) (ts ErrMark) 1 0 0 0). simpl. lia. }
  apply reaches_first
    with (mkWorld (with_errSig 0 (with_errSig 1 p1)) AtCloseLocal
            (ts ErrMark) 1 1 0 1 false).
  { apply step_start, close_remote. }
  apply reaches_first
    with (mkWorld (with_errSig 0 (with_errSig 1 p1)) Returned
            (ts ErrMark) 1 1 1 1 false).
  { apply step_start, close_local. }
  apply reaches_refl.
Qed.

(** A goroutine at the send of [err] is never blocked, and the channel
    never holds more than it was made for. *)
Lemma err_send_never_blocks (p : Proxy) (w : World) :
  ready p -> reaches (initial p) w ->
  errSig (px w) <= errSigCap /\ sends w <= 2 /\
  (forall t, In t (tasks w) -> t_pc t = ErrSend -> errSig (px w) < errSigCap).
Proof.
  intros Hp Hreach.
  destruct (reaches_invariant p w Hp Hreach) as (_ & _ & Hlen & Hch & Hs).
  assert (length (tasks w) <= 2) as Hlen2.
  { revert Hlen. unfold task_limit.
    destruct (start w), (serverProxyMode (px w)), (lInitialized (px w));
      simpl; lia. }
  pose proof (senders_le_length (tasks w)) as Hle.
  unfold errSigCap. repeat split; try lia.
  intros t Hin Hpc.
  apply in_split in Hin as [before [after Heq]]. rewrite Heq in *.
  rewrite senders_app, senders_cons in Hs.
  rewrite length_app in Hlen2. simpl in Hlen2.
  pose proof (senders_le_length before). pose proof (senders_le_length after).
  unfold past_send in Hs. rewrite Hpc in Hs. lia.
Qed.

(** C1, as the code has it: in every interleaving [Start] receives from
    [errSig] at most once and closes each stream at most once.  When it
    has returned, the local stream was closed exactly once; after a dial
    that succeeded the signal was received exactly once and the remote
    stream closed exactly once; after a dial that failed no goroutine was
    started, nothing was sent or received and the remote stream, never
    opened, was not closed.  While [Start] waits, a signal that was sent is
    there for it to receive. *)
Theorem session_termination (p : Proxy) (w : World) :
  ready p ->
  reaches (initial p) w ->
  recvs w <= 1 /\ lclosed w <= 1 /\ rclosed w <= 1 /\
  (start w = Returned ->
   lclosed w = 1 /\
   ((rConn (px w) = Some DialedConn /\ recvs w = 1 /\ rclosed w = 1) \/
    (rConn (px w) = None /\ recvs w = 0 /\ rclosed w = 0 /\
     tasks w = [] /\ sends w = 0))) /\
  (start w = AtReceive -> 1 <= sends w -> 0 < errSig (px w)).
Proof.
  intros Hp Hreach.
  destruct (reaches_invariant p w Hp Hreach) as (Hc & _ & _ & Hch & _).
  unfold start_counts, dial_outcome in Hc.
  destruct (start w); repeat split; try discriminate;
    try (intuition lia); tauto.
Qed.

(** After a panic nothing moves: [Start] does not return and its deferred
    calls do not run. *)
Lemma panic_stops_session (w w' : World) :
  crashed w = true -> ~ step w w'.
Proof.
  intros Hc Hstep. destruct Hstep as [w1 w2 H | ]; [destruct H|];
    discriminate Hc.
Qed.

(** A first inbound buffer without a line crashes a session that is
    waiting in [Start]. *)
Lemma empty_inbound_buffer_crashes (p : Proxy) (s r lc rc : nat) :
  rInitialized p = false ->
  lConn p = AcceptedConn ->
  step (mkWorld p AtReceive [mkTask DialedConn AcceptedConn InLoop]
          s r lc rc false)
       (mkWorld p AtReceive [mkTask DialedConn AcceptedConn InLoop]
          s r lc rc true).
Proof.
  intros Hr Hl.
  apply (step_task p AtReceive [] (mkTask DialedConn AcceptedConn InLoop) []
           s r lc rc p (mkTask DialedConn AcceptedConn InLoop) [] 0 true).
  apply (iteration_panics p DialedConn AcceptedConn (Some EmptyString)
           (mkWrite 0 false)).
  simpl. unfold forward_body, forward_body_with, handleInboundData.
  now rewrite Hl, Hr.
Qed.

(** ** The hooks of the root package *)

(** The older hooks answer the upgrade with the status line alone and, in
    client mode, give any first buffer that holds [HTTP/1.] way to
    [rPayload]; they read no line by index and always return. *)
Example legacy_hooks_differ :
  let server := SetServerProxyMode true
                  (NewProxy 1 AcceptedConn "l" "r" false) in
  let client := SetrPayload EmptyString (NewProxy 1 AcceptedConn "l" "r" false) in
  option_map snd
    (legacy_handleOutboundData server
       ("GET / HTTP/1.1" ++ crlf ++ "Upgrade: websocket" ++ crlf ++ crlf))
  = Some ("HTTP/1.1 101 Switching Protocols" ++ crlf ++ crlf) /\
  option_map snd
    (legacy_handleInboundData client
       ("HTTP/1.1 101 Switching Protocols" ++ crlf ++ "x: y" ++ crlf ++ crlf))
  = Some ("HTTP/1.1 200 Connection Established" ++ crlf ++ crlf) /\
  legacy_handleInboundData client EmptyString
  = Some (with_rInitialized true client, EmptyString).
Proof. repeat split. Qed.

(** ** Lines and their re-serialization *)

Lemma lines_from_line (l rest cur : string) :
  free_of LF l = true ->
  lines_from (l ++ String LF rest) cur
  = emit_line (cur ++ l) (lines_from rest EmptyString).
Proof.
  revert cur; induction l as [|c l IH]; intros cur H.
  - simpl. now rewrite append_nil_r.
  - simpl in H. apply andb_true_iff in H as [Hc Hl].
    apply negb_true_iff in Hc. simpl. rewrite Hc, (IH _ Hl).
    now rewrite append_assoc.
Qed.

Lemma dropCR_append_CR (l : string) : dropCR (l ++ String CR EmptyString) = l.
Proof.
  induction l as [|c l IH]; [reflexivity|].
  simpl. rewrite IH. now destruct l.
Qed.

Lemma free_of_append (c : ascii) (a b : string) :
  free_of c (a ++ b) = free_of c a && free_of c b.
Proof.
  induction a as [|x a IH]; simpl; [reflexivity|].
  now rewrite IH, andb_assoc.
Qed.

Lemma scan_terminated_line (l rest : string) :
  plain_line l ->
  lines_from (l ++ crlf ++ rest) EmptyString
  = l :: lines_from rest EmptyString.
Proof.
  intros [Hfree Hlen]. unfold crlf.
  change (l ++ String CR (String LF EmptyString) ++ rest)
    with (l ++ String CR EmptyString ++ String LF rest).
  rewrite <- append_assoc, lines_from_line.
  - simpl append. unfold emit_line.
    rewrite length_append, dropCR_append_CR. simpl String.length.
    unfold MaxScanTokenSize.
    destruct (65536 <=? N.of_nat (String.length l + 1))%N eqn:E;
      [apply N.leb_le in E; lia | reflexivity].
  - rewrite free_of_append, Hfree. reflexivity.
Qed.

(** What the inbound hook of client mode writes is read back by the
    scanner as the lines it was made of. *)
Lemma scan_lines_Join (lines : list string) :
  lines <> [] ->
  Forall plain_line lines ->
  scan_lines (Join lines crlf ++ crlf) = lines.
Proof.
  unfold scan_lines. induction lines as [|l rest IH]; [easy|].
  intros _ Hall. inversion Hall as [|? ? Hl Hrest]; subst.
  destruct rest as [|l2 rest].
  - simpl Join. rewrite <- (append_nil_r crlf) at 1.
    now rewrite scan_terminated_line.
  - change (Join (l :: l2 :: rest) crlf)
      with (l ++ crlf ++ Join (l2 :: rest) crlf).
    rewrite !append_assoc, scan_terminated_line by exact Hl.
    f_equal. now apply IH.
Qed.

(** * Further properties of the session *)

(** ** Configured sessions *)

Lemma SetServerHost_shape (server : string) (p : Proxy) :
  SetServerHost server p = p \/
  exists h, SetServerHost server p = with_sHost h p.
Proof.
  unfold SetServerHost. destruct (SplitHostPort server) as [[h port]|];
    [destruct (ParseUint port) as [n|]|]; auto.
  right. now exists (mkHost h n).
Qed.

Lemma call_keeps_state (c : Setter) (p : Proxy) :
  erred (call c p) = erred p /\ errSig (call c p) = errSig p /\
  rConn (call c p) = rConn p /\
  wsUpgradeInitialized (call c p) = wsUpgradeInitialized p /\
  lInitialized (call c p) = lInitialized p /\
  rInitialized (call c p) = rInitialized p /\
  bytesSent (call c p) = bytesSent p /\
  bytesReceived (call c p) = bytesReceived p /\
  lConn (call c p) = lConn p /\ connId (call c p) = connId p.
Proof.
  destruct c; simpl; try (repeat split; reflexivity).
  destruct (SetServerHost_shape server p) as [-> | [h ->]];
    repeat split; reflexivity.
Qed.

Lemma configure_keeps_state (calls : list Setter) (p : Proxy) :
  let q := configure calls p in
  erred q = erred p /\ errSig q = errSig p /\ rConn q = rConn p /\
  wsUpgradeInitialized q = wsUpgradeInitialized p /\
  lInitialized q = lInitialized p /\ rInitialized q = rInitialized p /\
  bytesSent q = bytesSent p /\ bytesReceived q = bytesReceived p /\
  lConn q = lConn p /\ connId q = connId p.
Proof.
  revert p; induction calls as [|c calls IH]; intros p; simpl.
  - repeat split; reflexivity.
  - specialize (IH (call c p)). simpl in IH.
    pose proof (call_keeps_state c p) as H.
    decompose [and] IH. decompose [and] H.
    repeat split; congruence.
Qed.

(** Whatever setters are called on a new session, and in whatever order,
    the session is ready for [Start]: nothing is latched or queued, no
    remote stream is held, both first-packet latches are unset and both
    byte counters are zero. *)
Theorem configured_session_is_fresh (calls : list Setter) (id : N)
    (c : Conn) (lAddr rAddr : string) (secure : bool) :
  let p := configure calls (NewProxy id c lAddr rAddr secure) in
  ready p /\ lInitialized p = false /\ rInitialized p = false /\
  bytesSent p = 0%N /\ bytesReceived p = 0%N /\ lConn p = c /\ connId p = id.
Proof.
  intros p.
  pose proof (configure_keeps_state calls (NewProxy id c lAddr rAddr secure))
    as H. simpl in H. fold p in H. decompose [and] H.
  unfold ready. repeat split; assumption.
Qed.

(** ** What a running session leaves alone *)

Lemma same_config_refl (p : Proxy) : same_config p p.
Proof. unfold same_config. repeat split. Qed.

Lemma same_config_trans (p q r : Proxy) :
  same_config p q -> same_config q r -> same_config p r.
Proof.
  unfold same_config. intros H1 H2.
  decompose [and] H1. decompose [and] H2. repeat split; congruence.
Qed.

Lemma forward_iteration_config p src dst rd wr p' effects o :
  forward_iteration p src dst rd wr = Some (p', effects, o) ->
  same_config p' p /\ erred p' = erred p /\ errSig p' = errSig p.
Proof.
  destruct rd as [b|]; simpl.
  2:{ intros [= <- _ _]. split; [apply same_config_refl | auto]. }
  unfold forward_body, forward_body_with. intros H.
  destruct (Conn_eqb src (lConn p)).
  - destruct (handleOutboundData p b) as [[p1 b1]|] eqn:E; [|discriminate].
    apply outbound_shape in E as [-> | [[_ [_ ->]] | [_ ->]]];
      destruct (serverProxyMode _ && wsUpgradeInitialized _),
        (write_failed wr); injection H as <- _ _;
      unfold same_config; repeat split.
  - destruct (handleInboundData p b) as [[p1 b1]|] eqn:E; [|discriminate].
    apply inbound_shape in E as [-> | ->];
      destruct (serverProxyMode _ && wsUpgradeInitialized _),
        (write_failed wr); injection H as <- _ _;
      unfold same_config; repeat split.
Qed.

Lemma step_config (w w' : World) : step w w' -> same_config (px w') (px w).
Proof.
  intros [w1 w2 H | p st before t after s r lc rc p' t' new sent panic H].
  - destruct H; simpl; unfold same_config; repeat split.
  - simpl. destruct H; try (unfold same_config; repeat split; fail).
    now apply forward_iteration_config in H.
Qed.

Lemma reaches_config (w w' : World) :
  reaches w w' -> same_config (px w') (px w).
Proof.
  induction 1 as [|w1 w2 _ IH Hstep]; [apply same_config_refl|].
  apply same_config_trans with (px w1); [now apply step_config | exact IH].
Qed.

(** Nothing that runs after [Start] was called writes a field of the
    configuration: kind, mode, TLS flag, SNI host, server host, buffer
    size, both payloads, addresses and identity are in every world of every
    interleaving what they were at the call. *)
Theorem running_session_keeps_config (w w' : World) :
  reaches w w' -> same_config (px w') (px w).
Proof.
  induction 1 as [|w1 w2 _ IH Hstep]; [apply same_config_refl|].
  apply same_config_trans with (px w1); [now apply step_config | exact IH].
Qed.

(** ** More on the life cycle *)

(** Before the dial has succeeded there is no forwarding goroutine, and
    after a dial that failed none is ever started: nothing is sent or
    received on [errSig] and the remote stream is not closed. *)
Theorem no_goroutine_without_remote (p : Proxy) (w : World) :
  ready p ->
  reaches (initial p) w ->
  rConn (px w) = None ->
  tasks w = [] /\ sends w = 0 /\ recvs w = 0 /\ rclosed w = 0.
Proof.
  intros Hp Hreach Hr.
  destruct (reaches_invariant p w Hp Hreach) as (Hc & _ & Hlen & Hch & Hs).
  unfold start_counts, dial_outcome in Hc.
  destruct (start w); simpl in Hlen;
    try (destruct Hc as (Hc & _); congruence).
  - destruct Hc as (_ & ? & _ & ? & ?).
    destruct (tasks w); [auto | simpl in Hlen; lia].
  - destruct Hc as (_ & [(Hc & _) | (_ & ? & ? & ? & ?)]); [congruence | auto].
  - destruct Hc as (_ & [(Hc & _) | (_ & ? & ? & ? & ?)]); [congruence | auto].
Qed.

Lemma senders_positive (ts : list Task) :
  1 <= senders ts -> exists t, In t ts /\ past_send t = true.
Proof.
  induction ts as [|t ts IH]; [unfold senders; simpl; lia|].
  rewrite senders_cons. destruct (past_send t) eqn:E.
  - intros _. exists t. split; [now left | exact E].
  - intros H. destruct (IH H) as [t' [Hin Ht]]. exists t'.
    split; [now right | exact Ht].
Qed.

(** [Start] closes the remote stream, and after a dial that succeeded the
    local one, only when a forwarding goroutine has failed and sent on
    [errSig]: while both directions keep running no stream is closed. *)
Theorem streams_closed_only_after_failure (p : Proxy) (w : World) :
  ready p ->
  reaches (initial p) w ->
  rclosed w = 1 \/ (lclosed w = 1 /\ rConn (px w) = Some DialedConn) ->
  recvs w = 1 /\
  exists t, In t (tasks w) /\ (t_pc t = ErrMark \/ t_pc t = Finished).
Proof.
  intros Hp Hreach Hclosed.
  destruct (reaches_invariant p w Hp Hreach) as (Hc & _ & _ & Hch & Hs).
  assert (recvs w = 1) as Hr.
  { unfold start_counts, dial_outcome in Hc.
    destruct (start w); try (intuition (try lia; congruence)). }
  split; [exact Hr|].
  destruct (senders_positive (tasks w)) as [t [Hin Ht]]; [lia|].
  exists t. split; [exact Hin|]. unfold past_send in Ht.
  destruct (t_pc t); try discriminate; auto.
Qed.

Lemma forward_iteration_spawns_at_entry p src dst rd wr p' effects o t :
  forward_iteration p src dst rd wr = Some (p', effects, o) ->
  In t (spawned effects) -> t_pc t = Entry.
Proof.
  intros _. induction effects as [|[c d | s d] rest IH]; simpl.
  - easy.
  - exact IH.
  - intros [<- | H]; [reflexivity | now apply IH].
Qed.

(** [erred] is set only by a goroutine that has sent: when it holds, the
    signal was sent at least once. *)
Theorem erred_means_signalled (p : Proxy) (w : World) :
  ready p ->
  reaches (initial p) w ->
  erred (px w) = true -> 1 <= sends w.
Proof.
  intros Hp Hreach.
  assert ((erred (px w) = true -> 1 <= sends w) /\
          (forall t, In t (tasks w) -> t_pc t = ErrMark -> 1 <= sends w))
    as [H _]; [|exact H].
  induction Hreach as [|w1 w2 _ [IHe IHm] Hstep].
  - destruct Hp as (He & _). simpl. split; [congruence | easy].
  - destruct Hstep as
      [w1 w2 H | q st before t after s r lc rc q' t' new sent panic H].
    + destruct H; simpl in *; auto.
      * split; [exact IHe|]. intros t Hin. apply in_app_or in Hin as [Hin | Hin].
        -- now apply IHm.
        -- destruct Hin as [<- | []]. discriminate.
      * split; [exact IHe|]. destruct (serverProxyMode p0); [exact IHm|].
        intros t Hin. apply in_app_or in Hin as [Hin | Hin].
        -- now apply IHm.
        -- destruct Hin as [<- | []]. discriminate.
    + simpl in *.
      assert (forall x, In x (before ++ t' :: after ++ new)%list ->
                In x (before ++ t :: after)%list \/ x = t' \/ In x new) as Hin'.
      { intros x Hx. apply in_app_or in Hx as [Hx | [<- | Hx]].
        - left. apply in_or_app. now left.
        - auto.
        - apply in_app_or in Hx as [Hx | Hx]; auto.
          left. apply in_or_app. right. now right. }
      destruct H as
        [q src dst Hfit | q src dst Hbig
       | q src dst rd wr q' effects o Hit | q src dst rd wr Hit
         | q src dst | q src dst Hcap | q src dst]; simpl in *.
      * split; [exact IHe|]. intros x Hx Hpc.
        destruct (Hin' x Hx) as [H1 | [-> | []]];
          [now apply (IHm x) | discriminate].
      * split; [exact IHe|]. intros x Hx Hpc.
        destruct (Hin' x Hx) as [H1 | [-> | []]];
          [now apply (IHm x) | discriminate].
      * destruct (forward_iteration_config _ _ _ _ _ _ _ _ Hit)
          as (_ & He & _). rewrite He.
        split; [exact IHe|]. intros x Hx Hpc.
        destruct (Hin' x Hx) as [H1 | [-> | H1]].
        -- now apply (IHm x).
        -- destruct o; discriminate.
        -- now rewrite (forward_iteration_spawns_at_entry _ _ _ _ _ _ _ _ _ Hit H1)
             in Hpc.
      * split; [exact IHe|]. intros x Hx Hpc.
        destruct (Hin' x Hx) as [H1 | [-> | []]];
          [now apply (IHm x) | discriminate].
      * split; [exact IHe|]. intros x Hx Hpc.
        destruct (Hin' x Hx) as [H1 | [-> | []]]; [now apply (IHm x)|].
        simpl in Hpc. destruct (erred q); discriminate.
      * split; intros; lia.
      * split; intros; apply (IHm (mkTask src dst ErrMark));
          [apply in_or_app; right; now left | reflexivity
          | apply in_or_app; right; now left | reflexivity].
Qed.

(** Failures that do not overlap are signalled once: when [erred] is set
    and no goroutine is between the test and the end of [err], whatever
    happens later sends nothing more. *)
Theorem latched_session_sends_nothing (w w' : World) :
  erred (px w) = true ->
  (forall t, In t (tasks w) -> t_pc t <> ErrSend /\ t_pc t <> ErrMark) ->
  reaches w w' ->
  sends w' = sends w /\ erred (px w') = true.
Proof.
  intros He Hts Hreach.
  assert (sends w' = sends w /\ erred (px w') = true /\
          (forall t, In t (tasks w') ->
             t_pc t <> ErrSend /\ t_pc t <> ErrMark)) as (H1 & H2 & _);
    [|now split].
  induction Hreach as [|w1 w2 _ (IHs & IHe & IHt) Hstep];
    [split; [reflexivity | split; assumption]|].
  destruct Hstep as
    [w1 w2 H | q st before t after s r lc rc q' t' new sent panic H].
  - destruct H; simpl in *; (split; [|split]); auto; intros t Hin.
    + apply in_app_or in Hin as [Hin | [<- | []]];
        [now apply IHt | split; discriminate].
    + destruct (serverProxyMode p); [now apply IHt|].
      apply in_app_or in Hin as [Hin | [<- | []]];
        [now apply IHt | split; discriminate].
  - simpl in *.
    assert (t_pc t <> ErrSend /\ t_pc t <> ErrMark) as [Hn1 Hn2].
    { apply IHt, in_or_app. right. now left. }
    assert (forall x, In x (before ++ t' :: after ++ new)%list ->
              In x (before ++ t :: after)%list \/ x = t' \/ In x new) as Hin'.
    { intros x Hx. apply in_app_or in Hx as [Hx | [<- | Hx]].
      - left. apply in_or_app. now left.
      - auto.
      - apply in_app_or in Hx as [Hx | Hx]; auto.
        left. apply in_or_app. right. now right. }
    destruct H as
      [q src dst Hfit | q src dst Hbig
       | q src dst rd wr q' effects o Hit | q src dst rd wr Hit
       | q src dst | q src dst Hcap | q src dst]; simpl in *;
      try congruence.
    + (split; [|split]); auto. intros x Hx.
      destruct (Hin' x Hx) as [H1 | [-> | []]];
        [now apply IHt | split; discriminate].
    + (split; [|split]); auto. intros x Hx.
      destruct (Hin' x Hx) as [H1 | [-> | []]];
        [now apply IHt | split; discriminate].
    + destruct (forward_iteration_config _ _ _ _ _ _ _ _ Hit) as (_ & E & _).
      rewrite E. (split; [|split]); auto. intros x Hx.
      destruct (Hin' x Hx) as [H1 | [-> | H1]].
      * now apply IHt.
      * destruct o; split; discriminate.
      * rewrite (forward_iteration_spawns_at_entry _ _ _ _ _ _ _ _ _ Hit H1).
        split; discriminate.
    + (split; [|split]); auto. intros x Hx.
      destruct (Hin' x Hx) as [H1 | [-> | []]];
        [now apply IHt | split; discriminate].
    + rewrite IHe in Hin' |- *. (split; [|split]); auto. intros x Hx.
      destruct (Hin' x Hx) as [H1 | [-> | []]];
        [now apply IHt | split; discriminate].
Qed.

(** ** The byte counters *)

Lemma forward_iteration_counters p src dst rd wr p1 effects o :
  forward_iteration p src dst rd wr = Some (p1, effects, o) ->
  lConn p1 = lConn p /\
  o = match rd with
      | None => CallErr
      | Some _ => if write_failed wr then CallErr else Continue
      end /\
  (if Conn_eqb src (lConn p)
   then bytesReceived p1 = bytesReceived p /\
        bytesSent p1 = match o with
                       | Continue => add_uint64 (bytesSent p) (written wr)
                       | CallErr => bytesSent p
                       end
   else bytesSent p1 = bytesSent p /\
        bytesReceived p1 = match o with
                           | Continue =>
                               add_uint64 (bytesReceived p) (written wr)
                           | CallErr => bytesReceived p
                           end).
Proof.
  destruct rd as [b|]; simpl.
  2:{ intros [= <- _ <-]. destruct (Conn_eqb src (lConn p)); auto. }
  unfold forward_body, forward_body_with. intros H.
  destruct (Conn_eqb src (lConn p)).
  - destruct (handleOutboundData p b) as [[q b1]|] eqn:E; [|discriminate].
    apply outbound_shape in E as [-> | [[_ [_ ->]] | [_ ->]]];
      destruct (serverProxyMode _ && wsUpgradeInitialized _),
        (write_failed wr); injection H as <- _ <-; auto.
  - destruct (handleInboundData p b) as [[q b1]|] eqn:E; [|discriminate].
    apply inbound_shape in E as [-> | ->];
      destruct (serverProxyMode _ && wsUpgradeInitialized _),
        (write_failed wr); injection H as <- _ <-; auto.
Qed.

Lemma add_uint64_range (x n : N) : is_uint64 (add_uint64 x n).
Proof. unfold is_uint64, add_uint64. now apply N.mod_lt. Qed.

Lemma add_uint64_add (x a b : N) :
  add_uint64 (add_uint64 x a) b = add_uint64 x (a + b).
Proof.
  unfold add_uint64. rewrite N.Div0.add_mod_idemp_l. f_equal. lia.
Qed.

Lemma add_uint64_zero (x : N) : is_uint64 x -> add_uint64 x 0 = x.
Proof.
  unfold is_uint64, add_uint64. intros H. rewrite N.add_0_r.
  now apply N.mod_small.
Qed.

Lemma handleForwardData_counters (script : list (option string * WriteResult)) :
  forall p src dst p' effects o,
  is_uint64 (bytesSent p) -> is_uint64 (bytesReceived p) ->
  handleForwardData p src dst script = Some (p', effects, o) ->
  if Conn_eqb src (lConn p)
  then bytesSent p' = add_uint64 (bytesSent p) (bytes_counted script) /\
       bytesReceived p' = bytesReceived p
  else bytesReceived p' = add_uint64 (bytesReceived p) (bytes_counted script) /\
       bytesSent p' = bytesSent p.
Proof.
  induction script as [|[rd wr] rest IH]; intros p src dst p' effects o Hs Hr.
  - simpl. intros [= <- _ _].
    destruct (Conn_eqb src (lConn p)); now rewrite add_uint64_zero.
  - simpl handleForwardData.
    destruct (forward_iteration p src dst rd wr) as [[[p1 e1] o1]|] eqn:E;
      [|discriminate].
    destruct (forward_iteration_counters _ _ _ _ _ _ _ _ E) as (Hl & Ho & Hc).
    destruct o1.
    + (* the iteration went through *)
      destruct (handleForwardData p1 src dst rest) as [[[p2 e2] o2]|] eqn:E2;
        [|discriminate].
      intros [= <- _ _].
      destruct rd as [b|]; [|discriminate].
      destruct (write_failed wr) eqn:Ew; [discriminate|].
      simpl bytes_counted. rewrite Ew.
      specialize (IH p1 src dst p2 e2 o2). rewrite Hl in IH.
      destruct (Conn_eqb src (lConn p)); destruct Hc as [Hc1 Hc2].
      * rewrite Hc1, Hc2 in IH.
        destruct (IH (add_uint64_range _ _) Hr E2) as [-> ->].
        now rewrite add_uint64_add.
      * rewrite Hc1, Hc2 in IH.
        destruct (IH Hs (add_uint64_range _ _) E2) as [-> ->].
        now rewrite add_uint64_add.
    + (* the iteration failed *)
      intros [= <- _ _].
      assert (bytes_counted ((rd, wr) :: rest) = 0%N) as ->.
      { simpl. destruct rd; [|reflexivity].
        destruct (write_failed wr); [reflexivity | discriminate]. }
      destruct (Conn_eqb src (lConn p)); destruct Hc as [-> ->];
        now rewrite add_uint64_zero.
Qed.

(** Over a whole run of the forwarding loop the counter of the loop's
    direction grows, modulo 2^64, by the byte counts of the writes that
    succeeded before the first failure, and by nothing else: a failed
    read or write counts nothing, the counter of the other direction is
    not touched, and both stay in the range of [uint64]. *)
Theorem forward_loop_counts (p p' : Proxy) (src dst : Conn)
    (script : list (option string * WriteResult)) (effects : list Effect)
    (o : Outcome) :
  is_uint64 (bytesSent p) -> is_uint64 (bytesReceived p) ->
  handleForwardData p src dst script = Some (p', effects, o) ->
  (if Conn_eqb src (lConn p)
   then bytesSent p' = ((bytesSent p + bytes_counted script) mod 2 ^ 64)%N /\
        bytesReceived p' = bytesReceived p
   else bytesReceived p'
          = ((bytesReceived p + bytes_counted script) mod 2 ^ 64)%N /\
        bytesSent p' = bytesSent p) /\
  is_uint64 (bytesSent p') /\ is_uint64 (bytesReceived p').
Proof.
  intros Hs Hr H.
  pose proof (handleForwardData_counters script p src dst p' effects o Hs Hr H)
    as Hc.
  destruct (Conn_eqb src (lConn p)); destruct Hc as [E1 E2]; rewrite E1, E2.
  - repeat split; [apply add_uint64_range | exact Hr].
  - repeat split; [exact Hs | apply add_uint64_range].
Qed.

Lemma bytes_counted_faultless (buffers : list string) :
  bytes_counted (faultless buffers) = total_length buffers.
Proof.
  induction buffers as [|b rest IH]; [reflexivity|].
  simpl. now rewrite IH.
Qed.

Lemma handleForwardData_latched (buffers : list string) :
  forall p src dst,
  wsUpgradeInitialized p = false ->
  (if Conn_eqb src (lConn p) then lInitialized p else rInitialized p) = true ->
  exists p',
    handleForwardData p src dst (faultless buffers)
    = Some (p', map (EWrite dst) buffers, Continue).
Proof.
  induction buffers as [|b rest IH]; intros p src dst Hw Hl.
  - now exists p.
  - simpl. unfold forward_body, forward_body_with.
    destruct (Conn_eqb src (lConn p)) eqn:Esrc.
    + rewrite handleOutboundData_latched by exact Hl.
      rewrite Hw, andb_false_r. simpl.
      set (p1 := with_bytesSent _ p).
      destruct (IH p1 src dst Hw) as [p' Hp'].
      { change (lConn p1) with (lConn p). now rewrite Esrc. }
      rewrite Hp'. now exists p'.
    + rewrite handleInboundData_latched by exact Hl.
      rewrite Hw, andb_false_r. simpl.
      set (p1 := with_bytesReceived _ p).
      destruct (IH p1 src dst Hw) as [p' Hp'].
      { change (lConn p1) with (lConn p). now rewrite Esrc. }
      rewrite Hp'. now exists p'.
Qed.

(** Once the hook of its direction has fired the loop is a transparent
    relay: as long as nothing fails, every buffer read is written to the
    destination as it was read, one write per read and in the order of the
    reads, no goroutine is started, and the counter of the direction grows
    by the total number of bytes relayed. *)
Theorem relay_is_transparent (p : Proxy) (src dst : Conn)
    (buffers : list string) :
  is_uint64 (bytesSent p) -> is_uint64 (bytesReceived p) ->
  wsUpgradeInitialized p = false ->
  (if Conn_eqb src (lConn p) then lInitialized p else rInitialized p) = true ->
  exists p',
    handleForwardData p src dst (faultless buffers)
    = Some (p', map (EWrite dst) buffers, Continue) /\
    (if Conn_eqb src (lConn p)
     then bytesSent p' = ((bytesSent p + total_length buffers) mod 2 ^ 64)%N
     else bytesReceived p'
          = ((bytesReceived p + total_length buffers) mod 2 ^ 64)%N).
Proof.
  intros Hs Hr Hw Hl.
  destruct (handleForwardData_latched buffers p src dst Hw Hl) as [p' Hp'].
  exists p'. split; [exact Hp'|].
  pose proof (handleForwardData_counters _ _ _ _ _ _ _ Hs Hr Hp') as Hc.
  rewrite bytes_counted_faultless in Hc.
  destruct (Conn_eqb src (lConn p)); now destruct Hc.
Qed.

(** ** Tokens that are gone after substitution *)

Lemma HasPrefix_alien (n : ascii) (old u a b : string) :
  free_of n old = true ->
  HasPrefix (u ++ a) old = false ->
  HasPrefix (u ++ String n b) old = false.
Proof.
  revert u; induction old as [|o old IH]; intros u Hfree H; [discriminate|].
  simpl in Hfree. apply andb_true_iff in Hfree as [Ho Hold].
  apply negb_true_iff in Ho.
  destruct u as [|x u]; simpl.
  - now rewrite Ho.
  - destruct a as [|y a]; simpl in H.
    + rewrite append_nil_r in H. simpl in H.
      destruct (Ascii.eqb o x); [simpl in *|reflexivity].
      apply IH; [exact Hold | now rewrite append_nil_r].
    + destruct (Ascii.eqb o x); [simpl in *|reflexivity].
      now apply IH.
Qed.

Lemma HasPrefix_Replace (n : ascii) (new' old s : string) :
  free_of n old = true ->
  forall u, HasPrefix (u ++ s) old = false ->
            HasPrefix (u ++ Replace s old (String n new')) old = false.
Proof.
  intros Hfree. induction s as [|c s IH]; intros u H.
  - now rewrite Replace_empty.
  - destruct (HasPrefix (String c s) old) eqn:HP.
    + apply HasPrefix_iff in HP as [rest Hrest]. rewrite Hrest in *.
      destruct old as [|o old']; [discriminate|].
      rewrite Replace_match. simpl append.
      now apply HasPrefix_alien with (a := String o old' ++ rest).
    + rewrite Replace_no_match by exact HP.
      change (u ++ String c (Replace s old (String n new')))
        with (u ++ String c EmptyString ++ Replace s old (String n new')).
      rewrite <- append_assoc. apply IH. now rewrite append_assoc.
Qed.

Lemma Contains_alien_prefix (o : ascii) (old' new x : string) :
  free_of o new = true ->
  Contains (new ++ x) (String o old') = Contains x (String o old').
Proof.
  induction new as [|c new IH]; intros H; [reflexivity|].
  simpl in H. apply andb_true_iff in H as [Hc Hnew].
  apply negb_true_iff in Hc. rewrite Ascii.eqb_sym in Hc.
  simpl. rewrite Hc. simpl. now apply IH.
Qed.

(** After [old] was replaced by a text in which [old] cannot start and
    whose first byte [old] does not hold, [old] occurs nowhere. *)
Lemma Replace_removes (o n : ascii) (old' new' s : string) :
  free_of o (String n new') = true ->
  free_of n (String o old') = true ->
  Contains (Replace s (String o old') (String n new')) (String o old') = false.
Proof.
  intros Hnew Hold.
  assert (forall k s, String.length s <= k ->
            Contains (Replace s (String o old') (String n new'))
              (String o old') = false) as Hk;
    [|now apply (Hk (String.length s))].
  clear s. induction k as [|k IH]; intros s Hlen.
  - destruct s; [reflexivity | simpl in Hlen; lia].
  - destruct s as [|c s]; [reflexivity|].
    destruct (HasPrefix (String c s) (String o old')) eqn:HP.
    + apply HasPrefix_iff in HP as [rest Hrest]. rewrite Hrest in *.
      rewrite Replace_match, Contains_alien_prefix by exact Hnew.
      apply IH. rewrite length_append in Hlen. simpl in Hlen. lia.
    + rewrite Replace_no_match by exact HP.
      change (Contains (String c ?r) ?t)
        with (HasPrefix (String c r) t || Contains r t).
      rewrite IH by (simpl in Hlen; lia). rewrite orb_false_r.
      apply (HasPrefix_Replace n new' (String o old') s Hold
               (String c EmptyString)). exact HP.
Qed.

(** Neither payload ever holds the token [[crlf]]: whatever the template
    and the session, [SetlPayload] and [SetrPayload] leave none of its
    occurrences and create none. *)
Theorem payloads_hold_no_crlf_token (p : Proxy) (template : string) :
  Contains (lPayload (SetlPayload template p)) "[crlf]" = false /\
  Contains (rPayload (SetrPayload template p)) "[crlf]" = false.
Proof.
  split; simpl; unfold expand_crlf, crlf; now apply Replace_removes.
Qed.

(** ** Decimal ports *)

Lemma uint_value_pos (d : Decimal.uint) (acc : positive) :
  uint_value d (N.pos acc) = N.pos (Pos.of_uint_acc d acc).
Proof.
  revert acc; induction d; intros acc; cbn [uint_value Pos.of_uint_acc];
    try reflexivity; rewrite <- IHd; f_equal; lia.
Qed.

Lemma uint_value_of_uint (d : Decimal.uint) : uint_value d 0 = N.of_uint d.
Proof.
  unfold N.of_uint. induction d; cbn [uint_value Pos.of_uint];
    try reflexivity; try (rewrite N.mul_0_l, N.add_0_l; apply uint_value_pos).
  rewrite N.mul_0_l, N.add_0_l. exact IHd.
Qed.

Lemma uint_value_grows (d : Decimal.uint) (acc : N) :
  (acc <= uint_value d acc)%N.
Proof.
  revert acc; induction d; intros acc; cbn [uint_value]; try lia;
    match goal with
    | |- (_ <= uint_value _ ?a)%N => specialize (IHd a); lia
    end.
Qed.

Lemma parse_digits_step (c : ascii) (k : N) (s : string) (acc v : N) :
  digit_value c = Some k ->
  (acc * 10 + k <= v)%N -> (v <= maxUint64)%N ->
  parse_digits (String c s) acc = parse_digits s (acc * 10 + k).
Proof.
  intros Hc Hle Hmax. cbn [parse_digits]. rewrite Hc.
  destruct (maxUint64 <? acc * 10 + k)%N eqn:E; [|reflexivity].
  apply N.ltb_lt in E. lia.
Qed.

Lemma parse_digits_string (d : Decimal.uint) (acc : N) :
  (uint_value d acc <= maxUint64)%N ->
  parse_digits (NilEmpty.string_of_uint d) acc = Some (uint_value d acc).
Proof.
  revert acc; induction d; intros acc H;
    cbn [NilEmpty.string_of_uint uint_value] in *; try reflexivity;
    match goal with
    | |- context [uint_value _ (acc * 10 + ?dig)%N] =>
        rewrite parse_digits_step
          with (k := dig) (v := uint_value d (acc * 10 + dig)%N);
          [now apply IHd | reflexivity | apply uint_value_grows | exact H]
    end.
Qed.

Lemma string_of_uint_nonempty (d : Decimal.uint) :
  d <> Decimal.Nil -> nonempty (NilEmpty.string_of_uint d) = true.
Proof. destruct d; simpl; congruence. Qed.

Lemma to_uint_nonnil (n : N) : N.to_uint n <> Decimal.Nil.
Proof.
  destruct n; simpl; [discriminate | apply Unsigned.to_uint_nonnil].
Qed.

Lemma format_uint_digits (n : N) :
  format_uint n = NilEmpty.string_of_uint (N.to_uint n).
Proof.
  unfold format_uint, NilZero.string_of_uint.
  pose proof (to_uint_nonnil n). now destruct (N.to_uint n).
Qed.

(** What [%d] prints, [strconv.ParseUint] reads back. *)
Lemma ParseUint_format_uint (n : N) :
  (n <= maxUint64)%N -> ParseUint (format_uint n) = Some n.
Proof.
  intros Hn. rewrite format_uint_digits. unfold ParseUint.
  pose proof (string_of_uint_nonempty _ (to_uint_nonnil n)) as Hne.
  destruct (NilEmpty.string_of_uint (N.to_uint n)) as [|c s] eqn:E;
    [discriminate|].
  rewrite <- E, parse_digits_string.
  - now rewrite uint_value_of_uint, DecimalN.Unsigned.of_to.
  - now rewrite uint_value_of_uint, DecimalN.Unsigned.of_to.
Qed.

(** C5: [SetlPayload] substitutes, by [strings.Replace] over all
    occurrences and in this order, [[host]] by the host name, [[host_port]]
    by name, colon and decimal port, [[sni]] by the SNI host and [[crlf]] by
    the two bytes CR LF; the host tokens are substituted only when a host
    name is set and the SNI token only when an SNI host is set, and a token
    whose value is not set still occurs in the payload.  [SetrPayload]
    replaces an empty template by the canned 200 response and substitutes
    [[crlf]] only.  Neither setter writes another field than its payload.
    The decimal port is the text [strconv.ParseUint] reads back; the
    substitution replaces every occurrence, from left to right, and copies
    the bytes between occurrences. *)
Theorem payload_setters_substitute (p : Proxy) (template : string) :
  let name := HostName (sHost p) in
  let port := Port (sHost p) in
  let sni := sniHost p in
  let hosts t :=
    Replace (Replace t "[host]" name)
      "[host_port]" (name ++ ":" ++ format_uint port) in
  let ends t :=
    Replace t "[crlf]"
      (String (ascii_of_nat 13) (String (ascii_of_nat 10) EmptyString)) in
  (name <> EmptyString -> sni <> EmptyString ->
   lPayload (SetlPayload template p)
   = ends (Replace (hosts template) "[sni]" sni)) /\
  (name <> EmptyString -> sni = EmptyString ->
   lPayload (SetlPayload template p) = ends (hosts template)) /\
  (name = EmptyString -> sni <> EmptyString ->
   lPayload (SetlPayload template p) = ends (Replace template "[sni]" sni)) /\
  (name = EmptyString -> sni = EmptyString ->
   lPayload (SetlPayload template p) = ends template) /\
  (name = EmptyString ->
   forall tok, tok = "[host]" \/ tok = "[host_port]" ->
     Contains template tok = true ->
     Contains (lPayload (SetlPayload template p)) tok = true) /\
  (sni = EmptyString ->
   Contains template "[sni]" = true ->
   Contains (lPayload (SetlPayload template p)) "[sni]" = true) /\
  rPayload (SetrPayload EmptyString p)
  = ends "HTTP/1.1 200 Connection Established[crlf][crlf]" /\
  ends "HTTP/1.1 200 Connection Established[crlf][crlf]"
  = "HTTP/1.1 200 Connection Established" ++ crlf ++ crlf /\
  (template <> EmptyString ->
   rPayload (SetrPayload template p) = ends template) /\
  (sHost (SetlPayload template p) = sHost p /\
   sniHost (SetlPayload template p) = sniHost p /\
   rPayload (SetlPayload template p) = rPayload p /\
   lPayload (SetrPayload template p) = lPayload p) /\
  ((port <= 18446744073709551615)%N ->
   ParseUint (format_uint port) = Some port) /\
  (format_uint 0 = "0" /\ format_uint 443 = "443" /\
   format_uint 65535 = "65535") /\
  (forall s old new, old <> EmptyString ->
     Replace EmptyString old new = EmptyString /\
     Replace (old ++ s) old new = new ++ Replace s old new /\
     (forall c, (forall rest, String c s <> old ++ rest) ->
        Replace (String c s) old new = String c (Replace s old new))).
Proof.
  intros name port sni hosts ends.
  assert (lPayload (SetlPayload template p)
          = expand_crlf (expand_sni sni (expand_host (sHost p) template)))
    as Hl by reflexivity.
  assert (forall t, rPayload (SetrPayload t p)
          = expand_crlf (if nonempty t then t else default_rPayload))
    as Hr by reflexivity.
  assert (forall t, expand_crlf t = ends t) as Hends by reflexivity.
  assert (name <> EmptyString -> expand_host (sHost p) template = hosts template)
    as Hset.
  { unfold expand_host, host_port. fold name port.
    destruct name; [congruence | reflexivity]. }
  assert (name = EmptyString -> expand_host (sHost p) template = template)
    as Hunset.
  { unfold expand_host. fold name. now intros ->. }
  split; [|split; [|split; [|split]]].
  - intros Hn Hs. rewrite Hl, Hset, Hends by exact Hn.
    unfold expand_sni. destruct sni; [congruence | reflexivity].
  - intros Hn Hs. rewrite Hl, Hset, Hends, Hs by exact Hn. reflexivity.
  - intros Hn Hs. rewrite Hl, Hunset, Hends by exact Hn.
    unfold expand_sni. destruct sni; [congruence | reflexivity].
  - intros Hn Hs. rewrite Hl, Hunset, Hends, Hs by exact Hn. reflexivity.
  - split; [|split; [|split; [|split; [|split; [|split; [|split; [|split]]]]]]].
    + intros Hh tok Htok. now apply SetlPayload_keeps_host_token.
    + apply SetlPayload_keeps_sni_token.
    + reflexivity.
    + reflexivity.
    + intros Ht. rewrite Hr, Hends. destruct template; [congruence | reflexivity].
    + repeat split.
    + intros Hport. now apply ParseUint_format_uint.
    + repeat split.
    + intros s old new Hold. split; [apply Replace_empty|].
      destruct old as [|a old']; [congruence|]. split.
      * apply Replace_match.
      * intros c Hc. apply Replace_no_match.
        destruct (HasPrefix (String c s) (String a old')) eqn:E;
          [|reflexivity].
        apply HasPrefix_iff in E as [rest E]. now destruct (Hc rest).
Qed.

Lemma parse_digits_bound (s : string) (acc n : N) :
  parse_digits s acc = Some n -> (acc <= maxUint64)%N -> (n <= maxUint64)%N.
Proof.
  revert acc; induction s as [|c s IH]; intros acc; simpl.
  - now intros [= <-].
  - destruct (digit_value c) as [d|]; [|discriminate].
    destruct (maxUint64 <? acc * 10 + d)%N eqn:E; [discriminate|].
    intros H _. apply (IH _ H). now apply N.ltb_ge in E.
Qed.

Lemma digits_free_of (c : ascii) (d : Decimal.uint) :
  digit_value c = None -> free_of c (NilEmpty.string_of_uint d) = true.
Proof.
  intros Hc. induction d; cbn [NilEmpty.string_of_uint free_of];
    try reflexivity; rewrite IHd, andb_true_r;
    apply negb_true_iff, Ascii.eqb_neq; intros <-; discriminate Hc.
Qed.

(** ** The server host *)

Lemma absent_free_of (c : ascii) (s : string) : absent c s = free_of c s.
Proof.
  unfold absent. induction s as [|b s IH]; [reflexivity|].
  cbn [index_byte free_of]. destruct (Ascii.eqb b c); [reflexivity|].
  simpl. rewrite <- IH. now destruct (index_byte c s).
Qed.

Lemma last_index_free (c : ascii) (s : string) :
  free_of c s = true -> last_index_byte c s = None.
Proof.
  induction s as [|b s IH]; [reflexivity|]. cbn [free_of last_index_byte].
  intros H. apply andb_true_iff in H as [Hb Hs].
  rewrite (IH Hs). apply negb_true_iff in Hb. now rewrite Hb.
Qed.

Lemma last_index_append (c : ascii) (a b : string) :
  free_of c b = true ->
  last_index_byte c (a ++ String c b) = Some (String.length a).
Proof.
  intros Hb. induction a as [|x a IH]; cbn [append last_index_byte].
  - now rewrite (last_index_free c b Hb), Ascii.eqb_refl.
  - now rewrite IH.
Qed.

Lemma substring_prefix (a b : string) :
  substring 0 (String.length a) (a ++ b) = a.
Proof.
  induction a as [|x a IH]; simpl; [now destruct b | now rewrite IH].
Qed.

Lemma drop_past (a : string) (c : ascii) (b : string) :
  drop (String.length a + 1) (a ++ String c b) = b.
Proof. induction a as [|x a IH]; simpl; [now destruct b | exact IH]. Qed.

Lemma free_of_substring (c : ascii) (s : string) (n m : nat) :
  free_of c s = true -> free_of c (substring n m s) = true.
Proof.
  revert n m; induction s as [|b s IH]; intros n m H.
  - now destruct n, m.
  - cbn [free_of] in H. apply andb_true_iff in H as [Hb Hs].
    destruct n as [|n]; [destruct m as [|m]|]; cbn [substring free_of];
      [reflexivity | rewrite Hb; now apply IH | now apply IH].
Qed.

Lemma free_of_before_index (c : ascii) (s : string) (e : nat) :
  index_byte c s = Some e -> free_of c (substring 0 e s) = true.
Proof.
  revert e; induction s as [|b s IH]; intros e; [discriminate|].
  cbn [index_byte]. destruct (Ascii.eqb b c) eqn:E.
  - now intros [= <-].
  - destruct (index_byte c s) as [e'|]; [|discriminate].
    intros [= <-]. cbn [substring free_of]. rewrite E. simpl. now apply IH.
Qed.

(** [net.SplitHostPort] on an address that does not open a bracket. *)
Lemma SplitHostPort_plain (hostport : string) :
  HasPrefix hostport "[" = false ->
  SplitHostPort hostport =
    match last_index_byte ":" hostport with
    | None => None
    | Some i =>
        if absent ":" (slice 0 i hostport) && absent "[" hostport &&
           absent "]" hostport
        then Some (slice 0 i hostport, drop (i + 1) hostport)
        else None
    end.
Proof.
  intros H. unfold SplitHostPort.
  destruct (last_index_byte ":" hostport) as [i|]; [|reflexivity].
  assert (forall (A : Type) (x y : A),
            match hostport with
            | String "[" _ => x
            | _ => y
            end = y) as Hm.
  { intros A x y. destruct hostport as [|c s]; [reflexivity|].
    destruct c as [[] [] [] [] [] [] [] []]; try reflexivity. discriminate H. }
  rewrite Hm. destruct (absent ":" (slice 0 i hostport)); [|reflexivity].
  cbn [drop andb]. reflexivity.
Qed.

(** [net.SplitHostPort] on an address that opens a bracket. *)
Lemma SplitHostPort_bracket (s : string) :
  SplitHostPort (String "[" s) =
    match last_index_byte ":" (String "[" s), index_byte "]" s with
    | Some i, Some e =>
        if Nat.eqb (S e + 1) (String.length (String "[" s)) then None
        else if Nat.eqb (S e + 1) i then
          if absent "[" s && absent "]" (drop (S e + 1) (String "[" s))
          then Some (substring 0 e s, drop (i + 1) (String "[" s))
          else None
        else None
    | _, _ => None
    end.
Proof.
  unfold SplitHostPort.
  destruct (last_index_byte ":" (String "[" s)) as [i|]; [|reflexivity].
  cbn [index_byte]. change (Ascii.eqb "[" "]") with false. cbn iota.
  destruct (index_byte "]" s) as [e|]; [|reflexivity].
  cbn [option_map].
  destruct (Nat.eqb (S e + 1) (String.length (String "[" s))); [reflexivity|].
  destruct (Nat.eqb (S e + 1) i); [|reflexivity].
  unfold slice. replace (S e - 1) with e by lia. reflexivity.
Qed.

(** A host that [net.SplitHostPort] returns holds no square bracket. *)
Lemma SplitHostPort_host (hostport host port : string) :
  SplitHostPort hostport = Some (host, port) ->
  free_of "[" host = true /\ free_of "]" host = true.
Proof.
  destruct (HasPrefix hostport "[") eqn:HP.
  - apply HasPrefix_iff in HP as [s ->]. cbn [append].
    rewrite SplitHostPort_bracket.
    destruct (last_index_byte ":" (String "[" s)) as [i|]; [|discriminate].
    destruct (index_byte "]" s) as [e|] eqn:Ee; [|discriminate].
    destruct (Nat.eqb (S e + 1) _); [discriminate|].
    destruct (Nat.eqb (S e + 1) i); [|discriminate].
    destruct (absent "[" s) eqn:Ea; [|discriminate].
    destruct (absent "]" _); [|discriminate].
    intros [= <- _]. rewrite absent_free_of in Ea. split.
    + now apply free_of_substring.
    + now apply free_of_before_index.
  - rewrite (SplitHostPort_plain _ HP).
    destruct (last_index_byte ":" hostport) as [i|]; [|discriminate].
    destruct (absent ":" _); [|discriminate].
    destruct (absent "[" hostport) eqn:E1; [|discriminate].
    destruct (absent "]" hostport) eqn:E2; [|discriminate].
    intros [= <- _]. rewrite absent_free_of in E1, E2.
    unfold slice. split; now apply free_of_substring.
Qed.

(** Name, colon and port are split where they were joined. *)
Lemma SplitHostPort_join (name port : string) :
  free_of ":" name = true -> free_of "[" name = true ->
  free_of "]" name = true ->
  free_of ":" port = true -> free_of "[" port = true ->
  free_of "]" port = true ->
  SplitHostPort (name ++ ":" ++ port) = Some (name, port).
Proof.
  intros Hn1 Hn2 Hn3 Hp1 Hp2 Hp3.
  rewrite SplitHostPort_plain.
  - cbn [append]. rewrite (last_index_append ":" name port Hp1).
    unfold slice. rewrite Nat.sub_0_r, substring_prefix, drop_past.
    rewrite !absent_free_of, !free_of_append. cbn [free_of].
    rewrite Hn1, Hn2, Hn3, Hp2, Hp3. reflexivity.
  - destruct name as [|c name]; [reflexivity|].
    cbn [free_of] in Hn2. apply andb_true_iff in Hn2 as [Hc _].
    apply negb_true_iff in Hc. cbn [append HasPrefix].
    rewrite Ascii.eqb_sym. now rewrite Hc.
Qed.

(** What [SetServerHost] can do to a session: leave it as it is (a
    server string without a colon always does), or store a host whose
    port fits 64 bits and whose name holds no square bracket; nothing
    else of the session changes. *)
Theorem SetServerHost_outcome (server : string) (p : Proxy) :
  (free_of ":" server = true -> SetServerHost server p = p) /\
  (SetServerHost server p = p \/
   exists name port,
     SetServerHost server p = with_sHost (mkHost name port) p /\
     (port <= 18446744073709551615)%N /\
     free_of "[" name = true /\ free_of "]" name = true).
Proof.
  unfold SetServerHost. split.
  - intros H. unfold SplitHostPort. now rewrite (last_index_free _ _ H).
  - destruct (SplitHostPort server) as [[name port]|] eqn:E; [|now left].
    destruct (ParseUint port) as [n|] eqn:En; [|now left].
    right. exists name, n. split; [reflexivity|].
    destruct (SplitHostPort_host _ _ _ E) as [H1 H2].
    repeat split; try assumption.
    unfold ParseUint in En. destruct port; [discriminate|].
    apply (parse_digits_bound _ _ _ En). unfold maxUint64. lia.
Qed.

(** The text that [SetlPayload] puts for [[host_port]] is a server string
    that [SetServerHost] reads back as the same host, for every host whose
    name holds no colon and no square bracket and whose port fits 64
    bits. *)
Theorem SetServerHost_reads_host_port (h : Host) (p : Proxy) :
  free_of ":" (HostName h) = true ->
  free_of "[" (HostName h) = true ->
  free_of "]" (HostName h) = true ->
  (Port h <= 18446744073709551615)%N ->
  SetServerHost (host_port h) p = with_sHost h p.
Proof.
  intros H1 H2 H3 Hport. unfold SetServerHost, host_port.
  rewrite SplitHostPort_join; try assumption;
    try (rewrite format_uint_digits; now apply digits_free_of).
  rewrite ParseUint_format_uint by exact Hport. now destruct h.
Qed.

(** ** Lines of a buffer *)

Lemma dropCR_free_of (c : ascii) (s : string) :
  free_of c s = true -> free_of c (dropCR s) = true.
Proof.
  induction s as [|b s IH]; [reflexivity|]. intros H.
  cbn [free_of] in H. apply andb_true_iff in H as [Hb Hs].
  destruct s as [|b' s].
  - simpl. destruct (Ascii.eqb b CR); [reflexivity|].
    cbn [free_of]. now rewrite Hb.
  - change (dropCR (String b (String b' s)))
      with (String b (dropCR (String b' s))).
    cbn [free_of]. rewrite Hb. now apply IH.
Qed.

Lemma dropCR_length (s : string) : String.length (dropCR s) <= String.length s.
Proof.
  induction s as [|b s IH]; [reflexivity|]. destruct s as [|b' s].
  - simpl. destruct (Ascii.eqb b CR); simpl; lia.
  - change (dropCR (String b (String b' s)))
      with (String b (dropCR (String b' s))).
    cbn [String.length] in *. lia.
Qed.

Lemma emit_line_fits (cur : string) (rest : list string) :
  (N.of_nat (String.length cur) < 65536)%N ->
  emit_line cur rest = dropCR cur :: rest.
Proof.
  intros H. unfold emit_line, MaxScanTokenSize.
  destruct (65536 <=? N.of_nat (String.length cur))%N eqn:E; [|reflexivity].
  apply N.leb_le in E. lia.
Qed.

(** A buffer below the token limit of the scanner yields a line unless it
    is empty. *)
Lemma lines_from_nonempty (s cur : string) :
  (N.of_nat (String.length cur + String.length s) < 65536)%N ->
  s <> EmptyString \/ cur <> EmptyString ->
  lines_from s cur <> [].
Proof.
  revert cur; induction s as [|c s IH]; intros cur Hlen Hne.
  - destruct Hne as [Hne | Hne]; [easy|].
    destruct cur as [|x cur]; [easy|]. cbn [lines_from].
    rewrite emit_line_fits; [discriminate|].
    cbn [String.length] in *. lia.
  - cbn [lines_from]. destruct (Ascii.eqb c LF).
    + rewrite emit_line_fits; [discriminate|]. lia.
    + apply IH.
      * rewrite length_append. cbn [String.length] in *. lia.
      * right. now destruct cur.
Qed.

Lemma scan_lines_nil_iff (connBuff : string) :
  (N.of_nat (String.length connBuff) < 65536)%N ->
  (scan_lines connBuff = [] <-> connBuff = EmptyString).
Proof.
  intros Hlen. split.
  - intros H. destruct connBuff as [|c s]; [reflexivity|]. exfalso.
    revert H. apply lines_from_nonempty; [exact Hlen | left; discriminate].
  - now intros ->.
Qed.

(** The lines the scanner delivers hold no line feed and are no longer
    than what was scanned. *)
Lemma lines_from_lines (s cur : string) :
  free_of LF cur = true ->
  Forall (fun l => free_of LF l = true /\
                   String.length l <= String.length cur + String.length s)
         (lines_from s cur).
Proof.
  revert cur; induction s as [|c s IH]; intros cur Hcur.
  - cbn [lines_from]. destruct cur as [|x cur]; [constructor|].
    unfold emit_line. destruct (_ <=? _)%N; constructor; [|constructor].
    split; [now apply dropCR_free_of|].
    pose proof (dropCR_length (String x cur)). lia.
  - cbn [lines_from]. destruct (Ascii.eqb c LF) eqn:Ec.
    + unfold emit_line. destruct (_ <=? _)%N; constructor.
      * split; [now apply dropCR_free_of|].
        pose proof (dropCR_length cur). lia.
      * specialize (IH EmptyString eq_refl).
        eapply Forall_impl; [|exact IH].
        intros l [H1 H2]. split; [exact H1|]. cbn [String.length] in *. lia.
    + assert (free_of LF (cur ++ String c EmptyString) = true) as Hc.
      { rewrite free_of_append, Hcur. cbn [free_of]. now rewrite Ec. }
      specialize (IH _ Hc). eapply Forall_impl; [|exact IH].
      intros l [H1 H2]. split; [exact H1|].
      rewrite length_append in H2. cbn [String.length] in *. lia.
Qed.

Lemma scan_lines_plain (connBuff : string) :
  (N.of_nat (String.length connBuff) < 65535)%N ->
  Forall plain_line (scan_lines connBuff).
Proof.
  intros Hlen. unfold scan_lines.
  eapply Forall_impl; [|apply (lines_from_lines connBuff EmptyString eq_refl)].
  intros l [H1 H2]. split; [exact H1|]. cbn [String.length] in H2. lia.
Qed.

(** In client mode, for a kind other than "ssh", the inbound hook puts the
    first buffer into a form it then leaves alone: the buffer it returns
    would be returned unchanged, and so is every buffer made of lines that
    end in CR LF. *)
Theorem inbound_reserialization_settles (p : Proxy) :
  serverProxyMode p = false ->
  rInitialized p = false ->
  proxyKind p <> "ssh" ->
  (forall connBuff p1 out,
     (N.of_nat (String.length connBuff) < 65535)%N ->
     handleInboundData p connBuff = Some (p1, out) ->
     handleInboundData p out = Some (p1, out)) /\
  (forall lines,
     lines <> [] -> Forall plain_line lines ->
     handleInboundData p (Join lines crlf ++ crlf)
     = Some (with_rInitialized true p, Join lines crlf ++ crlf)).
Proof.
  intros Hs Hr Hk.
  assert (forall first, inbound_first_line p first = first) as Hfirst.
  { intros first. unfold inbound_first_line.
    apply String.eqb_neq in Hk. now rewrite Hk, andb_false_r. }
  assert (forall lines,
            lines <> [] -> Forall plain_line lines ->
            handleInboundData p (Join lines crlf ++ crlf)
            = Some (with_rInitialized true p, Join lines crlf ++ crlf)) as Hcanon.
  { intros lines Hne Hall. unfold handleInboundData.
    rewrite Hr, Hs, (scan_lines_Join lines Hne Hall).
    destruct lines as [|first rest]; [easy|]. now rewrite Hfirst. }
  split; [|exact Hcanon].
  intros connBuff p1 out Hlen. unfold handleInboundData at 1. rewrite Hr, Hs.
  pose proof (scan_lines_plain connBuff Hlen) as Hall.
  destruct (scan_lines connBuff) as [|first rest]; [discriminate|].
  rewrite Hfirst. intros H. injection H as <- <-.
  apply (Hcanon (first :: rest)); [discriminate | exact Hall].
Qed.

(** ** Fields of a line *)

Lemma split_from_nonnil (sep s cur : string) (skip : nat) :
  exists a r, split_from sep s cur skip = a :: r.
Proof.
  revert cur skip; induction s as [|c s IH]; intros cur skip.
  - now exists cur, [].
  - cbn [split_from]. destruct skip as [|k]; [|apply IH].
    destruct (HasPrefix (String c s) sep); [|apply IH].
    now exists cur, (split_from sep s EmptyString (String.length sep - 1)).
Qed.

Lemma Split_without_sep (o : ascii) (sep' s : string) :
  Contains s (String o sep') = false -> Split s (String o sep') = [s].
Proof.
  unfold Split.
  assert (forall cur, Contains s (String o sep') = false ->
            split_from (String o sep') s cur 0 = [cur ++ s]) as H;
    [|apply (H EmptyString)].
  induction s as [|c s IH]; intros cur HC.
  - cbn [split_from]. now rewrite append_nil_r.
  - cbn [Contains] in HC. apply orb_false_iff in HC as [HP HC].
    cbn [split_from]. rewrite HP, (IH _ HC), append_assoc. reflexivity.
Qed.

Lemma Split_with_sep (o : ascii) (sep' s : string) :
  Contains s (String o sep') = true ->
  exists a b r, Split s (String o sep') = a :: b :: r.
Proof.
  unfold Split.
  assert (forall cur, Contains s (String o sep') = true ->
            exists a b r,
              split_from (String o sep') s cur 0 = a :: b :: r) as H;
    [|apply (H EmptyString)].
  induction s as [|c s IH]; intros cur HC; [discriminate|].
  cbn [Contains] in HC. cbn [split_from].
  destruct (HasPrefix (String c s) (String o sep')) eqn:HP.
  - destruct (split_from_nonnil (String o sep') s EmptyString
                (String.length (String o sep') - 1)) as [b [r ->]].
    now exists cur, b, r.
  - apply IH. exact HC.
Qed.

(** With the default buffer size the hooks panic on these first buffers
    and on no other: the inbound hook on the empty buffer; the outbound
    hook of client mode on the empty buffer for the kinds "ssh" and
    "trojan", and for "trojan" also on a first line without a space. *)
Theorem hooks_panic_exactly (p : Proxy) (connBuff : string) :
  (N.of_nat (String.length connBuff) < 65536)%N ->
  (rInitialized p = false ->
   (handleInboundData p connBuff = None <-> connBuff = EmptyString)) /\
  (serverProxyMode p = false -> lInitialized p = false ->
   (handleOutboundData p connBuff = None <->
    (proxyKind p = "ssh" /\ connBuff = EmptyString) \/
    (proxyKind p = "trojan" /\
     (connBuff = EmptyString \/
      exists first rest, scan_lines connBuff = first :: rest /\
                         Contains first " " = false)))).
Proof.
  intros Hlen. pose proof (scan_lines_nil_iff connBuff Hlen) as Hnil. split.
  - intros Hr. unfold handleInboundData. rewrite Hr.
    destruct (scan_lines connBuff) as [|first rest].
    + split; [intros _; now apply Hnil | reflexivity].
    + split; [discriminate|]. intros H. apply Hnil in H. discriminate H.
  - intros Hs Hl. unfold handleOutboundData, rewrite_ssh, rewrite_trojan.
    rewrite Hl, Hs.
    destruct (String.eqb_spec (proxyKind p) "ssh") as [Hk | Hk].
    + rewrite Hk. cbn [String.eqb Ascii.eqb Bool.eqb andb].
      destruct (scan_lines connBuff) as [|first rest].
      * split; [intros _; left; split; [reflexivity | now apply Hnil]|reflexivity].
      * split; [discriminate|].
        intros [[_ H] | [H _]]; [apply Hnil in H|]; discriminate H.
    + destruct (String.eqb_spec (proxyKind p) "trojan") as [Ht | Ht].
      * destruct (scan_lines connBuff) as [|first rest] eqn:El.
        -- split; [|reflexivity]. intros _. right. split; [exact Ht|].
           left. now apply Hnil.
        -- destruct (Contains first " ") eqn:EC.
           ++ destruct (Split_with_sep " " EmptyString first EC)
                as [a [b [r ->]]].
              split; [discriminate|].
              intros [[H _] | [_ [H | [f [r' [[= <- _] H]]]]]];
                [congruence | apply Hnil in H; discriminate H | congruence].
           ++ rewrite (Split_without_sep " " EmptyString first EC).
              split; [|reflexivity]. intros _. right. split; [exact Ht|].
              right. now exists first, rest.
      * destruct (scan_lines connBuff); (split; [discriminate|]);
          intros [[H _] | [H _]]; congruence.
Qed.

(** ** The front end *)

Lemma domain_loop_allows (host : string) (allowed : list string) :
  domain_loop host allowed true = false <-> In host allowed.
Proof.
  induction allowed as [|a rest IH]; cbn [domain_loop In].
  - split; [discriminate | easy].
  - destruct (String.eqb_spec host a) as [-> | Hne].
    + split; auto.
    + rewrite IH. split; [auto|]. intros [H | H]; [congruence | exact H].
Qed.

(** [mainHandler] hands a request to the proxy exactly when its [Upgrade]
    header is "websocket" in any case, the domain flag is not the
    asterisk, and [r.Host] is one of the comma-separated entries of the
    flag.  With the asterisk, the default of the flag, no request is
    served; with a flag that holds no comma, the host must be the flag. *)
Theorem mainHandler_serves_exactly (domain connUpgrade host : string) :
  (mainHandler domain connUpgrade host = ServeProxy <->
   isWebsocket connUpgrade = true /\ domain <> "*" /\
   In host (Split domain ",")) /\
  mainHandler "*" connUpgrade host <> ServeProxy /\
  (Contains domain "," = false -> domain <> "*" ->
   isWebsocket connUpgrade = true ->
   (mainHandler domain connUpgrade host = ServeProxy <-> host = domain)).
Proof.
  assert (mainHandler domain connUpgrade host = ServeProxy <->
          isWebsocket connUpgrade = true /\ domain <> "*" /\
          In host (Split domain ",")) as Hiff.
  { unfold mainHandler. destruct (isWebsocket connUpgrade); cbn [negb].
    2:{ split; [discriminate | now intros [? _]]. }
    destruct (String.eqb_spec domain "*") as [-> | Hne]; cbn [negb].
    - split; [discriminate | now intros (_ & H & _)].
    - destruct (domain_loop host (Split domain ",") true) eqn:E.
      + split; [discriminate|]. intros (_ & _ & Hin).
        apply domain_loop_allows in Hin. congruence.
      + apply domain_loop_allows in E. split; auto. }
  split; [exact Hiff|]. split.
  - unfold mainHandler. destruct (isWebsocket connUpgrade); discriminate.
  - intros Hc Hne Hup. rewrite Hiff, (Split_without_sep "," EmptyString _ Hc).
    cbn [In]. split.
    + intros (_ & _ & [H | []]). now symmetry.
    + intros ->. auto.
Qed.

(** The test of [isWebsocket] on an ASCII header value. *)
Lemma isWebsocket_ascii (connUpgrade : string) :
  isASCII connUpgrade = true ->
  (isWebsocket connUpgrade = true <->
   map_bytes lower_byte connUpgrade = "websocket").
Proof.
  intros H. unfold isWebsocket. rewrite (ToLower_ascii _ H).
  apply String.eqb_eq.
Qed.

(** ** The two upgrade tests *)

Lemma Contains_append_l (a b sub : string) :
  Contains a sub = true -> Contains (a ++ b) sub = true.
Proof.
  rewrite !Contains_iff. intros [x [y ->]]. exists x, (y ++ b).
  now rewrite !append_assoc.
Qed.

Lemma isASCII_append (a b : string) :
  isASCII (a ++ b) = isASCII a && isASCII b.
Proof.
  induction a as [|c a IH]; [reflexivity|]. cbn [append isASCII].
  now rewrite IH, andb_assoc.
Qed.

Lemma dropCR_prefix (s : string) : exists t, s = dropCR s ++ t.
Proof.
  induction s as [|c s [t IH]]; [now exists EmptyString|].
  destruct s as [|c' s].
  - simpl. destruct (Ascii.eqb c CR).
    + now exists (String c EmptyString).
    + now exists EmptyString.
  - exists t. change (dropCR (String c (String c' s)))
      with (String c (dropCR (String c' s))).
    cbn [append]. now rewrite <- IH.
Qed.

(** A line of the scan is a piece of what was scanned. *)
Lemma lines_from_substring (l s cur : string) :
  In l (lines_from s cur) -> exists x y, cur ++ s = x ++ l ++ y.
Proof.
  revert cur; induction s as [|c s IH]; intros cur.
  - cbn [lines_from]. destruct cur as [|a cur]; [easy|].
    unfold emit_line. destruct (_ <=? _)%N; [easy|].
    intros [<- | []]. destruct (dropCR_prefix (String a cur)) as [t Ht].
    exists EmptyString, t. now rewrite append_nil_r.
  - cbn [lines_from]. destruct (Ascii.eqb_spec c LF) as [-> | Hc].
    + unfold emit_line. destruct (_ <=? _)%N; [easy|].
      intros [<- | Hin].
      * destruct (dropCR_prefix cur) as [t Ht].
        exists EmptyString, (t ++ String LF s). cbn [append].
        now rewrite <- append_assoc, <- Ht.
      * destruct (IH _ Hin) as [x [y Hxy]]. cbn [append] in Hxy.
        exists (cur ++ String LF x), y.
        rewrite append_assoc. cbn [append]. now rewrite Hxy.
    + intros Hin. destruct (IH _ Hin) as [x [y Hxy]].
      exists x, y. rewrite <- Hxy, append_assoc. reflexivity.
Qed.

Lemma Contains_dropCR (s m : string) :
  m <> EmptyString -> free_of CR m = true ->
  Contains s m = true -> Contains (dropCR s) m = true.
Proof.
  intros Hm Hfree. induction s as [|c s IH]; [easy|].
  destruct s as [|c' s].
  - simpl. destruct m as [|a m]; [easy|]. cbn [HasPrefix].
    destruct (Ascii.eqb_spec c CR) as [-> | Hc]; [|easy].
    cbn [free_of] in Hfree. apply andb_true_iff in Hfree as [Ha _].
    apply negb_true_iff in Ha. rewrite Ha. simpl.
    destruct m; simpl; now rewrite ?andb_false_r.
  - change (dropCR (String c (String c' s)))
      with (String c (dropCR (String c' s))).
    cbn [Contains]. intros H. apply orb_true_iff in H as [HP | HC].
    + apply HasPrefix_iff in HP as [r Hr].
      destruct m as [|a m]; [easy|]. cbn [append] in Hr.
      injection Hr as -> Hr.
      assert (Contains (String c' s) m = true \/ m = EmptyString) as Hcase.
      { destruct m; [now right|]. left. apply Contains_iff.
        exists EmptyString, r. exact Hr. }
      apply orb_true_iff. left. apply HasPrefix_iff.
      cbn [free_of] in Hfree. apply andb_true_iff in Hfree as [_ Hfm].
      destruct m as [|b m].
      * exists (dropCR (String c' s)). reflexivity.
      * assert (HasPrefix (dropCR (String c' s)) (String b m) = true) as Hd.
        { clear IH Hcase Hm. revert Hr. generalize (String b m) Hfm.
          generalize (String c' s). clear.
          intros s m Hfm. revert s. induction m as [|x m IHm]; intros s Hr;
            [reflexivity|].
          destruct s as [|y s]; [discriminate|]. cbn [append] in Hr.
          injection Hr as -> Hr.
          cbn [free_of] in Hfm. apply andb_true_iff in Hfm as [Hx Hm].
          destruct s as [|z s].
          - destruct m; [|discriminate]. simpl.
            apply negb_true_iff in Hx. rewrite Hx. simpl.
            now rewrite Ascii.eqb_refl.
          - change (dropCR (String x (String z s)))
              with (String x (dropCR (String z s))).
            cbn [HasPrefix]. rewrite Ascii.eqb_refl. now apply IHm. }
        apply HasPrefix_iff in Hd as [r' Hr']. exists r'.
        cbn [append]. now rewrite Hr'.
    + apply orb_true_iff. right. now apply IH.
Qed.

Lemma append_split (a b c d : string) :
  a ++ b = c ++ d ->
  (exists e, a = c ++ e /\ d = e ++ b) \/ (exists e, c = a ++ e /\ b = e ++ d).
Proof.
  revert c; induction a as [|x a IH]; intros c H.
  - right. exists c. split; [reflexivity | exact H].
  - destruct c as [|y c].
    + left. exists (String x a). split; [reflexivity | now symmetry].
    + cbn [append] in H. injection H as -> H.
      destruct (IH c H) as [[e [-> ->]] | [e [-> ->]]]; [left | right];
        now exists e.
Qed.

(** An occurrence of a text without line feed lies before a line feed or
    after it. *)
Lemma Contains_across_LF (cur s m : string) :
  free_of LF m = true ->
  Contains (cur ++ String LF s) m = true ->
  Contains cur m = true \/ Contains s m = true.
Proof.
  intros Hfree H. apply Contains_iff in H as [x [y H]].
  apply append_split in H as [[e [-> H]] | [e [-> H]]].
  - (* the occurrence starts inside [cur] *)
    symmetry in H. apply append_split in H as [[e' [-> H]] | [e' [-> H]]].
    + left. apply Contains_iff. now exists x, e'.
    + destruct e' as [|z e'].
      * left. apply Contains_iff. exists x, EmptyString.
        now rewrite !append_nil_r.
      * (* [m] would hold the line feed *)
        exfalso. cbn [append] in H. injection H as <- _.
        rewrite free_of_append in Hfree. cbn [free_of] in Hfree.
        rewrite Ascii.eqb_refl in Hfree. simpl in Hfree.
        now rewrite andb_false_r in Hfree.
  - (* the occurrence starts at the line feed or after it *)
    destruct e as [|z e].
    + cbn [append] in H. destruct m as [|a m].
      * left. apply Contains_iff. exists cur, EmptyString.
        now rewrite !append_nil_r.
      * cbn [append] in H. injection H as <- _.
        cbn [free_of] in Hfree. now rewrite Ascii.eqb_refl in Hfree.
    + cbn [append] in H. injection H as _ H.
      right. apply Contains_iff. now exists e, y.
Qed.

(** A text without line feed or carriage return that occurs in a buffer
    below the token limit occurs in one of its lines. *)
Lemma Contains_in_line (m : string) :
  m <> EmptyString -> free_of LF m = true -> free_of CR m = true ->
  forall s cur,
  (N.of_nat (String.length cur + String.length s) < 65536)%N ->
  Contains (cur ++ s) m = true ->
  exists l, In l (lines_from s cur) /\ Contains l m = true.
Proof.
  intros Hm Hlf Hcr. induction s as [|c s IH]; intros cur Hlen HC.
  - rewrite append_nil_r in HC. cbn [lines_from].
    destruct cur as [|a cur]; [destruct m; [easy | discriminate]|].
    rewrite emit_line_fits by (cbn [String.length] in *; lia).
    exists (dropCR (String a cur)). split; [now left|].
    now apply Contains_dropCR.
  - cbn [lines_from]. destruct (Ascii.eqb_spec c LF) as [-> | Hc].
    + rewrite emit_line_fits by lia.
      apply Contains_across_LF in HC as [HC | HC]; [| |exact Hlf].
      * exists (dropCR cur). split; [now left|]. now apply Contains_dropCR.
      * destruct (IH EmptyString) as [l [Hin Hl]];
          [cbn [String.length] in *; lia | exact HC |].
        exists l. split; [now right | exact Hl].
    + apply IH.
      * rewrite length_append. cbn [String.length] in *. lia.
      * now rewrite append_assoc.
Qed.

Lemma free_of_lowered (k : ascii) (m : string) :
  lower_byte k = k ->
  free_of k (map_bytes lower_byte m) = true -> free_of k m = true.
Proof.
  intros Hk. induction m as [|c m IH]; [reflexivity|].
  cbn [map_bytes free_of]. intros H. apply andb_true_iff in H as [Hc Hm].
  rewrite (IH Hm), andb_true_r.
  apply negb_true_iff, Ascii.eqb_neq. intros ->.
  rewrite Hk, Ascii.eqb_refl in Hc. discriminate.
Qed.

(** On an ASCII buffer below the token limit of the scanner the test of
    pkg/proxy, line by line, and the test of the root package, on the
    whole buffer, find the upgrade header in the same buffers. *)
Lemma doUpgrade_whole_buffer (connBuff : string) :
  isASCII connBuff = true ->
  (N.of_nat (String.length connBuff) < 65536)%N ->
  doUpgrade (scan_lines connBuff)
  = Contains (ToLower connBuff) "upgrade: websocket".
Proof.
  intros Hascii Hlen. unfold doUpgrade, scan_lines.
  destruct (Contains (ToLower connBuff) "upgrade: websocket") eqn:EC.
  - (* found in the buffer: found in a line *)
    rewrite (ToLower_ascii _ Hascii) in EC.
    apply Contains_iff in EC as [a' [b' H]].
    destruct (map_bytes_split _ _ _ _ H) as [x [r [-> [_ Hr]]]].
    destruct (map_bytes_split _ _ _ _ Hr) as [m [y [-> [Hm _]]]].
    destruct (Contains_in_line m) with (s := x ++ m ++ y) (cur := EmptyString)
      as [l [Hin Hl]].
    + intros ->. discriminate Hm.
    + apply free_of_lowered; [reflexivity | now rewrite Hm].
    + apply free_of_lowered; [reflexivity | now rewrite Hm].
    + exact Hlen.
    + apply Contains_iff. now exists x, y.
    + apply existsb_exists. exists l. split; [exact Hin|].
      destruct (lines_from_substring _ _ _ Hin) as [u [v Huv]].
      cbn [append] in Huv. rewrite Huv in Hascii.
      rewrite !isASCII_append in Hascii.
      apply andb_true_iff in Hascii as [_ Hascii].
      apply andb_true_iff in Hascii as [Hl' _].
      apply is_upgrade_line_ascii; [exact Hl'|].
      apply Contains_iff in Hl as [u' [v' ->]]. now exists u', m, v'.
  - (* found in a line: found in the buffer *)
    apply not_true_is_false. intros H. apply existsb_exists in H as [l [Hin Hl]].
    destruct (lines_from_substring _ _ _ Hin) as [u [v Huv]].
    cbn [append] in Huv.
    assert (isASCII l = true) as Hl'.
    { rewrite Huv, !isASCII_append in Hascii.
      apply andb_true_iff in Hascii as [_ Hascii].
      now apply andb_true_iff in Hascii as [? _]. }
    unfold is_upgrade_line in Hl. rewrite (ToLower_ascii _ Hl') in Hl.
    rewrite (ToLower_ascii _ Hascii), Huv, !map_bytes_append in EC.
    rewrite Contains_append_r in EC; [discriminate|].
    now apply Contains_append_l.
Qed.

(** The outbound hooks of pkg/proxy and of the root package leave a
    server-mode session in the same state after the same first buffer, for
    ASCII buffers below the token limit of the scanner: they set the
    upgrade flag for the same requests and differ only in the text of the
    response. *)
Theorem server_hooks_agree_on_upgrade (p : Proxy) (connBuff : string) :
  serverProxyMode p = true ->
  isASCII connBuff = true ->
  (N.of_nat (String.length connBuff) < 65536)%N ->
  option_map fst (handleOutboundData p connBuff)
  = option_map fst (legacy_handleOutboundData p connBuff) /\
  (lInitialized p = false -> wsUpgradeInitialized p = false ->
   option_map (fun r => wsUpgradeInitialized (fst r))
     (handleOutboundData p connBuff)
   = Some (Contains (map_bytes lower_byte connBuff) "upgrade: websocket")).
Proof.
  intros Hs Hascii Hlen.
  pose proof (doUpgrade_whole_buffer connBuff Hascii Hlen) as Hup.
  unfold handleOutboundData, legacy_handleOutboundData. rewrite Hs, Hup.
  split.
  - destruct (lInitialized p); [reflexivity|].
    destruct (Contains (ToLower connBuff) "upgrade: websocket"); reflexivity.
  - intros -> Hw. rewrite (ToLower_ascii _ Hascii).
    destruct (Contains (map_bytes lower_byte connBuff) "upgrade: websocket");
      [reflexivity | simpl; now rewrite Hw].
Qed.

(** ** Who reads which stream *)

Lemma map_direction_update (before after new : list Task) (t t' : Task) :
  direction t' = direction t ->
  map direction (before ++ t' :: after ++ new)
  = (map direction (before ++ t :: after) ++ map direction new)%list.
Proof.
  intros H. rewrite !map_app. cbn [map]. rewrite H, map_app.
  rewrite <- !app_assoc. reflexivity.
Qed.

Lemma task_step_direction p t p' t' new sent panic :
  task_step p t p' t' new sent panic -> direction t' = direction t.
Proof. now destruct 1. Qed.

Lemma task_step_new p t p' t' new sent panic :
  task_step p t p' t' new sent panic ->
  wsUpgradeInitialized p = false ->
  lConn p' = lConn p /\ serverProxyMode p' = serverProxyMode p /\
  (new = [] \/
   (serverProxyMode p = true /\ lInitialized p = false /\
    lInitialized p' = true /\
    map direction new = [(t_dst t, t_src t)])).
Proof.
  destruct 1 as
    [q src dst Hfit | q src dst Hbig
       | q src dst rd wr q' effects o Hit | q src dst rd wr Hit
     | q src dst | q src dst Hcap | q src dst]; intros Hw;
    try (repeat split; auto; fail).
  destruct (forward_iteration_frame _ _ _ _ _ _ _ _ Hit Hw)
    as (_ & _ & _ & Hs & _ & Hsp).
  destruct (forward_iteration_counters _ _ _ _ _ _ _ _ Hit) as (Hl & _).
  split; [exact Hl|]. split; [exact Hs|].
  destruct Hsp as [[-> _] | (H1 & H2 & H3 & ->)]; [now left|].
  right. repeat split; assumption.
Qed.

Lemma directions_invariant (p : Proxy) (w : World) :
  ready p -> lConn p = AcceptedConn ->
  reaches (initial p) w ->
  lConn (px w) = AcceptedConn /\
  outbound_then_inbound (tasks w) /\
  (start w = AtGoInbound -> tasks w <> []) /\
  (serverProxyMode (px w) = true -> lInitialized (px w) = false ->
   length (tasks w) <= 1).
Proof.
  intros Hp Hl Hreach. induction Hreach as [|w1 w2 Hr IH Hstep].
  - unfold outbound_then_inbound. simpl. repeat split; auto; discriminate.
  - destruct IH as (IHl & IHd & IHne & IHone).
    destruct (reaches_invariant p w1 Hp Hr) as (_ & Hw & Hlen & _).
    destruct Hstep as
      [w1 w2 H | q st before t after s r lc rc q' t' new sent panic H].
    + destruct H; simpl in *; unfold outbound_then_inbound in *.
      * (* dial fails *)
        split; [exact IHl|]. split; [exact IHd|].
        split; [discriminate | exact IHone].
      * (* dial succeeds *)
        split; [exact IHl|]. split; [exact IHd|].
        split; [discriminate | exact IHone].
      * (* go outbound *)
        assert (ts = []) as -> by (destruct ts; [easy | simpl in Hlen; lia]).
        simpl. rewrite IHl. split; [reflexivity|].
        split; [right; left; reflexivity|].
        split; [discriminate | intros; lia].
      * (* go inbound *)
        destruct (serverProxyMode p0) eqn:Es.
        -- split; [exact IHl|]. split; [exact IHd|].
           split; [discriminate | exact IHone].
        -- simpl in Hlen. specialize (IHne eq_refl).
           destruct ts as [|t0 [|t1 ts]]; [easy | | simpl in Hlen; lia].
           simpl in *. rewrite IHl.
           destruct IHd as [Hd | [Hd | Hd]]; try discriminate.
           assert (direction t0 = (AcceptedConn, DialedConn)) as Hd'
             by (injection Hd; unfold direction; congruence).
           rewrite Hd'.
           split; [reflexivity|]. split; [right; right; reflexivity|].
           split; [discriminate | intros; discriminate].
      * (* receive *)
        split; [exact IHl|]. split; [exact IHd|].
        split; [discriminate | exact IHone].
      * (* close remote *)
        split; [exact IHl|]. split; [exact IHd|].
        split; [discriminate | exact IHone].
      * (* close local *)
        split; [exact IHl|]. split; [exact IHd|].
        split; [discriminate | exact IHone].
    + simpl in *.
      destruct (task_step_new _ _ _ _ _ _ _ H Hw) as (Hl' & Hs' & Hnew).
      pose proof (task_step_direction _ _ _ _ _ _ _ H) as Hdir.
      rewrite Hl', Hs'. split; [exact IHl|].
      unfold outbound_then_inbound in *.
      rewrite (map_direction_update before after new t t' Hdir).
      destruct Hnew as [-> | (Es & El & El' & Hn)].
      * simpl. rewrite !app_nil_r, !length_app. simpl length.
        rewrite length_app in IHone. simpl length in IHone.
        split; [exact IHd|]. split.
        -- intros _. now destruct before.
        -- intros Es El. apply IHone; [exact Es|].
           destruct (lInitialized q) eqn:E; [|reflexivity].
           destruct (step_keeps_latches _ _
                       (step_task q st before t after s r lc rc q' t' []
                          sent panic H)) as [Hk _].
           simpl in Hk. rewrite (Hk E) in El. discriminate.
      * rewrite Hn. specialize (IHone Es El).
        rewrite length_app in IHone. simpl length in IHone.
        assert (before = [] /\ after = []) as [-> ->].
        { destruct before, after; simpl in IHone; try lia. auto. }
        simpl in *. destruct IHd as [Hd | [Hd | Hd]]; try discriminate.
        assert (t_src t = AcceptedConn /\ t_dst t = DialedConn) as [E1 E2]
          by (injection Hd; unfold direction; intros; split; congruence).
        unfold direction. rewrite E1, E2.
        split; [right; right; reflexivity|].
        split; [discriminate|].
        intros _ E. rewrite El' in E. discriminate.
Qed.

(** With the accepted stream as local stream, a session has at most one
    goroutine per direction, started in the order outbound, inbound: no
    stream is read by two goroutines, and the stream a goroutine reads is
    not the one it forwards to.  An iteration that read a buffer writes
    once, to the destination; the exception is the iteration of the
    re-link, in server mode, whose one write, the response to the upgrade,
    goes to the stream the goroutine reads and is followed by the start of
    the reverse goroutine. *)
Theorem one_reader_per_stream (p : Proxy) (w : World) :
  ready p -> lConn p = AcceptedConn ->
  reaches (initial p) w ->
  NoDup (map t_src (tasks w)) /\
  (forall t, In t (tasks w) -> t_src t <> t_dst t) /\
  (forall q src dst rd wr q' effects o,
     forward_iteration q src dst rd wr = Some (q', effects, o) ->
     (rd = None /\ effects = []) \/
     (exists buff, effects = [EWrite dst buff]) \/
     (exists buff, effects = [EWrite src buff; ESpawn dst src] /\
                   serverProxyMode q' = true)).
Proof.
  intros Hp Hl Hreach.
  assert (forall q src dst rd wr q' effects o,
     forward_iteration q src dst rd wr = Some (q', effects, o) ->
     (rd = None /\ effects = []) \/
     (exists buff, effects = [EWrite dst buff]) \/
     (exists buff, effects = [EWrite src buff; ESpawn dst src] /\
                   serverProxyMode q' = true)) as Hwrites.
  { intros q src dst [b|] wr q' effects o; simpl.
    2:{ intros [= <- <- _]. now left. }
    unfold forward_body, forward_body_with.
    destruct (if Conn_eqb src (lConn q) then handleOutboundData q b
              else handleInboundData q b) as [[p1 buff]|]; [|discriminate].
    destruct (serverProxyMode p1) eqn:Es; simpl.
    - destruct (wsUpgradeInitialized p1);
        destruct (write_failed wr); intros [= <- <- _]; right;
        try (left; now exists buff);
        right; exists buff; (split; [reflexivity|]);
        destruct (Conn_eqb src (lConn q)); exact Es.
    - destruct (write_failed wr); intros [= <- <- _]; right; left;
        now exists buff. }
  assert (NoDup (map t_src (tasks w)) /\
          (forall t, In t (tasks w) -> t_src t <> t_dst t)) as [H1 H2];
    [|split; [exact H1 | split; [exact H2 | exact Hwrites]]].
  clear Hwrites.
  destruct (directions_invariant p w Hp Hl Hreach) as (_ & Hd & _).
  unfold outbound_then_inbound in Hd.
  destruct (tasks w) as [|[s0 d0 c0] [|[s1 d1 c1] [|t2 ts]]]; simpl in *.
  - split; [constructor | easy].
  - destruct Hd as [Hd | [Hd | Hd]]; try discriminate.
    injection Hd as -> ->. split.
    + repeat constructor. easy.
    + intros t [<- | []]. discriminate.
  - destruct Hd as [Hd | [Hd | Hd]]; try discriminate.
    injection Hd as -> -> -> ->. split.
    + repeat constructor; simpl; intuition discriminate.
    + intros t [<- | [<- | []]]; discriminate.
  - destruct Hd as [Hd | [Hd | Hd]]; discriminate.
Qed.

(** In server mode nothing reads the remote stream before the first local
    buffer was handled: until then the outbound goroutine is the only
    one. *)
Theorem server_mode_opens_return_path_late (p : Proxy) (w : World) :
  ready p -> lConn p = AcceptedConn ->
  serverProxyMode p = true ->
  reaches (initial p) w ->
  lInitialized (px w) = false ->
  forall t, In t (tasks w) ->
    t_src t = AcceptedConn /\ t_dst t = DialedConn.
Proof.
  intros Hp Hl Hs Hreach Hlinit t Hin.
  destruct (directions_invariant p w Hp Hl Hreach) as (_ & Hd & _ & Hone).
  pose proof (reaches_config (initial p) w Hreach) as Hcfg.
  assert (serverProxyMode (px w) = true) as Hs'.
  { unfold same_config in Hcfg. simpl in Hcfg. decompose [and] Hcfg.
    congruence. }
  specialize (Hone Hs' Hlinit). unfold outbound_then_inbound in Hd.
  destruct (tasks w) as [|[s0 d0 c0] [|t1 ts]]; simpl in *;
    [easy | | lia].
  destruct Hin as [<- | []].
  destruct Hd as [Hd | [Hd | Hd]]; try discriminate.
  now injection Hd as -> ->.
Qed.

(** ** The outbound stream of a server-mode session *)

(** In server mode an upgrade request is answered, not forwarded: the
    response goes back on the local stream, the reverse goroutine is
    started, and the remote stream receives the buffers that follow the
    request and nothing of the request.  A first buffer without the
    header is forwarded as it is, with all that follows. *)
Theorem server_outbound_stream (p : Proxy) (dst : Conn) (request : string)
    (later : list string) (n : N) :
  serverProxyMode p = true ->
  lInitialized p = false ->
  wsUpgradeInitialized p = false ->
  if doUpgrade (scan_lines request)
  then exists p',
         handleForwardData p (lConn p) dst
           ((Some request, mkWrite n false) :: faultless later)
         = Some (p', EWrite (lConn p) upgrade_response ::
                     ESpawn dst (lConn p) :: map (EWrite dst) later,
                 Continue)
  else exists p',
         handleForwardData p (lConn p) dst (faultless (request :: later))
         = Some (p', map (EWrite dst) (request :: later), Continue).
Proof.
  intros Hs Hl Hw. destruct (doUpgrade (scan_lines request)) eqn:Hup.
  - destruct (forward_body_relink p dst request (mkWrite n false) Hs Hl Hup)
      as [p1 (Hbody & Hw1 & Hl1 & _)].
    assert (lConn p1 = lConn p) as Hc.
    { apply (forward_iteration_counters p (lConn p) dst (Some request)
               (mkWrite n false) p1 _ _ Hbody). }
    destruct (handleForwardData_latched later p1 (lConn p) dst Hw1)
      as [p' Hp'].
    { now rewrite Hc, Conn_eqb_refl. }
    exists p'. cbn [handleForwardData forward_iteration].
    cbn [write_failed] in Hbody. rewrite Hbody, Hp'. reflexivity.
  - set (wr := mkWrite (N.of_nat (String.length request)) false).
    assert (forward_body p (lConn p) dst request wr
            = Some (with_bytesSent (add_uint64 (bytesSent p) (written wr))
                      (with_lInitialized true p),
                    [EWrite dst request], Continue)) as Hbody.
    { unfold forward_body, forward_body_with, handleOutboundData.
      rewrite Conn_eqb_refl, Hl, Hs, Hup. simpl.
      rewrite Hw, andb_false_r. reflexivity. }
    set (p1 := with_bytesSent _ _) in Hbody.
    destruct (handleForwardData_latched later p1 (lConn p) dst) as [p' Hp'].
    { exact Hw. }
    { change (lConn p1) with (lConn p). now rewrite Conn_eqb_refl. }
    exists p'. cbn [faultless map handleForwardData forward_iteration].
    fold wr. rewrite Hbody. fold (faultless later). rewrite Hp'. reflexivity.
Qed.

(** ** Two runs of any session *)

Lemma outbound_step (p q q' : Proxy) (st : StartPc) (pc pc' : TaskPc)
    (sent s r lc rc : nat) :
  task_step q (mkTask (lConn p) DialedConn pc) q'
            (mkTask (lConn p) DialedConn pc') [] sent false ->
  step (mkWorld q st (with_outbound_at p pc) s r lc rc false)
       (mkWorld q' st (with_outbound_at p pc') (sent + s) r lc rc false).
Proof.
  intros H. unfold with_outbound_at. destruct (serverProxyMode p).
  - exact (step_task q st [] _ [] s r lc rc q' _ [] sent false H).
  - exact (step_task q st [] _ [mkTask DialedConn (lConn p) Entry]
             s r lc rc q' _ [] sent false H).
Qed.

(** The outbound goroutine fails first and goes through [err]. *)
Lemma outbound_failure_run (p : Proxy) :
  ready p -> (buffSize p <= maxAlloc)%N ->
  reaches (initial p) (outbound_failed p).
Proof.
  intros (He & Hsig & Hr & Hw) Hfit. unfold outbound_failed.
  set (p1 := with_rConn (Some DialedConn) p).
  apply reaches_first with (mkWorld p1 AtGoOutbound [] 0 0 0 0 false).
  { apply step_start, dial_succeeds. }
  apply reaches_first
    with (mkWorld p1 AtGoInbound [mkTask (lConn p) DialedConn Entry]
            0 0 0 0 false).
  { apply step_start, (go_outbound p1 []). }
  apply reaches_first
    with (mkWorld p1 AtReceive (with_outbound_at p Entry) 0 0 0 0 false).
  { apply step_start.
    exact (go_inbound p1 [mkTask (lConn p) DialedConn Entry] 0 0 0 0). }
  apply reaches_first
    with (mkWorld p1 AtReceive (with_outbound_at p InLoop) 0 0 0 0 false).
  { apply (outbound_step p p1 p1 AtReceive Entry InLoop 0).
    apply (entry_allocates p1 (lConn p) DialedConn). exact Hfit. }
  apply reaches_first
    with (mkWorld p1 AtReceive (with_outbound_at p ErrTest) 0 0 0 0 false).
  { apply (outbound_step p p1 p1 AtReceive InLoop ErrTest 0).
    now apply (iteration p1 (lConn p) DialedConn None (mkWrite 0 false)
                 p1 [] CallErr). }
  apply reaches_first
    with (mkWorld p1 AtReceive (with_outbound_at p ErrSend) 0 0 0 0 false).
  { apply (outbound_step p p1 p1 AtReceive ErrTest ErrSend 0).
    pose proof (err_test p1 (lConn p) DialedConn) as H.
    change (erred p1) with (erred p) in H. rewrite He in H. exact H. }
  apply reaches_first
    with (mkWorld (with_errSig 1 p1) AtReceive (with_outbound_at p ErrMark)
            1 0 0 0 false).
  { apply (outbound_step p p1 (with_errSig 1 p1) AtReceive ErrSend ErrMark 1).
    pose proof (err_send p1 (lConn p) DialedConn) as H.
    change (errSig p1) with (errSig p) in H. rewrite Hsig in H.
    apply H. unfold errSigCap. lia. }
  apply reaches_first
    with (mkWorld (with_erred true (with_errSig 1 p1)) AtReceive
            (with_outbound_at p Finished) 1 0 0 0 false).
  { apply (outbound_step p (with_errSig 1 p1)
             (with_erred true (with_errSig 1 p1)) AtReceive ErrMark Finished 0).
    apply err_mark. }
  apply reaches_refl.
Qed.

(** [Start] receives the signal of that failure and returns. *)
Lemma start_returns_run (p : Proxy) :
  reaches (outbound_failed p) (start_returned p).
Proof.
  unfold outbound_failed, start_returned.
  set (q := with_erred true (with_errSig 1 (with_rConn (Some DialedConn) p))).
  apply reaches_first
    with (mkWorld (with_errSig 0 q) AtCloseRemote
            (with_outbound_at p Finished) 1 1 0 0 false).
  { apply step_start.
    apply (receive q (with_outbound_at p Finished) 1 0 0 0). simpl. lia. }
  apply reaches_first
    with (mkWorld (with_errSig 0 q) AtCloseLocal
            (with_outbound_at p Finished) 1 1 0 1 false).
  { apply step_start, close_remote. }
  apply reaches_first
    with (mkWorld (with_errSig 0 q) Returned
            (with_outbound_at p Finished) 1 1 1 1 false).
  { apply step_start, close_local. }
  apply reaches_refl.
Qed.

Lemma reaches_trans (w1 w2 w3 : World) :
  reaches w1 w2 -> reaches w2 w3 -> reaches w1 w3.
Proof.
  intros H12 H23. induction H23 as [|w3 w4 _ IH Hs]; [exact H12|].
  now apply (reaches_step w1 w3 w4).
Qed.

End Hooks.

(** * Runs on concrete sessions *)

Lemma dial_failure_run :
  reaches no_case_tables maxAlloc_amd64 (initial example_session) dial_failed_world.
Proof.
  apply reaches_first
    with (mkWorld example_session AtCloseLocal [] 0 0 0 0 false).
  { apply step_start, dial_fails. }
  apply reaches_first with dial_failed_world.
  { apply step_start, close_local. }
  apply reaches_refl.
Qed.

Lemma example_session_ready : ready example_session.
Proof. repeat split. Qed.

Lemma example_session_fits : (buffSize example_session <= maxAlloc_amd64)%N.
Proof. discriminate. Qed.

(** On the exit path of a failed dial [Start] has not received the signal
    and the remote stream was not closed; and when both goroutines of a
    client session fail at once the signal is sent twice.  The property as
    the specification words it holds in neither world. *)
Lemma termination_not_exactly_once :
  (reaches no_case_tables maxAlloc_amd64 (initial example_session) dial_failed_world /\
   start dial_failed_world = Returned /\
   recvs dial_failed_world = 0 /\ rclosed dial_failed_world = 0 /\
   ~ spec_exactly_once dial_failed_world) /\
  (reaches no_case_tables maxAlloc_amd64 (initial example_session)
     (twice_sent example_session) /\
   sends (twice_sent example_session) = 2 /\
   ~ spec_exactly_once (twice_sent example_session)).
Proof.
  split.
  - split; [exact dial_failure_run|]. repeat split.
    intros [_ H]. destruct (H eq_refl) as [Hr _]. discriminate Hr.
  - split; [|split; [reflexivity|]].
    + exact (err_latch_race no_case_tables maxAlloc_amd64 example_session
               example_session_ready eq_refl example_session_fits).
    + intros [H _]. simpl in H. lia.
Qed.

Lemma session_termination_witness :
  ready example_session /\
  reaches no_case_tables maxAlloc_amd64 (initial example_session) dial_failed_world /\
  lclosed dial_failed_world = 1 /\ recvs dial_failed_world <= 1.
Proof.
  pose proof (session_termination no_case_tables maxAlloc_amd64 example_session
                dial_failed_world example_session_ready dial_failure_run)
    as (Hr & _ & _ & Hret & _).
  split; [exact example_session_ready|].
  split; [exact dial_failure_run|].
  split; [exact (proj1 (Hret eq_refl)) | exact Hr].
Defined.

(** The upgrade request of the example is answered on the accepted stream;
    nothing is written to the dialed one, where the specification's
    wording sends the response. *)
Lemma relink_writes_to_source :
  option_map (fun r => snd (fst r))
    (forward_body no_case_tables example_server AcceptedConn DialedConn
       upgrade_request (mkWrite 77 false))
  = Some [EWrite AcceptedConn upgrade_response;
          ESpawn DialedConn AcceptedConn] /\
  [EWrite AcceptedConn upgrade_response; ESpawn DialedConn AcceptedConn]
  <> spec_relink_effects AcceptedConn DialedConn upgrade_response.
Proof. split; [reflexivity | discriminate]. Qed.

Lemma upgrade_relink_answers_source_witness :
  serverProxyMode example_server = true /\
  lInitialized example_server = false /\
  doUpgrade no_case_tables (scan_lines upgrade_request) = true /\
  exists p',
    forward_body no_case_tables example_server AcceptedConn DialedConn
      upgrade_request (mkWrite 77 false) =
      Some (p', [EWrite AcceptedConn upgrade_response;
                 ESpawn DialedConn AcceptedConn], Continue) /\
    wsUpgradeInitialized p' = false.
Proof.
  destruct (upgrade_relink_answers_source no_case_tables example_server
              DialedConn upgrade_request (mkWrite 77 false) eq_refl eq_refl)
    as [H _].
  destruct (H eq_refl) as [p' (Hbody & Hw & _)].
  split; [reflexivity|]. split; [reflexivity|]. split; [reflexivity|].
  exists p'. split; [exact Hbody | exact Hw].
Defined.

Lemma server_upgrade_detection_witness :
  serverProxyMode example_server = true /\
  lInitialized example_server = false /\
  wsUpgradeInitialized example_server = false /\
  isASCII accented_upgrade_request = false /\
  exists p',
    handleOutboundData no_case_tables example_server accented_upgrade_request
    = Some (p', "HTTP/1.1 101 Switching Protocols" ++ crlf ++
                "Upgrade: websocket" ++ crlf ++
                "Connection: Upgrade" ++ crlf ++ crlf) /\
    wsUpgradeInitialized p' = true /\ lInitialized p' = true.
Proof.
  split; [reflexivity|]. split; [reflexivity|]. split; [reflexivity|].
  split; [reflexivity|].
  destruct (proj1 (server_upgrade_detection no_case_tables example_server
                     accented_upgrade_request eq_refl eq_refl))
    as [p' (Hrun & Hl & Hw & _)].
  exists p'. split; [exact Hrun|]. split; [exact Hw | exact Hl].
Defined.

(** With the instance of the examples the Kelvin sign is lower-cased to k,
    as [strings.ToLower] does, and the header is found. *)
Lemma kelvin_sign_upgrade :
  is_upgrade_line no_case_tables
    ("UPGRADE: WEBSOC" ++ kelvin_sign ++ "ET") = true /\
  ToLower no_case_tables ("Caf" ++ e_acute ++ " K") = "caf" ++ e_acute ++ " k".
Proof. split; reflexivity. Qed.

Lemma ssh_connect_rewrite_witness :
  serverProxyMode example_ssh = false /\
  lInitialized example_ssh = false /\
  proxyKind example_ssh = "ssh" /\
  scan_lines ("CONNECT anything HTTP/1.1" ++ crlf ++ crlf)
    = ["CONNECT anything HTTP/1.1"; EmptyString] /\
  handleOutboundData no_case_tables example_ssh
    ("CONNECT anything HTTP/1.1" ++ crlf ++ crlf)
  = Some (with_lInitialized true example_ssh,
          "CONNECT example.com:22 HTTP/1.1" ++ crlf ++ crlf).
Proof.
  split; [reflexivity|]. split; [reflexivity|]. split; [reflexivity|]. split; [reflexivity|].
  exact (proj1 (ssh_connect_rewrite no_case_tables) example_ssh
           ("CONNECT anything HTTP/1.1" ++ crlf ++ crlf)
           "CONNECT anything HTTP/1.1" [EmptyString]
           eq_refl eq_refl eq_refl eq_refl).
Defined.

Lemma payload_setters_substitute_witness :
  HostName (sHost example_tunnel) <> EmptyString /\
  sniHost example_tunnel <> EmptyString /\
  lPayload
    (SetlPayload
       ("GET wss://[sni]/ HTTP/1.1[crlf]Host: [host][crlf]" ++
        "X-Target: [host_port] [host_port][crlf][crlf]")
       example_tunnel)
  = "GET wss://cdn.example/ HTTP/1.1" ++ crlf ++
    "Host: example.com" ++ crlf ++
    "X-Target: example.com:443 example.com:443" ++ crlf ++ crlf.
Proof.
  split; [discriminate|]. split; [discriminate|].
  apply (proj1 (payload_setters_substitute example_tunnel
                  ("GET wss://[sni]/ HTTP/1.1[crlf]Host: [host][crlf]" ++
                   "X-Target: [host_port] [host_port][crlf][crlf]")));
    discriminate.
Defined.

Lemma inbound_first_buffer_witness :
  rInitialized example_ssh = false /\
  scan_lines ("HTTP/1.1 101 Switching Protocols" ++ crlf ++ crlf)
    = ["HTTP/1.1 101 Switching Protocols"; EmptyString] /\
  handleInboundData example_ssh
    ("HTTP/1.1 101 Switching Protocols" ++ crlf ++ crlf)
  = Some (with_rInitialized true example_ssh,
          "HTTP/1.1 200 Connection Established" ++ crlf ++ crlf).
Proof.
  split; [reflexivity|]. split; [reflexivity|].
  exact (inbound_first_buffer example_ssh
           ("HTTP/1.1 101 Switching Protocols" ++ crlf ++ crlf)
           "HTTP/1.1 101 Switching Protocols" [EmptyString]
           eq_refl eq_refl).
Defined.

Lemma first_packet_latch_witness :
  hook_run (handleOutboundData no_case_tables) example_ssh
    ["CONNECT a:1 HTTP/1.1" ++ crlf; "SSH-2.0-x"; "CONNECT b"]
  = Some (with_lInitialized true example_ssh,
          ["CONNECT example.com:22 HTTP/1.1" ++ crlf ++ crlf;
           "SSH-2.0-x"; "CONNECT b"]).
Proof.
  exact (proj2 (proj1 (first_packet_latch no_case_tables maxAlloc_amd64 example_ssh
                         ("CONNECT a:1 HTTP/1.1" ++ crlf)
                         ["SSH-2.0-x"; "CONNECT b"]))).
Defined.

Lemma hooks_panic_without_lines_witness :
  scan_lines EmptyString = [] /\
  serverProxyMode example_ssh = false /\
  lInitialized example_ssh = false /\
  rInitialized example_ssh = false /\
  handleOutboundData no_case_tables example_ssh EmptyString = None /\
  handleInboundData example_ssh EmptyString = None.
Proof.
  destruct (hooks_panic_without_lines no_case_tables example_ssh EmptyString
              eq_refl) as (Hout & Hin & _).
  split; [reflexivity|]. split; [reflexivity|]. split; [reflexivity|].
  split; [reflexivity|]. split.
  - exact (Hout eq_refl eq_refl (or_introl eq_refl)).
  - exact (Hin eq_refl).
Defined.



Lemma lPayload_fixed_when_set_witness :
  HostName (sHost example_session) = EmptyString /\
  reaches no_case_tables maxAlloc_amd64
    (initial (SetSNIHost "cdn.example"
                (SetServerHost "example.com:22"
                   (SetlPayload "Host: [host][crlf]" example_session))))
    (initial (SetSNIHost "cdn.example"
                (SetServerHost "example.com:22"
                   (SetlPayload "Host: [host][crlf]" example_session)))) /\
  lPayload (SetSNIHost "cdn.example"
              (SetServerHost "example.com:22"
                 (SetlPayload "Host: [host][crlf]" example_session)))
  = "Host: [host]" ++ crlf.
Proof.
  split; [reflexivity|]. split; [apply reaches_refl|].
  exact (proj1 (lPayload_fixed_when_set no_case_tables maxAlloc_amd64 example_session
                  "Host: [host][crlf]" "example.com:22" "cdn.example" _
                  (reaches_refl _ _ _))).
Defined.

(** * The further properties on concrete sessions *)

Lemma example_server_ready : ready example_server.
Proof. repeat split. Qed.

Lemma example_server_fits : (buffSize example_server <= maxAlloc_amd64)%N.
Proof. discriminate. Qed.

Lemma completed_run :
  reaches no_case_tables maxAlloc_amd64 (initial example_session)
    (start_returned example_session).
Proof.
  apply reaches_trans with (outbound_failed example_session).
  - apply outbound_failure_run;
      [exact example_session_ready | exact example_session_fits].
  - apply start_returns_run.
Qed.

Lemma running_session_keeps_config_witness :
  reaches no_case_tables maxAlloc_amd64 (initial example_session)
    (start_returned example_session) /\
  same_config (px (start_returned example_session)) example_session.
Proof.
  split; [exact completed_run|].
  exact (running_session_keeps_config no_case_tables maxAlloc_amd64 _ _ completed_run).
Defined.

Lemma no_goroutine_without_remote_witness :
  ready example_session /\
  reaches no_case_tables maxAlloc_amd64 (initial example_session) dial_failed_world /\
  rConn (px dial_failed_world) = None /\
  tasks dial_failed_world = [] /\ sends dial_failed_world = 0.
Proof.
  split; [exact example_session_ready|].
  split; [exact dial_failure_run|]. split; [reflexivity|].
  destruct (no_goroutine_without_remote no_case_tables maxAlloc_amd64 example_session
              dial_failed_world example_session_ready dial_failure_run
              eq_refl) as (H1 & H2 & _).
  split; [exact H1 | exact H2].
Defined.

Lemma streams_closed_only_after_failure_witness :
  ready example_session /\
  reaches no_case_tables maxAlloc_amd64 (initial example_session)
    (start_returned example_session) /\
  rclosed (start_returned example_session) = 1 /\
  recvs (start_returned example_session) = 1.
Proof.
  split; [exact example_session_ready|].
  split; [exact completed_run|]. split; [reflexivity|].
  exact (proj1 (streams_closed_only_after_failure no_case_tables maxAlloc_amd64
                  example_session (start_returned example_session)
                  example_session_ready completed_run (or_introl eq_refl))).
Defined.

Lemma erred_means_signalled_witness :
  ready example_session /\
  reaches no_case_tables maxAlloc_amd64 (initial example_session)
    (outbound_failed example_session) /\
  erred (px (outbound_failed example_session)) = true /\
  1 <= sends (outbound_failed example_session).
Proof.
  split; [exact example_session_ready|].
  split; [exact (outbound_failure_run no_case_tables maxAlloc_amd64 example_session
                   example_session_ready example_session_fits)|].
  split; [reflexivity|].
  exact (erred_means_signalled no_case_tables maxAlloc_amd64 example_session
           (outbound_failed example_session) example_session_ready
           (outbound_failure_run no_case_tables maxAlloc_amd64 example_session
              example_session_ready example_session_fits) eq_refl).
Defined.

Lemma outbound_failed_settled :
  forall t, In t (tasks (outbound_failed example_session)) ->
            t_pc t <> ErrSend /\ t_pc t <> ErrMark.
Proof. intros t [<- | [<- | []]]; split; discriminate. Qed.

Lemma latched_session_sends_nothing_witness :
  erred (px (outbound_failed example_session)) = true /\
  reaches no_case_tables maxAlloc_amd64 (outbound_failed example_session)
    (start_returned example_session) /\
  sends (start_returned example_session)
  = sends (outbound_failed example_session).
Proof.
  split; [reflexivity|].
  split; [exact (start_returns_run no_case_tables maxAlloc_amd64 example_session)|].
  exact (proj1 (latched_session_sends_nothing no_case_tables maxAlloc_amd64
                  (outbound_failed example_session)
                  (start_returned example_session) eq_refl
                  outbound_failed_settled
                  (start_returns_run no_case_tables maxAlloc_amd64 example_session))).
Defined.

Lemma err_send_never_blocks_witness :
  ready example_session /\
  reaches no_case_tables maxAlloc_amd64 (initial example_session)
    (twice_sent example_session) /\
  errSig (px (twice_sent example_session)) <= errSigCap.
Proof.
  split; [exact example_session_ready|].
  split; [exact (err_latch_race no_case_tables maxAlloc_amd64 example_session
                   example_session_ready eq_refl example_session_fits)|].
  exact (proj1 (err_send_never_blocks no_case_tables maxAlloc_amd64 example_session
                  (twice_sent example_session) example_session_ready
                  (err_latch_race no_case_tables maxAlloc_amd64 example_session
                     example_session_ready eq_refl example_session_fits))).
Defined.

Lemma forward_loop_counts_witness :
  is_uint64 (bytesSent example_session) /\
  is_uint64 (bytesReceived example_session) /\
  handleForwardData no_case_tables example_session AcceptedConn DialedConn
    [(Some "abc", mkWrite 3 false); (Some "de", mkWrite 2 true);
     (Some "f", mkWrite 1 false)]
  = Some (with_bytesSent 3 (with_lInitialized true example_session),
          [EWrite DialedConn "abc"; EWrite DialedConn "de"], CallErr) /\
  bytesSent (with_bytesSent 3 (with_lInitialized true example_session))
  = ((0 + 3) mod 2 ^ 64)%N.
Proof.
  split; [reflexivity|]. split; [reflexivity|]. split; [reflexivity|].
  exact (proj1 (proj1 (forward_loop_counts no_case_tables example_session
                         (with_bytesSent 3
                            (with_lInitialized true example_session))
                         AcceptedConn DialedConn
                         [(Some "abc", mkWrite 3 false);
                          (Some "de", mkWrite 2 true);
                          (Some "f", mkWrite 1 false)]
                         [EWrite DialedConn "abc"; EWrite DialedConn "de"]
                         CallErr eq_refl eq_refl eq_refl))).
Defined.

Lemma relay_is_transparent_witness :
  lInitialized (with_lInitialized true example_session) = true /\
  exists p',
    handleForwardData no_case_tables (with_lInitialized true example_session)
      AcceptedConn DialedConn (faultless ["ab"; "c"])
    = Some (p', [EWrite DialedConn "ab"; EWrite DialedConn "c"], Continue) /\
    bytesSent p' = 3%N.
Proof.
  split; [reflexivity|].
  destruct (relay_is_transparent no_case_tables
              (with_lInitialized true example_session) AcceptedConn
              DialedConn ["ab"; "c"] eq_refl eq_refl eq_refl eq_refl)
    as [p' [H1 H2]].
  exists p'. split; [exact H1 | exact H2].
Defined.

Lemma SetServerHost_outcome_witness :
  free_of ":" "example.com" = true /\
  SetServerHost "example.com" example_session = example_session.
Proof.
  split; [reflexivity|].
  exact (proj1 (SetServerHost_outcome "example.com" example_session)
           eq_refl).
Defined.

Lemma SetServerHost_reads_host_port_witness :
  free_of ":" "example.com" = true /\
  (22 <= 18446744073709551615)%N /\
  SetServerHost (host_port (mkHost "example.com" 22)) example_session
  = with_sHost (mkHost "example.com" 22) example_session.
Proof.
  split; [reflexivity|]. split; [discriminate|].
  apply (SetServerHost_reads_host_port (mkHost "example.com" 22)
           example_session eq_refl eq_refl eq_refl).
  discriminate.
Defined.

Lemma example_trojan_not_ssh : proxyKind example_trojan <> "ssh".
Proof. discriminate. Qed.

Lemma inbound_reserialization_settles_witness :
  serverProxyMode example_trojan = false /\
  rInitialized example_trojan = false /\
  handleInboundData example_trojan ("a" ++ String LF "b")
  = Some (with_rInitialized true example_trojan, "a" ++ crlf ++ "b" ++ crlf) /\
  handleInboundData example_trojan ("a" ++ crlf ++ "b" ++ crlf)
  = Some (with_rInitialized true example_trojan, "a" ++ crlf ++ "b" ++ crlf).
Proof.
  split; [reflexivity|]. split; [reflexivity|]. split; [reflexivity|].
  apply (proj1 (inbound_reserialization_settles example_trojan eq_refl
                  eq_refl example_trojan_not_ssh)
           ("a" ++ String LF "b")); reflexivity.
Defined.

Lemma hooks_panic_exactly_witness :
  (N.of_nat (String.length EmptyString) < 65536)%N /\
  rInitialized example_ssh = false /\
  handleInboundData example_ssh EmptyString = None.
Proof.
  split; [reflexivity|]. split; [reflexivity|].
  apply (proj1 (hooks_panic_exactly no_case_tables example_ssh EmptyString
                  eq_refl) eq_refl).
  reflexivity.
Defined.

Lemma mainHandler_serves_exactly_witness :
  isWebsocket no_case_tables "WebSocket" = true /\
  In "b.example" (Split "a.example,b.example" ",") /\
  mainHandler no_case_tables "a.example,b.example" "WebSocket" "b.example"
  = ServeProxy.
Proof.
  split; [reflexivity|]. split; [right; left; reflexivity|].
  apply (proj1 (mainHandler_serves_exactly no_case_tables
                  "a.example,b.example" "WebSocket" "b.example")).
  split; [reflexivity|]. split; [discriminate | right; left; reflexivity].
Defined.

Lemma server_hooks_agree_on_upgrade_witness :
  serverProxyMode example_server = true /\
  isASCII upgrade_request = true /\
  (N.of_nat (String.length upgrade_request) < 65536)%N /\
  option_map fst
    (handleOutboundData no_case_tables example_server upgrade_request)
  = option_map fst
      (legacy_handleOutboundData no_case_tables example_server
         upgrade_request).
Proof.
  split; [reflexivity|]. split; [reflexivity|]. split; [reflexivity|].
  exact (proj1 (server_hooks_agree_on_upgrade no_case_tables example_server
                  upgrade_request eq_refl eq_refl eq_refl)).
Defined.

Lemma one_reader_per_stream_witness :
  ready example_session /\ lConn example_session = AcceptedConn /\
  reaches no_case_tables maxAlloc_amd64 (initial example_session)
    (twice_sent example_session) /\
  NoDup (map t_src (tasks (twice_sent example_session))).
Proof.
  split; [exact example_session_ready|]. split; [reflexivity|].
  split; [exact (err_latch_race no_case_tables maxAlloc_amd64 example_session
                   example_session_ready eq_refl example_session_fits)|].
  exact (proj1 (one_reader_per_stream no_case_tables maxAlloc_amd64 example_session
                  (twice_sent example_session) example_session_ready
                  eq_refl
                  (err_latch_race no_case_tables maxAlloc_amd64 example_session
                     example_session_ready eq_refl example_session_fits))).
Defined.

Lemma server_mode_opens_return_path_late_witness :
  ready example_server /\ serverProxyMode example_server = true /\
  reaches no_case_tables maxAlloc_amd64 (initial example_server)
    (outbound_failed example_server) /\
  lInitialized (px (outbound_failed example_server)) = false /\
  t_src (mkTask AcceptedConn DialedConn Finished) = AcceptedConn.
Proof.
  split; [exact example_server_ready|]. split; [reflexivity|].
  split; [exact (outbound_failure_run no_case_tables maxAlloc_amd64 example_server
                   example_server_ready example_server_fits)|].
  split; [reflexivity|].
  exact (proj1 (server_mode_opens_return_path_late no_case_tables maxAlloc_amd64
                  example_server (outbound_failed example_server)
                  example_server_ready eq_refl eq_refl
                  (outbound_failure_run no_case_tables maxAlloc_amd64 example_server
                     example_server_ready example_server_fits)
                  eq_refl (mkTask AcceptedConn DialedConn Finished)
                  (or_introl eq_refl))).
Defined.

Lemma server_outbound_stream_witness :
  serverProxyMode example_server = true /\
  lInitialized example_server = false /\
  exists p',
    handleForwardData no_case_tables example_server AcceptedConn DialedConn
      ((Some upgrade_request, mkWrite 77 false) :: faultless ["SSH-2.0-x"])
    = Some (p', [EWrite AcceptedConn upgrade_response;
                 ESpawn DialedConn AcceptedConn;
                 EWrite DialedConn "SSH-2.0-x"], Continue).
Proof.
  split; [reflexivity|]. split; [reflexivity|].
  exact (server_outbound_stream no_case_tables example_server DialedConn
           upgrade_request ["SSH-2.0-x"] 77 eq_refl eq_refl eq_refl).
Defined.

Lemma session_can_complete_witness :
  (ready example_server /\
   (buffSize example_server <= maxAlloc_amd64)%N /\
   exists w, reaches no_case_tables maxAlloc_amd64 (initial example_server) w /\
             start w = Returned /\ rConn (px w) = Some DialedConn /\
             crashed w = false) /\
  (ready (SetBufferSize 18446744073709551615 example_server) /\
   (maxAlloc_amd64
    < buffSize (SetBufferSize 18446744073709551615 example_server))%N /\
   forall w,
     reaches no_case_tables maxAlloc_amd64
       (initial (SetBufferSize 18446744073709551615 example_server)) w ->
     sends w = 0 /\
     (rConn (px w) = Some DialedConn -> start w <> Returned)).
Proof.
  split.
  - split; [exact example_server_ready|].
    split; [exact example_server_fits|].
    exact (proj1 (session_can_complete no_case_tables maxAlloc_amd64
                    example_server example_server_ready)
             example_server_fits).
  - split; [exact example_server_ready|].
    split; [reflexivity|].
    exact (proj2 (session_can_complete no_case_tables maxAlloc_amd64
                    (SetBufferSize 18446744073709551615 example_server)
                    example_server_ready)
             eq_refl).
Defined.
